(** * compiler-api: the contract validator, the execution harness, the
      blob / alias / event store and the request handlers

    A shallow embedding of [validate.js], of [db.js] and of [executeModule]
    and the handlers of [/run], [/compile] and [/alias] of [server.js],
    followed by the properties of the specification stated over it.

    Conventions.
    - A [Buffer] or [Uint8Array] is a [list byte].
    - A JavaScript number that the code only uses as an integer is a [Z];
      the 32-bit wrap-around of [|], [<<] and [>>>] is written out.
    - A string is a Rocq [string] holding its UTF-8 bytes.
    - Code that can throw returns a [result].
    - The store is passed in and out; the clock, the wasm runtime and the
      compilers are arguments. *)

From Stdlib Require Import ZArith List String Ascii Lia Bool.
From Stdlib.Strings Require Import Byte.
From Stdlib Require DecimalString HexadecimalString.
From Equations Require Import Equations.
From Equations.Prop Require Import Logic.
From stdpp Require Import base option list gmap strings.

Local Open Scope string_scope.
Local Open Scope Z_scope.

(** ** JavaScript integers *)

Module Js.

(** [ToInt32] and [ToUint32] of ECMAScript, on integers. *)
Definition ToInt32 (z : Z) : Z := (z + 2 ^ 31) mod 2 ^ 32 - 2 ^ 31.
Definition ToUint32 (z : Z) : Z := z mod 2 ^ 32.

(** [a | b], [a & b], [a << s] and [a >>> 0]. *)
Definition bor (a b : Z) : Z := ToInt32 (Z.lor (ToInt32 a) (ToInt32 b)).
Definition band (a b : Z) : Z := ToInt32 (Z.land (ToInt32 a) (ToInt32 b)).
Definition shl (a s : Z) : Z :=
  ToInt32 (Z.shiftl (ToInt32 a) (Z.land (ToUint32 s) 31)).
Definition ushr0 (a : Z) : Z := ToUint32 a.

(** The value a wasm [i32] result has once it reaches JavaScript: the
    32 bits read as a signed number. *)
Definition of_i32 (w : Z) : Z := ToInt32 w.

(** An exception: [new Error(msg)] thrown by the program, or a
    [TypeError] / [RangeError] raised by the engine. *)
Inductive error : Type :=
| Error (message : string)
| TypeError (message : string)
| RangeError (message : string).

Definition message (e : error) : string :=
  match e with
  | Error m | TypeError m | RangeError m => m
  end.

(** [slice(start, end)] of [Buffer] and of typed arrays: a negative
    index counts from the end, every index is clamped to the length and
    an empty range gives an empty array. *)
Definition rel_index (len i : Z) : Z :=
  if i <? 0 then Z.max (len + i) 0 else Z.min i len.

Definition slice {A} (l : list A) (start stop : Z) : list A :=
  let len := Z.of_nat (length l) in
  let k := rel_index len start in
  let final := rel_index len stop in
  take (Z.to_nat (Z.max (final - k) 0)) (drop (Z.to_nat k) l).

(** [x.toString(16)] and [String(x)] for a non-negative integer. *)
Definition hex (z : Z) : string :=
  HexadecimalString.NilZero.string_of_uint (N.to_hex_uint (Z.to_N z)).
Definition dec (z : Z) : string :=
  DecimalString.NilZero.string_of_uint (N.to_uint (Z.to_N z)).

End Js.

Inductive result (A : Type) : Type :=
| Ok (a : A)
| Throw (e : Js.error).
Arguments Ok {A} a.
Arguments Throw {A} e.

Definition byte_val (b : byte) : Z := Z.of_N (Byte.to_N b).

(** The byte with value [z] modulo 256. *)
Definition byte_of (z : Z) : byte :=
  match Byte.of_N (Z.to_N (z mod 256)) with
  | Some b => b
  | None => x00
  end.

(** A byte read from a buffer is [undefined] past the end; in a bit
    operation [undefined] counts as 0. *)
Definition num_of (b : option byte) : Z :=
  match b with
  | Some b => byte_val b
  | None => 0
  end.

(** [buf.toString("hex")]. *)
Definition hex2 (b : byte) : string :=
  let v := byte_val b in Js.hex (v / 16) ++ Js.hex (v mod 16).

Definition to_hex (bs : list byte) : string :=
  String.concat "" (map hex2 bs).

(** ** UTF-8

    [buf.toString("utf-8")] decodes the bytes as the Encoding Standard
    says: a byte sequence that is no UTF-8 gives U+FFFD, once for each
    maximal part of a sequence that could have gone on. The string that
    results is held as its own UTF-8 bytes. *)

Module Utf8.

Definition REPLACEMENT : Z := 0xFFFD.

(** What a byte is when no sequence is open: a character of its own, the
    first byte of a sequence (with the number of bytes still needed, the
    bits read so far and the bounds of the byte that may follow), or no
    start of anything. *)
Inductive start : Type :=
| Single (cp : Z)
| Lead (needed cp lower upper : Z)
| Invalid.

Definition first (v : Z) : start :=
  if v <=? 0x7f then Single v
  else if (0xc2 <=? v) && (v <=? 0xdf) then Lead 1 (Z.land v 0x1f) 0x80 0xbf
  else if (0xe0 <=? v) && (v <=? 0xef) then
    Lead 2 (Z.land v 0x0f) (if v =? 0xe0 then 0xa0 else 0x80)
           (if v =? 0xed then 0x9f else 0xbf)
  else if (0xf0 <=? v) && (v <=? 0xf4) then
    Lead 3 (Z.land v 0x07) (if v =? 0xf0 then 0x90 else 0x80)
           (if v =? 0xf4 then 0x8f else 0xbf)
  else Invalid.

(** The code points of a byte sequence. A byte that cannot continue the
    open sequence ends it with U+FFFD and is read again as a first byte;
    so does the end of the bytes. *)
Fixpoint decode_loop (bs : list byte) (needed cp lower upper : Z) : list Z :=
  match bs with
  | [] => if needed =? 0 then [] else [REPLACEMENT]
  | b :: bs' =>
      let v := byte_val b in
      let restart :=
        match first v with
        | Single c => c :: decode_loop bs' 0 0 0x80 0xbf
        | Lead n c lo hi => decode_loop bs' n c lo hi
        | Invalid => REPLACEMENT :: decode_loop bs' 0 0 0x80 0xbf
        end in
      if needed =? 0 then restart
      else if (lower <=? v) && (v <=? upper) then
        let cp' := cp * 64 + Z.land v 0x3f in
        if needed =? 1 then cp' :: decode_loop bs' 0 0 0x80 0xbf
        else decode_loop bs' (needed - 1) cp' 0x80 0xbf
      else REPLACEMENT :: restart
  end.

Definition decode (bs : list byte) : list Z := decode_loop bs 0 0 0x80 0xbf.

Definition encode_one (cp : Z) : list byte :=
  if cp <? 0x80 then [byte_of cp]
  else if cp <? 0x800 then [byte_of (0xc0 + cp / 64); byte_of (0x80 + cp mod 64)]
  else if cp <? 0x10000 then
    [byte_of (0xe0 + cp / 4096); byte_of (0x80 + (cp / 64) mod 64);
     byte_of (0x80 + cp mod 64)]
  else
    [byte_of (0xf0 + cp / 262144); byte_of (0x80 + (cp / 4096) mod 64);
     byte_of (0x80 + (cp / 64) mod 64); byte_of (0x80 + cp mod 64)].

Definition encode (cps : list Z) : list byte := flat_map encode_one cps.

(** [buf.toString("utf-8")] *)
Definition toString (bs : list byte) : string :=
  string_of_list_byte (encode (decode bs)).

(** The code points of a string, and its [length]: a code point above
    U+FFFF takes two places. *)
Definition code_points (s : string) : list Z := decode (list_byte_of_string s).

Definition length16 (s : string) : Z :=
  fold_right Z.add 0 (map (fun cp => if cp <? 0x10000 then 1 else 2) (code_points s)).

End Utf8.

(** ** validate.js *)

Module Validate.

Definition SECTION_TYPE : Z := 1.
Definition SECTION_IMPORT : Z := 2.
Definition SECTION_FUNCTION : Z := 3.
Definition SECTION_EXPORT : Z := 7.

Definition TYPE_I32 : Z := 0x7f.
Definition FUNC_TYPE_TAG : Z := 0x60.

Definition EXPORT_FUNC : Z := 0.
Definition EXPORT_MEMORY : Z := 2.

(** *** class Reader

    A reader is its buffer and its position; a method takes the
    position and returns its value with the new position. *)

Definition Reader (A : Type) : Type := Z -> result (A * Z).

Definition ret {A} (a : A) : Reader A := fun pos => Ok (a, pos).

Definition bind {A B} (m : Reader A) (k : A -> Reader B) : Reader B :=
  fun pos =>
    match m pos with
    | Ok (a, pos') => k a pos'
    | Throw e => Throw e
    end.

Definition throw {A} (e : Js.error) : Reader A := fun _ => Throw e.

Definition run {A} (m : Reader A) : result A :=
  match m 0 with
  | Ok (a, _) => Ok a
  | Throw e => Throw e
  end.

Declare Scope reader_scope.
Delimit Scope reader_scope with reader.
Notation "x <- m ;; k" := (bind m (fun x => k))
  (at level 100, m at next level, right associativity) : reader_scope.
Notation "m ;;; k" := (bind m (fun _ => k))
  (at level 100, right associativity) : reader_scope.

Section Reader.
Variable buf : list byte.

Definition buf_length : Z := Z.of_nat (length buf).

(** [this.buf[i]] *)
Definition at_index (i : Z) : option byte :=
  if (0 <=? i) && (i <? buf_length) then buf !! Z.to_nat i else None.

(** The bytes from [pos] on. *)
Definition rest (pos : Z) : list byte :=
  if (0 <=? pos) && (pos <? buf_length) then drop (Z.to_nat pos) buf else [].

Definition byte : Reader (option Byte.byte) :=
  fun pos => Ok (at_index pos, pos + 1).

(** The body of the [do ... while (b & 0x80)] loop of [leb128], on the
    bytes still to read: the accumulated [result], the [shift] and the
    number of bytes read. Past the end [byte()] gives [undefined],
    which ends the loop. *)
Fixpoint leb128_loop (bs : list Byte.byte) (result shift read : Z) : Z * Z :=
  match bs with
  | [] =>
      (Js.bor result (Js.shl (Js.band (num_of None) 0x7f) shift), read + 1)
  | b :: bs' =>
      let result' :=
        Js.bor result (Js.shl (Js.band (byte_val b) 0x7f) shift) in
      if Js.band (byte_val b) 0x80 =? 0 then (result', read + 1)
      else leb128_loop bs' result' (shift + 7) (read + 1)
  end.

Definition leb128 : Reader Z :=
  fun pos =>
    let '(result, read) := leb128_loop (rest pos) 0 0 0 in
    Ok (Js.ushr0 result, pos + read).

Definition u32 : Reader Z := leb128.

Definition bytes (n : Z) : Reader (list Byte.byte) :=
  fun pos => Ok (Js.slice buf pos (pos + n), pos + n).

(** [name()] *)
Definition name : Reader string :=
  (len <- u32 ;; s <- bytes len ;; ret (Utf8.toString s))%reader.

Definition skip (n : Z) : Reader unit :=
  fun pos => Ok (tt, pos + n).

End Reader.

(** [for (let i = 0; i < count; i++) arr.push(m())] *)
Fixpoint push_loop {A} (count : nat) (m : Reader A) : Reader (list A) :=
  match count with
  | O => ret []
  | S count' => (a <- m ;; l <- push_loop count' m ;; ret (a :: l))%reader
  end.

(** [b === n] for a byte read from a buffer and a number [n]. *)
Definition is_num (b : option Byte.byte) (n : Z) : bool :=
  match b with
  | Some b => byte_val b =? n
  | None => false
  end.

(** The engine's message for [undefined.toString(16)]. *)
Definition undefined_toString : Js.error :=
  Js.TypeError "Cannot read properties of undefined (reading 'toString')".

(** *** parseSections *)

(** The property name [id] under which a payload is stored. *)
Definition section_id (id : option Byte.byte) : Z :=
  match id with
  | Some b => byte_val b
  | None => -1
  end.

(** One turn of the [while] loop: [id], [size], [payload]. *)
Definition read_section (buf : list Byte.byte) : Reader (Z * list Byte.byte) :=
  (id <- byte buf ;;
   size <- u32 buf ;;
   payload <- bytes buf size ;;
   ret (section_id id, payload))%reader.

Lemma leb128_loop_read bs result shift read :
  read < snd (leb128_loop bs result shift read).
Proof.
  revert result shift read.
  induction bs as [|b bs IH]; intros result shift read; simpl; [lia|].
  destruct (_ =? 0); simpl; [lia|].
  specialize (IH (Js.bor result (Js.shl (Js.band (byte_val b) 127) shift))
                (shift + 7) (read + 1)).
  lia.
Qed.

Lemma ToUint32_nonneg z : 0 <= Js.ToUint32 z.
Proof. unfold Js.ToUint32. apply Z.mod_pos_bound. lia. Qed.

Lemma read_section_advances buf pos v pos' :
  read_section buf pos = Ok (v, pos') -> pos + 2 <= pos'.
Proof.
  unfold read_section, bind, byte, u32, leb128, bytes, ret.
  destruct (leb128_loop (rest buf (pos + 1)) 0 0 0) as [r k] eqn:E.
  intros [= _ <-].
  pose proof (leb128_loop_read (rest buf (pos + 1)) 0 0 0) as Hk.
  rewrite E in Hk. cbn in Hk.
  pose proof (ToUint32_nonneg r). unfold Js.ushr0. lia.
Qed.

Equations? sections_loop (buf : list Byte.byte) (sections : gmap Z (list Byte.byte))
    (pos : Z) : result (gmap Z (list Byte.byte))
    by wf (Z.to_nat (buf_length buf - pos)) lt :=
  sections_loop buf sections pos with inspect (pos <? buf_length buf) := {
    | exist _ false _ => Ok sections
    | exist _ true Hlt with inspect (read_section buf pos) := {
        | exist _ (Ok section) Hstep =>
            sections_loop buf (<[section.1.1 := section.1.2]> sections) section.2
        | exist _ (Throw e) _ => Throw e } }.
Proof.
  destruct section as [v pos'].
  apply read_section_advances in Hstep.
  apply Z.ltb_lt in Hlt. cbn. lia.
Qed.

Definition parseSections (buf : list Byte.byte) : result (gmap Z (list Byte.byte)) :=
  let r :=
    (magic <- bytes buf 4 ;;
     if negb (String.eqb (to_hex magic) "0061736d")
     then throw (Js.Error "Not a wasm module")
     else
       skip 4 ;;;
       fun pos =>
         match sections_loop buf ∅ pos with
         | Ok sections => Ok (sections, pos)
         | Throw e => Throw e
         end)%reader in
  run r.

(** *** parseTypes *)

Record functype : Type :=
  { params : list (option Byte.byte); results : list (option Byte.byte) }.

Definition read_type (buf : list Byte.byte) : Reader functype :=
  (tag <- byte buf ;;
   match tag with
   | None => throw undefined_toString
   | Some t =>
       if negb (byte_val t =? FUNC_TYPE_TAG)
       then throw (Js.Error ("Unexpected type tag: 0x" ++ Js.hex (byte_val t)))
       else
         paramCount <- u32 buf ;;
         params <- push_loop (Z.to_nat paramCount) (byte buf) ;;
         resultCount <- u32 buf ;;
         results <- push_loop (Z.to_nat resultCount) (byte buf) ;;
         ret {| params := params; results := results |}
   end)%reader.

Definition parseTypes (buf : list Byte.byte) : result (list functype) :=
  run (count <- u32 buf ;; push_loop (Z.to_nat count) (read_type buf))%reader.

(** *** parseImports *)

Record imports : Type := { funcImports : Z }.

(** One turn of the loop over the imports, on the counter [funcImports]. *)
Definition read_import (buf : list Byte.byte) (funcImports : Z) : Reader Z :=
  (name buf ;;;
   name buf ;;;
   kind <- byte buf ;;
   if is_num kind 0 then u32 buf ;;; ret (funcImports + 1)
   else if is_num kind 1 then byte buf ;;; u32 buf ;;; ret funcImports
   else if is_num kind 2 then
     byte buf ;;;
     u32 buf ;;;
     (fun pos =>
        if is_num (at_index buf (pos - 1)) 1
        then (u32 buf ;;; ret funcImports) pos
        else ret funcImports pos)
   else if is_num kind 3 then byte buf ;;; byte buf ;;; ret funcImports
   else ret funcImports)%reader.

Fixpoint imports_loop (buf : list Byte.byte) (count : nat) (funcImports : Z)
  : Reader Z :=
  match count with
  | O => ret funcImports
  | S count' =>
      (n <- read_import buf funcImports ;; imports_loop buf count' n)%reader
  end.

Definition parseImports (buf : list Byte.byte) : result imports :=
  run (count <- u32 buf ;;
       n <- imports_loop buf (Z.to_nat count) 0 ;;
       ret {| funcImports := n |})%reader.

(** *** parseFunctions *)

Definition parseFunctions (buf : list Byte.byte) : result (list Z) :=
  run (count <- u32 buf ;; push_loop (Z.to_nat count) (u32 buf))%reader.

(** *** parseExports *)

Module ExportEntry.
Record t : Type :=
  { name : string; kind : option Byte.byte; index : Z }.
End ExportEntry.

Definition read_export (buf : list Byte.byte) : Reader ExportEntry.t :=
  (name <- name buf ;;
   kind <- byte buf ;;
   index <- u32 buf ;;
   ret {| ExportEntry.name := name; ExportEntry.kind := kind; ExportEntry.index := index |})%reader.

Definition parseExports (buf : list Byte.byte) : result (list ExportEntry.t) :=
  run (count <- u32 buf ;; push_loop (Z.to_nat count) (read_export buf))%reader.

(** *** typeName, formatSig *)

Definition typeName (t : option Byte.byte) : result string :=
  if is_num t TYPE_I32 then Ok "i32"
  else if is_num t 0x7e then Ok "i64"
  else if is_num t 0x7d then Ok "f32"
  else if is_num t 0x7c then Ok "f64"
  else match t with
       | Some b => Ok ("0x" ++ Js.hex (byte_val b))
       | None => Throw undefined_toString
       end.

(** [arr.map(f)] for an [f] that can throw. *)
Fixpoint map_result {A B} (f : A -> result B) (l : list A) : result (list B) :=
  match l with
  | [] => Ok []
  | a :: l' =>
      match f a with
      | Throw e => Throw e
      | Ok b =>
          match map_result f l' with
          | Throw e => Throw e
          | Ok bs => Ok (b :: bs)
          end
      end
  end.

Definition formatSig (type : functype) : result string :=
  match map_result typeName (params type) with
  | Throw e => Throw e
  | Ok ps =>
      match map_result typeName (results type) with
      | Throw e => Throw e
      | Ok rs =>
          Ok ("(" ++ String.concat ", " ps ++ ") -> (" ++ String.concat ", " rs ++ ")")
      end
  end.

Definition EXPECTED_PARAMS : list Z := [TYPE_I32; TYPE_I32; TYPE_I32].
Definition EXPECTED_RESULTS : list Z := [TYPE_I32].

(** *** validate *)

Record Info : Type :=
  { exports : gmap string (option Byte.byte * Z);
    runSignature : option string }.

Record validation : Type :=
  { valid : bool;
    errors : list string;
    warnings : list string;
    info : Info }.

(** [arr[i]], [undefined] out of range. *)
Definition array_get {A} (l : list A) (i : Z) : option A :=
  if (0 <=? i) && (i <? Z.of_nat (length l)) then l !! Z.to_nat i else None.

(** [p === expected[i]] *)
Definition strict_eq (p : option Byte.byte) (e : option Z) : bool :=
  match p, e with
  | Some b, Some n => byte_val b =? n
  | None, None => true
  | _, _ => false
  end.

(** [arr.every((p, i) => p === expected[i])], from index [i] on. *)
Fixpoint every_expected (expected : list Z) (i : nat)
    (arr : list (option Byte.byte)) : bool :=
  match arr with
  | [] => true
  | p :: arr' =>
      strict_eq p (expected !! i) && every_expected expected (S i) arr'
  end.

Definition sig_ok (arr : list (option Byte.byte)) (expected : list Z) : bool :=
  (Z.of_nat (length arr) =? Z.of_nat (length expected))
  && every_expected expected 0 arr.

Definition is_memory_export (e : ExportEntry.t) : bool :=
  String.eqb (ExportEntry.name e) "memory"
  && is_num (ExportEntry.kind e) EXPORT_MEMORY.

Definition is_run_export (e : ExportEntry.t) : bool :=
  String.eqb (ExportEntry.name e) "run"
  && is_num (ExportEntry.kind e) EXPORT_FUNC.

Definition show_index (i : option Z) : string :=
  match i with
  | Some i => Js.dec i
  | None => "undefined"
  end.

(** The block that checks the [run] export: the errors it pushes and the
    [runSignature] it records. *)
Definition check_run (types : list functype) (imports : imports)
    (funcTypeIndices : list Z) (exports : list ExportEntry.t)
  : result (list string * option string) :=
  match List.find is_run_export exports with
  | None => Ok (["Missing export: run (kind: function)"], None)
  | Some runExport =>
      let localIndex := ExportEntry.index runExport - funcImports imports in
      if (localIndex <? 0) || (localIndex >=? Z.of_nat (length funcTypeIndices))
      then
        Ok (["Cannot resolve type for run (func index "
               ++ Js.dec (ExportEntry.index runExport) ++ ")"], None)
      else
        let typeIdx := array_get funcTypeIndices localIndex in
        let type :=
          match typeIdx with
          | Some i => array_get types i
          | None => None
          end in
        match type with
        | None =>
            Ok (["Cannot resolve type index " ++ show_index typeIdx ++ " for run"],
                None)
        | Some type =>
            match formatSig type with
            | Throw e => Throw e
            | Ok sig =>
                let paramsOk := sig_ok (params type) EXPECTED_PARAMS in
                let resultsOk := sig_ok (results type) EXPECTED_RESULTS in
                if negb paramsOk || negb resultsOk
                then
                  Ok (["Wrong signature for run: got " ++ sig
                         ++ ", expected (i32, i32, i32) -> (i32)"], Some sig)
                else Ok ([], Some sig)
            end
        end
  end.

Definition knownExports : list string := ["memory"; "run"; "_initialize"].

Definition has (set : list string) (x : string) : bool :=
  existsb (String.eqb x) set.

Definition extra_warnings (exports : list ExportEntry.t) : list string :=
  flat_map
    (fun exp =>
       if negb (has knownExports (ExportEntry.name exp))
       then ["Extra export: " ++ ExportEntry.name exp]
       else [])
    exports.

(** [info.exports[exp.name] = { kind, index }] for each export, as the keys
    of [info.exports] and their values. On the name [__proto__] the
    assignment sets the prototype of the object and makes no key. *)
Definition info_exports (exports : list ExportEntry.t)
  : gmap string (option Byte.byte * Z) :=
  fold_left
    (fun o exp =>
       if String.eqb (ExportEntry.name exp) "__proto__" then o
       else <[ExportEntry.name exp :=
                (ExportEntry.kind exp, ExportEntry.index exp)]> o)
    exports ∅.

(** [sections[id] ? parse(sections[id]) : dflt] *)
Definition parse_section {A} (sections : gmap Z (list Byte.byte)) (id : Z)
    (parse : list Byte.byte -> result A) (dflt : A) : result A :=
  match sections !! id with
  | Some payload => parse payload
  | None => Ok dflt
  end.

Definition rbind {A B} (m : result A) (k : A -> result B) : result B :=
  match m with
  | Ok a => k a
  | Throw e => Throw e
  end.

Declare Scope result_scope.
Delimit Scope result_scope with result.
Notation "x <- m ;; k" := (rbind m (fun x => k))
  (at level 100, m at next level, right associativity) : result_scope.

Definition validate (wasmBytes : list Byte.byte) : result validation :=
  match parseSections wasmBytes with
  | Throw e =>
      Ok {| valid := false;
            errors := ["Invalid wasm binary: " ++ Js.message e];
            warnings := [];
            info := {| exports := ∅; runSignature := None |} |}
  | Ok sections =>
      (types <- parse_section sections SECTION_TYPE parseTypes [] ;;
       imports <- parse_section sections SECTION_IMPORT parseImports
                    {| funcImports := 0 |} ;;
       funcTypeIndices <- parse_section sections SECTION_FUNCTION parseFunctions [] ;;
       exports <- parse_section sections SECTION_EXPORT parseExports [] ;;
       let memErrors :=
         match List.find is_memory_export exports with
         | None => ["Missing export: memory (kind: memory)"]
         | Some _ => []
         end in
       run <- check_run types imports funcTypeIndices exports ;;
       let errors := (memErrors ++ run.1)%list in
       Ok {| valid := Z.of_nat (length errors) =? 0;
             errors := errors;
             warnings := extra_warnings exports;
             info := {| exports := info_exports exports;
                        runSignature := run.2 |} |})%result
  end.

(** *** What the checks look for

    Stated on what the parsers returned: the types, the count of function
    imports, the type indexes and the exports. *)

Definition i32 : option Byte.byte := Some x7f.

(** An export with this name and this kind. *)
Definition exported (nm : string) (k : Byte.byte) (e : ExportEntry.t) : Prop :=
  ExportEntry.name e = nm /\ ExportEntry.kind e = Some k.

(** [e] is the export found for [nm] and [k]: the first one in the
    Export section. *)
Definition found_export (nm : string) (k : Byte.byte)
    (exports : list ExportEntry.t) (e : ExportEntry.t) : Prop :=
  exists pre post,
    exports = (pre ++ e :: post)%list /\ exported nm k e
    /\ Forall (fun x => ~ exported nm k x) pre.

(** The type [validate] finds for an export: its index less
    [funcImports], looked up in [funcTypeIndices], and that looked up in
    [types]. *)
Definition resolves_to (types : list functype) (imports : imports)
    (funcTypeIndices : list Z) (e : ExportEntry.t) (type : functype) : Prop :=
  exists typeIdx,
    0 <= ExportEntry.index e - funcImports imports
    /\ funcTypeIndices !! Z.to_nat (ExportEntry.index e - funcImports imports)
       = Some typeIdx
    /\ 0 <= typeIdx
    /\ types !! Z.to_nat typeIdx = Some type.

(** What [validate] returns once the section layout has parsed. *)
Definition verdict (exports : list ExportEntry.t)
    (run : list string * option string) : validation :=
  let errors :=
    (match List.find is_memory_export exports with
     | None => ["Missing export: memory (kind: memory)"]
     | Some _ => []
     end ++ run.1)%list in
  {| valid := Z.of_nat (length errors) =? 0;
     errors := errors;
     warnings := extra_warnings exports;
     info := {| exports := info_exports exports; runSignature := run.2 |} |}.

End Validate.

(** ** The binary format the validator reads

    The encoding of numbers, names, vectors, types, imports, exports and
    sections of the WebAssembly binary format, written as the functions
    that produce the bytes. They are not part of validate.js: they say
    what input its readers are meant for. *)

Module Encode.

(** The bytes of [n] in unsigned LEB128: seven bits at a time, the low ones
    first, a byte below 128 last. At most [groups] bytes. *)
Fixpoint uleb128_loop (groups : nat) (n : Z) : list byte :=
  match groups with
  | O => []
  | S groups' =>
      if n <? 128 then [byte_of n]
      else byte_of (n mod 128 + 128) :: uleb128_loop groups' (n / 128)
  end.

Definition uleb128 (n : Z) : list byte := uleb128_loop 5 n.

Definition size {A} (l : list A) : Z := Z.of_nat (length l).

(** A number that fits 32 bits; a list, a string whose length does. *)
Definition is_u32 (n : Z) : Prop := 0 <= n < 2 ^ 32.
Definition short {A} (l : list A) : Prop := size l < 2 ^ 32.
Definition short_name (s : string) : Prop := short (list_byte_of_string s).

(** A vector: the number of its elements, then the elements. *)
Definition vec {A} (enc : A -> list byte) (l : list A) : list byte :=
  (uleb128 (size l) ++ concat (map enc l))%list.

(** A name: the number of its bytes, then the bytes. *)
Definition name (s : string) : list byte :=
  (uleb128 (size (list_byte_of_string s)) ++ list_byte_of_string s)%list.

(** A function type, an export and a section. *)
Definition functype (t : list byte * list byte) : list byte :=
  ([x60] ++ vec (fun v => [v]) t.1 ++ vec (fun v => [v]) t.2)%list.

Definition export (e : string * byte * Z) : list byte :=
  (name e.1.1 ++ [e.1.2] ++ uleb128 e.2)%list.

(** Limits: a minimum alone after the flag 0, a minimum and a maximum
    after the flag 1. *)
Definition limits (min : Z) (max : option Z) : list byte :=
  match max with
  | None => [x00] ++ uleb128 min
  | Some m => [x01] ++ uleb128 min ++ uleb128 m
  end%list.

(** An import of a function with its type index, of a table with its
    reference type and limits, of a memory with its limits, or of a global
    with its value type and its mutability. *)
Inductive importdesc : Type :=
| ImportFunc (typeidx : Z)
| ImportTable (reftype : byte) (min : Z) (max : option Z)
| ImportMemory (min : Z) (max : option Z)
| ImportGlobal (valtype mut : byte).

Definition import (i : string * string * importdesc) : list byte :=
  (name i.1.1 ++ name i.1.2
   ++ match i.2 with
      | ImportFunc typeidx => [x00] ++ uleb128 typeidx
      | ImportTable reftype min max => [x01; reftype] ++ limits min max
      | ImportMemory min max => [x02] ++ limits min max
      | ImportGlobal valtype mut => [x03; valtype; mut]
      end)%list.

Definition is_func (i : string * string * importdesc) : bool :=
  match i.2 with
  | ImportFunc _ => true
  | _ => false
  end.

(** An import of a function or of a global whose names and index fit 32
    bits. *)
Definition import_ok (i : string * string * importdesc) : Prop :=
  short_name i.1.1 /\ short_name i.1.2
  /\ match i.2 with
     | ImportFunc typeidx => is_u32 typeidx
     | ImportGlobal _ _ => True
     | ImportTable _ _ _ | ImportMemory _ _ => False
     end.

(** The number of function imports. *)
Definition func_imports (l : list (string * string * importdesc)) : Z :=
  Z.of_nat (length (List.filter is_func l)).

Definition section (s : byte * list byte) : list byte :=
  ([s.1] ++ uleb128 (size s.2) ++ s.2)%list.

(** A module: the magic number, four bytes of version, the sections. *)
Definition module (version : list byte) (sections : list (byte * list byte))
  : list byte :=
  ([x00; x61; x73; x6d] ++ version ++ concat (map section sections))%list.

(** The four sections the validator reads, as what they encode. *)
Record program : Type :=
  { types : list (list byte * list byte);
    imports : list (string * string * importdesc);
    functions : list Z;
    exports : list (string * byte * Z) }.

Definition sections (p : program) : list (byte * list byte) :=
  [(x01, vec functype (types p));
   (x02, vec import (imports p));
   (x03, vec uleb128 (functions p));
   (x07, vec export (exports p))].

(** Every count, length and index of the program fits 32 bits. *)
Definition fits (p : program) : Prop :=
  (short (types p) /\ Forall (fun t => short t.1 /\ short t.2) (types p))
  /\ (short (imports p) /\ Forall import_ok (imports p))
  /\ (short (functions p) /\ Forall is_u32 (functions p))
  /\ (short (exports p)
      /\ Forall (fun e => short_name e.1.1 /\ is_u32 e.2) (exports p))
  /\ Forall (fun s => short s.2) (sections p).

(** What the validator holds for a type and for an export once read; the
    name of an export is the string its bytes decode to. *)
Definition read_functype (t : list byte * list byte) : Validate.functype :=
  {| Validate.params := Some <$> t.1; Validate.results := Some <$> t.2 |}.

Definition read_export (e : string * byte * Z) : Validate.ExportEntry.t :=
  {| Validate.ExportEntry.name := Utf8.toString (list_byte_of_string e.1.1);
     Validate.ExportEntry.kind := Some e.1.2;
     Validate.ExportEntry.index := e.2 |}.

(** The [sections] object after the payloads were assigned in order. *)
Definition sections_of (sections : list (byte * list byte)) : gmap Z (list byte) :=
  fold_left (fun o s => <[byte_val s.1 := s.2]> o) sections ∅.

End Encode.

(** [m], run on a buffer that holds [bs] at the position, gives [a] and
    moves the position past [bs]. *)
Definition reads {A} (m : list byte -> Validate.Reader A) (bs : list byte) (a : A)
  : Prop :=
  forall pre tail,
    m (pre ++ bs ++ tail)%list (Z.of_nat (length pre))
    = Ok (a, Z.of_nat (length pre) + Z.of_nat (length bs)).


(** [m], run on a buffer that holds [bs] at the position and [tail] after
    it, throws [e]. *)
Definition fails {A} (m : list byte -> Validate.Reader A) (bs tail : list byte)
    (e : Js.error) : Prop :=
  forall pre,
    m (pre ++ bs ++ tail)%list (Z.of_nat (length pre)) = Throw e.

(** ** The contract, in the words of the specification

    Stated on what a module declares: its types, its imports, the type
    indexes of its functions and its exports. *)

Module Contract.

(** [(i32, i32, i32) -> (i32)] *)
Definition signature : list byte * list byte := ([x7f; x7f; x7f], [x7f]).

(** The signature of the function an export index denotes: subtract the
    count of function imports, index the Function section, index the Type
    section. *)
Definition resolves (p : Encode.program) (index : Z) (t : list byte * list byte)
  : Prop :=
  exists typeIdx,
    0 <= index - Encode.func_imports (Encode.imports p)
    /\ Encode.functions p
         !! Z.to_nat (index - Encode.func_imports (Encode.imports p))
       = Some typeIdx
    /\ 0 <= typeIdx
    /\ Encode.types p !! Z.to_nat typeIdx = Some t.

(** A [memory] export of kind memory, and a [run] export of kind function
    with the signature. *)
Definition conforms (p : Encode.program) : Prop :=
  (exists index, ("memory", x02, index) ∈ Encode.exports p)
  /\ (exists index,
        ("run", x00, index) ∈ Encode.exports p
        /\ resolves p index signature).

End Contract.

(** ** SHA-256

    [crypto.createHash("sha256")], after FIPS 180-4. Words are integers
    below [2 ^ 32]. *)

Module Sha256.

Definition w32 (z : Z) : Z := z mod 2 ^ 32.

(** The largest [r] below [2 ^ 36] with [r ^ k <= n], one bit at a time. *)
Definition iroot (k n : Z) : Z :=
  fold_left
    (fun r b => if (r + 2 ^ b) ^ k <=? n then r + 2 ^ b else r)
    (map Z.of_nat (rev (seq 0 36))) 0.

Definition is_prime (p : Z) : bool :=
  forallb (fun d => negb (p mod d =? 0))
          (filter (fun d => d * d <=? p) (map Z.of_nat (seq 2 16))).

Definition primes : list Z :=
  filter is_prime (map Z.of_nat (seq 2 310)).

(** The first 32 bits of the fractional parts of the square roots of the
    first 8 primes, and of the cube roots of the first 64. *)
Definition H0 : list Z :=
  Eval vm_compute in map (fun p => w32 (iroot 2 (p * 2 ^ 64))) (take 8 primes).
Definition K : list Z :=
  Eval vm_compute in map (fun p => w32 (iroot 3 (p * 2 ^ 96))) (take 64 primes).

Definition rotr (n x : Z) : Z :=
  Z.lor (Z.shiftr x n) (w32 (Z.shiftl x (32 - n))).
Definition xor3 (a b c : Z) : Z := Z.lxor (Z.lxor a b) c.

Definition Ch (x y z : Z) : Z :=
  Z.lxor (Z.land x y) (Z.land (Z.lxor x (2 ^ 32 - 1)) z).
Definition Maj (x y z : Z) : Z :=
  xor3 (Z.land x y) (Z.land x z) (Z.land y z).
Definition Sigma0 (x : Z) : Z := xor3 (rotr 2 x) (rotr 13 x) (rotr 22 x).
Definition Sigma1 (x : Z) : Z := xor3 (rotr 6 x) (rotr 11 x) (rotr 25 x).
Definition sigma0 (x : Z) : Z := xor3 (rotr 7 x) (rotr 18 x) (Z.shiftr x 3).
Definition sigma1 (x : Z) : Z := xor3 (rotr 17 x) (rotr 19 x) (Z.shiftr x 10).

(** The message with its padding: a [1] bit, zeros up to 56 modulo 64, and
    the length in bits on 8 bytes. *)
Definition be_bytes (n : nat) (z : Z) : list Z :=
  map (fun i => Z.shiftr z (8 * Z.of_nat i) mod 256) (rev (seq 0 n)).

Definition pad (msg : list Z) : list Z :=
  let len := Z.of_nat (length msg) in
  (msg ++ [0x80] ++ repeat 0 (Z.to_nat ((55 - len) mod 64))
       ++ be_bytes 8 (8 * len))%list.

Definition be_word (bs : list Z) : Z :=
  fold_left (fun acc b => acc * 256 + b) bs 0.

(** A list cut into pieces of [n] elements. *)
Fixpoint chunks {A} (n : nat) (count : nat) (l : list A) : list (list A) :=
  match count with
  | O => []
  | S count' => take n l :: chunks n count' (drop n l)
  end.

(** The 64 words of the schedule, most recent first. *)
Fixpoint schedule (count : nat) (w : list Z) : list Z :=
  match count with
  | O => w
  | S count' =>
      let at_ i := nth i w 0 in
      schedule count'
        (w32 (sigma1 (at_ 1%nat) + at_ 6%nat + sigma0 (at_ 14%nat) + at_ 15%nat) :: w)
  end.

Record state : Type :=
  State { sa : Z; sb : Z; sc : Z; sd : Z; se : Z; sf : Z; sg : Z; sh : Z }.

Definition round (s : state) (kw : Z * Z) : state :=
  let '(k, w) := kw in
  let t1 := sh s + Sigma1 (se s) + Ch (se s) (sf s) (sg s) + k + w in
  let t2 := Sigma0 (sa s) + Maj (sa s) (sb s) (sc s) in
  State (w32 (t1 + t2)) (sa s) (sb s) (sc s) (w32 (sd s + t1)) (se s) (sf s) (sg s).

Definition compress (s : state) (block : list Z) : state :=
  let w := rev (schedule 48 (rev (map be_word (chunks 4 16 block)))) in
  let r := fold_left round (zip K w) s in
  State (w32 (sa s + sa r)) (w32 (sb s + sb r)) (w32 (sc s + sc r))
        (w32 (sd s + sd r)) (w32 (se s + se r)) (w32 (sf s + sf r))
        (w32 (sg s + sg r)) (w32 (sh s + sh r)).

Definition initial : state :=
  let h i := nth i H0 0 in
  State (h 0%nat) (h 1%nat) (h 2%nat) (h 3%nat) (h 4%nat) (h 5%nat) (h 6%nat) (h 7%nat).

Definition word_bytes (w : Z) : list byte :=
  [byte_of (Z.shiftr w 24); byte_of (Z.shiftr w 16); byte_of (Z.shiftr w 8); byte_of w].

Definition digest (data : list byte) : list byte :=
  let padded := pad (map byte_val data) in
  let s := fold_left compress (chunks 64 (length padded / 64) padded) initial in
  (word_bytes (sa s) ++ word_bytes (sb s) ++ word_bytes (sc s) ++ word_bytes (sd s)
   ++ word_bytes (se s) ++ word_bytes (sf s) ++ word_bytes (sg s) ++ word_bytes (sh s))%list.

End Sha256.
Arguments Sha256.digest : simpl never.

(** ** db.js: blobs, events and aliases

    The three tables, with the statements the module prepares. A timestamp
    is the text SQLite's [strftime] gives at the time of the statement; the
    caller passes it as [now]. *)

Module Store.

Record blob : Type :=
  { data : list byte; size : Z; blob_created_at : string }.

Record alias : Type :=
  { alias_hash : string; created_at : string; updated_at : string }.

Record event : Type :=
  { id : Z;
    timestamp : string;
    type : string;
    language : option string;
    input_hash : option string;
    output_hash : option string;
    module_hash : option string;
    event_alias : option string;
    output_size : option Z;
    duration_ms : option Z;
    success : Z;
    error : option string }.

Record db : Type :=
  { blobs : gmap string blob;
    events : list event;
    aliases : gmap string alias }.

Definition empty : db := {| blobs := ∅; events := []; aliases := ∅ |}.

Definition hash (data : list byte) : string := to_hex (Sha256.digest data).
Arguments hash : simpl never.

(** [INSERT OR IGNORE INTO blobs (hash, data, size)], on the buffer: for a
    string, its UTF-8 bytes. *)
Definition putBlob (now : string) (data : list byte) (s : db) : string * db :=
  let h := hash data in
  match blobs s !! h with
  | Some _ => (h, s)
  | None =>
      (h, {| blobs := <[h := {| data := data;
                               size := Z.of_nat (length data);
                               blob_created_at := now |}]> (blobs s);
             events := events s;
             aliases := aliases s |})
  end.

Definition getBlob (h : string) (s : db) : option (list byte) :=
  data <$> blobs s !! h.

Definition blobSize (h : string) (s : db) : option Z :=
  size <$> blobs s !! h.

Definition hasBlob (h : string) (s : db) : bool :=
  bool_decide (is_Some (blobs s !! h)).

(** The object [recordEvent] destructures; a field left out is [None]. *)
Record event_fields : Type :=
  { f_type : option string;
    f_language : option string;
    f_inputHash : option string;
    f_outputHash : option string;
    f_moduleHash : option string;
    f_alias : option string;
    f_outputSize : option Z;
    f_durationMs : option Z;
    f_success : bool;
    f_error : option string }.

(** [x || null] for a string and for a number: the empty string and 0 are
    falsy. *)
Definition str_or_null (x : option string) : option string :=
  match x with
  | Some s => if String.eqb s "" then None else Some s
  | None => None
  end.

Definition num_or_null (x : option Z) : option Z :=
  match x with
  | Some n => if n =? 0 then None else Some n
  | None => None
  end.

(** [REFERENCES blobs(hash)], with [foreign_keys = ON]. *)
Definition references_blob (h : option string) (s : db) : bool :=
  match h with
  | Some h => hasBlob h s
  | None => true
  end.

Definition foreign_key_failed : Js.error :=
  Js.Error "FOREIGN KEY constraint failed".

(** The store with one more event. *)
Definition add_event (row : event) (s : db) : db :=
  {| blobs := blobs s; events := (events s ++ [row])%list; aliases := aliases s |}.

(** The row [recordEvent] binds to [insertEvent]. The [id] is the next
    AUTOINCREMENT value; no event is ever deleted. *)
Definition event_row (now : string) (f : event_fields) (s : db) : event :=
  {| id := Z.of_nat (length (events s)) + 1;
     timestamp := now;
     type := match str_or_null (f_type f) with Some t => t | None => "compile" end;
     language := str_or_null (f_language f);
     input_hash := str_or_null (f_inputHash f);
     output_hash := str_or_null (f_outputHash f);
     module_hash := str_or_null (f_moduleHash f);
     event_alias := str_or_null (f_alias f);
     output_size := num_or_null (f_outputSize f);
     duration_ms := num_or_null (f_durationMs f);
     success := if f_success f then 1 else 0;
     error := str_or_null (f_error f) |}.

Definition recordEvent (now : string) (f : event_fields) (s : db)
  : result (Z * db) :=
  let row := event_row now f s in
  if references_blob (input_hash row) s
     && references_blob (output_hash row) s
     && references_blob (module_hash row) s
  then Ok (id row, add_event row s)
  else Throw foreign_key_failed.

(** [ORDER BY id DESC LIMIT ?] for a limit that SQLite takes; a negative
    limit is no limit. *)
Definition recentEvents (limit : Z) (s : db) : list event :=
  if limit <? 0 then rev (events s) else take (Z.to_nat limit) (rev (events s)).

(** [INSERT INTO aliases (name, hash) ... ON CONFLICT(name) DO UPDATE SET
    hash = excluded.hash, updated_at = now], after the check that the blob
    exists. *)
Definition setAlias (now : string) (name hash : string) (s : db)
  : option (string * string) * db :=
  if negb (hasBlob hash s) then (None, s)
  else
    let row :=
      match aliases s !! name with
      | Some old => {| alias_hash := hash;
                       created_at := created_at old;
                       updated_at := now |}
      | None => {| alias_hash := hash; created_at := now; updated_at := now |}
      end in
    (Some (name, hash),
     {| blobs := blobs s;
        events := events s;
        aliases := <[name := row]> (aliases s) |}).

Definition getAlias (name : string) (s : db) : option alias :=
  aliases s !! name.

Definition deleteAlias (name : string) (s : db) : bool * db :=
  (bool_decide (is_Some (aliases s !! name)),
   {| blobs := blobs s;
      events := events s;
      aliases := delete name (aliases s) |}).

(** What [resolveRef] returns: [{ hash, alias }]. *)
Record resolved : Type :=
  { hash_of : string; alias_of : option string }.

Definition resolveRef (ref : string) (s : db) : option resolved :=
  match getAlias ref s with
  | Some alias => Some {| hash_of := alias_hash alias; alias_of := Some ref |}
  | None =>
      if hasBlob ref s
      then Some {| hash_of := ref; alias_of := None |}
      else None
  end.

(** The same fields with another [outputSize], with another [durationMs]. *)
Definition with_outputSize (v : option Z) (f : event_fields) : event_fields :=
  {| f_type := f_type f; f_language := f_language f;
     f_inputHash := f_inputHash f; f_outputHash := f_outputHash f;
     f_moduleHash := f_moduleHash f; f_alias := f_alias f;
     f_outputSize := v; f_durationMs := f_durationMs f;
     f_success := f_success f; f_error := f_error f |}.

Definition with_durationMs (v : option Z) (f : event_fields) : event_fields :=
  {| f_type := f_type f; f_language := f_language f;
     f_inputHash := f_inputHash f; f_outputHash := f_outputHash f;
     f_moduleHash := f_moduleHash f; f_alias := f_alias f;
     f_outputSize := f_outputSize f; f_durationMs := v;
     f_success := f_success f; f_error := f_error f |}.

(** *** The states the store can be in *)

Inductive op : Type :=
| PutBlob (now : string) (data : list byte)
| RecordEvent (now : string) (f : event_fields)
| SetAlias (now : string) (name hash : string)
| DeleteAlias (name : string).

Definition apply (o : op) (s : db) : db :=
  match o with
  | PutBlob now data => (putBlob now data s).2
  | RecordEvent now f =>
      match recordEvent now f s with
      | Ok r => r.2
      | Throw _ => s
      end
  | SetAlias now name hash => (setAlias now name hash s).2
  | DeleteAlias name => (deleteAlias name s).2
  end.

Inductive reachable : db -> Prop :=
| reachable_empty : reachable empty
| reachable_apply o s : reachable s -> reachable (apply o s).

(** *** What holds of every state the store reaches *)

(** Every row of [blobs] is stored under the hash of its data, with its
    size. *)
Definition blobs_ok (s : db) : Prop :=
  forall h b, blobs s !! h = Some b ->
              h = hash (data b) /\ size b = Z.of_nat (length (data b)).

(** Every alias points to a stored blob. *)
Definition aliases_ok (s : db) : Prop :=
  forall name a, aliases s !! name = Some a -> is_Some (blobs s !! alias_hash a).

End Store.

(** ** db.js: the [stats] statement *)

Module Queries.

Import Store.

(** The row [stats] returns. [SUM] over no rows is [NULL], and so is a
    difference with [NULL]; [COUNT] is a number. *)
Record stats_row : Type :=
  { total_events : Z;
    compiles : option Z;
    executions : option Z;
    resolutions : option Z;
    successes : option Z;
    failures : option Z;
    unique_inputs : Z;
    unique_outputs : Z;
    total_blobs : Z;
    total_blob_bytes : option Z;
    total_aliases : Z }.

(** [SUM(x)] *)
Definition sum (l : list Z) : option Z :=
  match l with
  | [] => None
  | _ => Some (foldr Z.add 0 l)
  end.

(** [SUM(CASE WHEN type = t THEN 1 ELSE 0 END)] *)
Definition sum_type (t : string) (l : list event) : option Z :=
  sum ((fun e => if String.eqb (type e) t then 1 else 0) <$> l).

(** [COUNT(DISTINCT x)]: the values that are not [NULL], each once. *)
Definition distinct (l : list (option string)) : gset string :=
  list_to_set (omap (fun x => x) l).

Definition count_distinct (l : list (option string)) : Z :=
  Z.of_nat (base.size (distinct l)).

Definition stats (s : db) : stats_row :=
  let total := Z.of_nat (length (events s)) in
  let successes := sum (success <$> events s) in
  {| total_events := total;
     compiles := sum_type "compile" (events s);
     executions := sum_type "execute" (events s);
     resolutions := sum_type "resolve" (events s);
     successes := successes;
     failures := (fun k => total - k) <$> successes;
     unique_inputs := count_distinct (input_hash <$> events s);
     unique_outputs := count_distinct (output_hash <$> events s);
     total_blobs := Z.of_nat (base.size (blobs s));
     total_blob_bytes := sum (Store.size <$> (map_to_list (blobs s)).*2);
     total_aliases := Z.of_nat (base.size (aliases s)) |}.

(** *** What holds of the events of every state the store reaches *)

(** An event has the id of its place in the table, a [success] of 0 or 1,
    and hashes of stored blobs where it has hashes. *)
Definition events_ok (s : db) : Prop :=
  forall i e,
    events s !! i = Some e ->
    id e = Z.of_nat i + 1
    /\ (success e = 0 \/ success e = 1)
    /\ references_blob (input_hash e) s = true
    /\ references_blob (output_hash e) s = true
    /\ references_blob (module_hash e) s = true.

(** [s'] holds every blob of [s], unchanged. *)
Definition keeps_blobs (s s' : db) : Prop :=
  forall h b, blobs s !! h = Some b -> blobs s' !! h = Some b.

(** [s'] is reached from [s] by operations of the store. *)
Inductive steps (s : db) : db -> Prop :=
| steps_refl : steps s s
| steps_apply o s' : steps s s' -> steps s (apply o s').

End Queries.

(** ** The WebAssembly JavaScript API, as far as the harness uses it

    An instance has one linear memory. An exported function, called with
    JavaScript numbers on the current memory, traps or returns its result
    and the memory it leaves; the result is the 32 bits of an [i32], or
    nothing. Results of other types are not modelled. *)

Module WebAssembly.

Definition PAGE : Z := 65536.

Inductive export : Type :=
| Func (call : list Z -> list byte -> result (option Z * list byte))
| Memory
| Other.

(** The [buffer] is the content of the memory when the instance is made,
    a whole number of pages; [maximum] is the limit the module declares, in
    pages. *)
Record Instance : Type :=
  { buffer : list byte;
    maximum : option Z;
    exports : gmap string export }.

(** [WebAssembly.compile] followed by [WebAssembly.instantiate] with no
    imports. *)
Definition Runtime : Type := list byte -> result Instance.

(** [f(...args)] for an exported value [f]. *)
Definition call (name : string) (f : export) (args : list Z) (mem : list byte)
  : result (option Z * list byte) :=
  match f with
  | Func call => call args mem
  | Memory | Other => Throw (Js.TypeError (name ++ " is not a function"))
  end.

(** [memory.buffer.byteLength] *)
Definition byteLength (memory : export) (mem : list byte) : result Z :=
  match memory with
  | Memory => Ok (Z.of_nat (length mem))
  | Func _ | Other =>
      Throw (Js.TypeError
               "Cannot read properties of undefined (reading 'byteLength')")
  end.

(** [memory.grow(delta)]: [delta] more pages of zeros, unless the maximum
    forbids it. *)
Definition grow (maximum : option Z) (delta : Z) (mem : list byte)
  : result (list byte) :=
  let pages := Z.of_nat (length mem) / PAGE + delta in
  let limit := match maximum with Some m => Z.min m 65536 | None => 65536 end in
  if pages <=? limit
  then Ok (mem ++ repeat x00 (Z.to_nat (delta * PAGE)))%list
  else Throw (Js.RangeError "WebAssembly.Memory.grow(): Maximum memory size exceeded").

(** [view.set(source, offset)] on a [Uint8Array] over the memory. *)
Definition set (mem source : list byte) (offset : Z) : result (list byte) :=
  if offset + Z.of_nat (length source) <=? Z.of_nat (length mem)
  then Ok (take (Z.to_nat offset) mem ++ source
             ++ drop (Z.to_nat offset + length source) mem)%list
  else Throw (Js.RangeError "offset is out of bounds").

End WebAssembly.

(** ** server.js: the execution harness *)

Module Harness.

Definition INPUT_PTR : Z := 0.
Definition OUTPUT_PTR : Z := 65536.
Definition MAX_OUTPUT : Z := 65536.

(** [Math.ceil(a / b)] for positive integers. *)
Definition ceil_div (a b : Z) : Z := (a + b - 1) / b.

Import Validate (rbind).
Local Notation "x <- m ;; k" := (rbind m (fun x => k))
  (at level 100, m at next level, right associativity).

(** [executeModule] up to and including the call of [run]: the value
    [run] returned and the memory it left. *)
Definition call_run (rt : WebAssembly.Runtime) (wasmBytes inputBytes : list byte)
  : result (option Z * list byte) :=
  instance <- rt wasmBytes ;;
  let memory := WebAssembly.exports instance !! "memory" in
  let run := WebAssembly.exports instance !! "run" in
  let _initialize := WebAssembly.exports instance !! "_initialize" in
  match run, memory with
  | None, _ => Throw (Js.Error "Module does not export 'run'")
  | Some _, None => Throw (Js.Error "Module does not export 'memory'")
  | Some run, Some memory =>
      mem <- match _initialize with
             | Some init =>
                 r <- WebAssembly.call "_initialize" init []
                        (WebAssembly.buffer instance) ;;
                 Ok r.2
             | None => Ok (WebAssembly.buffer instance)
             end ;;
      let needed := ceil_div (OUTPUT_PTR + MAX_OUTPUT) 65536 in
      byteLength <- WebAssembly.byteLength memory mem ;;
      let current := byteLength / 65536 in
      mem <- (if current <? needed
              then WebAssembly.grow (WebAssembly.maximum instance)
                     (needed - current) mem
              else Ok mem) ;;
      mem <- WebAssembly.set mem inputBytes INPUT_PTR ;;
      WebAssembly.call "run" run
        [INPUT_PTR; Z.of_nat (length inputBytes); OUTPUT_PTR] mem
  end.

(** [OUTPUT_PTR + outputLen]; without a result the sum is [NaN], which
    [slice] reads as 0. *)
Definition output_end (outputLen : option Z) : Z :=
  match outputLen with
  | Some w => OUTPUT_PTR + Js.of_i32 w
  | None => 0
  end.

Definition executeModule (rt : WebAssembly.Runtime)
    (wasmBytes inputBytes : list byte) : result (list byte) :=
  r <- call_run rt wasmBytes inputBytes ;;
  Ok (Js.slice r.2 OUTPUT_PTR (output_end r.1)).

End Harness.

(** ** server.js: the handlers of [/run], [/alias] and [/compile]

    A handler takes the request, the readings of the clock and the store,
    and gives the response with the store it leaves. [Throw] is an
    exception that leaves the handler. *)

Module Server.

Import Store.

Inductive header_value : Type :=
| Text (s : string)
| JsonArray (l : list string).

(** What is sent: the bytes of a [Buffer], a string, the JSON text of a
    string, or the JSON text of an object with these fields. *)
Inductive body : Type :=
| Bytes (b : list byte)
| Chars (text : string)
| JsonText (text : string)
| Json (fields : list (string * string)).

Record response : Type :=
  { status : Z;
    headers : list (string * header_value);
    content : body }.

Definition json (status : Z) (fields : list (string * string)) : response :=
  {| status := status; headers := []; content := Json fields |}.

(** [Date.now()] just before the work, its next reading, and the one of
    a [catch] block entered after that; the timestamp SQLite gives the
    statements of the request. *)
Record clock : Type := { t0 : Z; t1 : Z; t2 : Z; now : string }.

(** [res.set(name, value)]. Node refuses a value with a character that is
    not a tab and not in the ranges 0x20 to 0x7e and 0x80 to 0xff: it
    throws a [TypeError]. In the text of [JSON.stringify] a character below
    0x20 is written as an escape and any other one as it is. *)
Definition header_char (c : Z) : bool :=
  (c =? 9) || ((0x20 <=? c) && (c <=? 0x7e)) || ((0x80 <=? c) && (c <=? 0xff)).

Definition header_value_ok (v : header_value) : bool :=
  match v with
  | Text s => forallb header_char (Utf8.code_points s)
  | JsonArray l =>
      forallb (fun s => forallb (fun c => (c <? 0x20) || header_char c)
                          (Utf8.code_points s)) l
  end.

Definition quote : string := String (Ascii.ascii_of_nat 34) EmptyString.

Definition invalid_char (name : string) : Js.error :=
  Js.TypeError ("Invalid character in header content [" ++ quote ++ name
                ++ quote ++ "]").

(** The headers set one after the other: those that were set, and the
    error of the first one refused. *)
Fixpoint set_headers (hs : list (string * header_value))
  : list (string * header_value) * option Js.error :=
  match hs with
  | [] => ([], None)
  | h :: hs' =>
      if header_value_ok h.2
      then let r := set_headers hs' in (h :: r.1, r.2)
      else ([], Some (invalid_char h.1))
  end.

(** [res.send] of a string, and [res.json] through it, write
    [charset=utf-8] into the [Content-Type] that was set. *)
Definition with_charset (hs : list (string * header_value))
  : list (string * header_value) :=
  map (fun h =>
         match h.2 with
         | Text t =>
             if String.eqb h.1 "Content-Type"
             then (h.1, Text (t ++ "; charset=utf-8")) else h
         | JsonArray _ => h
         end) hs.

(** [if (x)] for a string that may be absent. *)
Definition truthy (x : option string) : bool :=
  match str_or_null x with
  | Some _ => true
  | None => false
  end.

(** *** POST /run/:ref *)

Definition resolve_event (r : resolved) : event_fields :=
  {| f_type := Some "resolve"; f_language := None; f_inputHash := None;
     f_outputHash := Some (hash_of r); f_moduleHash := None;
     f_alias := alias_of r; f_outputSize := None; f_durationMs := None;
     f_success := true; f_error := None |}.

(** [if (resolved.alias) store.recordEvent({ type: "resolve", ... })] *)
Definition record_resolve (c : clock) (r : resolved) (s : db) : result db :=
  if truthy (alias_of r)
  then match recordEvent (now c) (resolve_event r) s with
       | Ok r => Ok r.2
       | Throw e => Throw e
       end
  else Ok s.

Definition execute_ok (moduleHash inputHash outputHash : string)
    (output : list byte) (durationMs : Z) : event_fields :=
  {| f_type := Some "execute"; f_language := None;
     f_inputHash := Some inputHash; f_outputHash := Some outputHash;
     f_moduleHash := Some moduleHash; f_alias := None;
     f_outputSize := Some (Z.of_nat (length output));
     f_durationMs := Some durationMs; f_success := true; f_error := None |}.

Definition execute_failed (moduleHash inputHash : string) (durationMs : Z)
    (err : Js.error) : event_fields :=
  {| f_type := Some "execute"; f_language := None;
     f_inputHash := Some inputHash; f_outputHash := None;
     f_moduleHash := Some moduleHash; f_alias := None;
     f_outputSize := None; f_durationMs := Some durationMs;
     f_success := false; f_error := Some (Js.message err) |}.

(** The [catch] block of the handler. *)
Definition run_catch (c : clock) (moduleHash inputHash : string)
    (err : Js.error) (s : db) : result response * db :=
  let durationMs := t1 c - t0 c in
  match recordEvent (now c) (execute_failed moduleHash inputHash durationMs err) s with
  | Ok r =>
      (Ok (json 400 [("error", "Execution failed"); ("message", Js.message err)]),
       r.2)
  | Throw e => (Throw e, s)
  end.

(** The [try] block, from the call of [executeModule] on. *)
Definition run_try (rt : WebAssembly.Runtime) (c : clock)
    (moduleHash inputHash : string) (wasmBytes inputBytes : list byte) (s : db)
  : result response * db :=
  match Harness.executeModule rt wasmBytes inputBytes with
  | Throw err => run_catch c moduleHash inputHash err s
  | Ok output =>
      let durationMs := t1 c - t0 c in
      let '(outputHash, s1) := putBlob (now c) output s in
      match recordEvent (now c)
              (execute_ok moduleHash inputHash outputHash output durationMs) s1 with
      | Throw err => run_catch c moduleHash inputHash err s1
      | Ok r =>
          (Ok {| status := 200;
                 headers := [("Content-Type", Text "application/octet-stream");
                             ("X-Module-Hash", Text moduleHash);
                             ("X-Input-Hash", Text inputHash);
                             ("X-Output-Hash", Text outputHash)];
                 content := Bytes output |},
           r.2)
      end
  end.

(** The request: the [ref] of the path, the [input] of the query string
    and the body. *)
Definition post_run (rt : WebAssembly.Runtime) (c : clock) (ref : string)
    (inputRef : option string) (reqBody : list byte) (s : db)
  : result response * db :=
  match resolveRef ref s with
  | None => (Ok (json 404 [("error", "Module not found: " ++ ref)]), s)
  | Some moduleResolved =>
      match record_resolve c moduleResolved s with
      | Throw e => (Throw e, s)
      | Ok s =>
          let moduleHash := hash_of moduleResolved in
          match getBlob moduleHash s with
          | None => (Ok (json 404 [("error", "Module blob not found")]), s)
          | Some wasmBytes =>
              if truthy inputRef then
                let inputRef := default "" inputRef in
                match resolveRef inputRef s with
                | None =>
                    (Ok (json 404 [("error", "Input not found: " ++ inputRef)]), s)
                | Some inputResolved =>
                    match record_resolve c inputResolved s with
                    | Throw e => (Throw e, s)
                    | Ok s =>
                        match getBlob (hash_of inputResolved) s with
                        | None =>
                            (Ok (json 404 [("error", "Input blob not found")]), s)
                        | Some inputBytes =>
                            run_try rt c moduleHash (hash_of inputResolved)
                              wasmBytes inputBytes s
                        end
                    end
                end
              else
                let '(inputHash, s) := putBlob (now c) reqBody s in
                run_try rt c moduleHash inputHash wasmBytes reqBody s
          end
      end
  end.

(** *** PUT /alias/:name and DELETE /alias/:name *)

Definition alias_event (name hash : string) : event_fields :=
  {| f_type := Some "alias"; f_language := None; f_inputHash := None;
     f_outputHash := Some hash; f_moduleHash := None; f_alias := Some name;
     f_outputSize := None; f_durationMs := None; f_success := true;
     f_error := None |}.

(** The [hash] is the one of the JSON body, if it has one. *)
Definition put_alias (c : clock) (name : string) (hash : option string) (s : db)
  : result response * db :=
  if negb (truthy hash) then (Ok (json 400 [("error", "Missing hash in body")]), s)
  else
    let hash := default "" hash in
    match setAlias (now c) name hash s with
    | (None, s) => (Ok (json 400 [("error", "Blob not found for hash")]), s)
    | (Some result, s) =>
        match recordEvent (now c) (alias_event name hash) s with
        | Throw e => (Throw e, s)
        | Ok r => (Ok (json 200 [("name", result.1); ("hash", result.2)]), r.2)
        end
    end.

Definition delete_alias (c : clock) (name : string) (s : db)
  : result response * db :=
  let alias := getAlias name s in
  let '(deleted, s) := deleteAlias name s in
  if negb deleted then (Ok (json 404 [("error", "Alias not found")]), s)
  else
    match alias with
    | None =>
        (Throw (Js.TypeError "Cannot read properties of null (reading 'hash')"), s)
    | Some alias =>
        match recordEvent (now c) (alias_event name (alias_hash alias)) s with
        | Throw e => (Throw e, s)
        | Ok r => (Ok (json 200 [("deleted", name)]), r.2)
        end
    end.

(** *** POST /compile/:language *)

(** What [await compiler(source, dir)] gives, [compiler] being the value
    found under the language. A compiler of the table gives the bytes read
    back from the output file, or raises an error, with the [stderr] and
    [stdout] of the subprocess when it is the one that failed. Under a name
    the table inherits the value is a method of [Object.prototype], called
    with no [this]: [toString] returns the string [[object Undefined]],
    [constructor] returns the source wrapped in a [String] object,
    [isPrototypeOf] returns [false], which [putBlob] refuses with a
    [TypeError], and the others throw a [TypeError], as does the call of
    the object found under [__proto__]. *)
Inductive compiled : Type :=
| Built (wasm : list byte)
| Failed (message : string) (stderr stdout : option string)
| Str (text : string)
| StrObject (text : string)
| Unstorable (message : string).

Definition Toolchain : Type := string -> string -> compiled.

(** The keys of the [compilers] table, and the names it inherits from
    [Object.prototype]: [compilers[lang]] finds a value under these too. *)
Definition compilers : list string := ["assemblyscript"; "tinygo"; "zig"].

Definition inherited : list string :=
  ["constructor"; "__defineGetter__"; "__defineSetter__"; "hasOwnProperty";
   "__lookupGetter__"; "__lookupSetter__"; "isPrototypeOf";
   "propertyIsEnumerable"; "toString"; "valueOf"; "__proto__";
   "toLocaleString"].

(** [compilers[lang]] is there. *)
Definition found (lang : string) : bool :=
  Validate.has compilers lang || Validate.has inherited lang.

Definition compile_ok (lang inputHash outputHash : string) (outputSize : Z)
    (durationMs : Z) : event_fields :=
  {| f_type := Some "compile"; f_language := Some lang;
     f_inputHash := Some inputHash; f_outputHash := Some outputHash;
     f_moduleHash := None; f_alias := None;
     f_outputSize := Some outputSize;
     f_durationMs := Some durationMs; f_success := true; f_error := None |}.

Definition compile_failed (lang inputHash : string) (durationMs : Z)
    (errorMsg : string) : event_fields :=
  {| f_type := Some "compile"; f_language := Some lang;
     f_inputHash := Some inputHash; f_outputHash := None;
     f_moduleHash := None; f_alias := None;
     f_outputSize := None; f_durationMs := Some durationMs;
     f_success := false; f_error := Some errorMsg |}.

(** The [catch] block, on the [message], [stderr] and [stdout] of the
    error: [compileTimeMs] is the time it reads less [t0], and [set] are
    the headers that were set before the error. *)
Definition compile_catch (c : clock) (compileTimeMs : Z)
    (set : list (string * header_value)) (lang inputHash : string)
    (message : string) (stderr stdout : option string) (s : db)
  : result response * db :=
  let errorMsg := default message (str_or_null stderr) in
  match recordEvent (now c) (compile_failed lang inputHash compileTimeMs errorMsg) s with
  | Ok r =>
      (Ok {| status := 400;
             headers := with_charset set;
             content := Json [("error", "Compilation failed");
                              ("stderr", errorMsg);
                              ("stdout", default "" (str_or_null stdout))] |},
       r.2)
  | Throw e => (Throw e, s)
  end.

Definition contract_headers (v : Validate.validation)
  : list (string * header_value) :=
  ([("X-Contract-Valid", Text (if Validate.valid v then "true" else "false"))]
   ++ (if negb (Validate.valid v)
       then [("X-Contract-Errors", JsonArray (Validate.errors v))] else [])
   ++ (if negb (Z.of_nat (length (Validate.warnings v)) =? 0)
       then [("X-Contract-Warnings", JsonArray (Validate.warnings v))] else []))%list.

(** The [try] block from [const compileTimeMs] on. [wasm] are the bytes of
    what the compiler gave, [outputSize] its [length], and [content] is
    what [res.send] makes of it. *)
Definition compile_send (c : clock) (lang inputHash : string) (wasm : list byte)
    (outputSize : Z) (content : body) (s : db) : result response * db :=
  let compileTimeMs := t1 c - t0 c in
  let '(outputHash, s) := putBlob (now c) wasm s in
  match Validate.validate wasm with
  | Throw err =>
      compile_catch c (t2 c - t0 c) [] lang inputHash (Js.message err) None None s
  | Ok validation =>
      match recordEvent (now c)
              (compile_ok lang inputHash outputHash outputSize compileTimeMs) s with
      | Throw err =>
          compile_catch c (t2 c - t0 c) [] lang inputHash (Js.message err)
            None None s
      | Ok r =>
          match set_headers ([("Content-Type", Text "application/wasm");
                              ("X-Input-Hash", Text inputHash);
                              ("X-Output-Hash", Text outputHash)]
                               ++ contract_headers validation) with
          | (set, Some err) =>
              compile_catch c (t2 c - t0 c) set lang inputHash (Js.message err)
                None None r.2
          | (set, None) =>
              (Ok {| status := 200;
                     headers := match content with
                                | Bytes _ => set
                                | _ => with_charset set
                                end;
                     content := content |},
               r.2)
          end
      end
  end.

Definition post_compile (tc : Toolchain) (c : clock) (lang source : string)
    (s : db) : result response * db :=
  if negb (found lang) then
    (Ok (json 400 [("error", "Unknown language: " ++ lang ++ ". Supported: "
                               ++ String.concat ", " compilers)]), s)
  else if String.eqb source "" then
    (Ok (json 400 [("error", "Request body must contain source code")]), s)
  else
    let '(inputHash, s) := putBlob (now c) (list_byte_of_string source) s in
    match tc lang source with
    | Failed message stderr stdout =>
        compile_catch c (t1 c - t0 c) [] lang inputHash message stderr stdout s
    | Unstorable message =>
        compile_catch c (t2 c - t0 c) [] lang inputHash message None None s
    | Built wasm =>
        compile_send c lang inputHash wasm (Z.of_nat (length wasm)) (Bytes wasm) s
    | Str text =>
        compile_send c lang inputHash (list_byte_of_string text)
          (Utf8.length16 text) (Chars text) s
    | StrObject text =>
        compile_send c lang inputHash (list_byte_of_string text)
          (Utf8.length16 text) (JsonText text) s
    end.

End Server.

(** ** server.js: the handlers that only read the store *)

Module Routes.

Import Store Server.

(** [if (resolved.alias) res.set("X-Resolved-Hash", resolved.hash)] *)
Definition resolved_header (r : resolved) : list (string * header_value) :=
  if truthy (alias_of r) then [("X-Resolved-Hash", Text (hash_of r))] else [].

(** HEAD /blob/:ref; [end()] sends no body. *)
Definition head_blob (ref : string) (s : db) : response :=
  match resolveRef ref s with
  | None => {| status := 404; headers := []; content := Bytes [] |}
  | Some resolved =>
      match blobSize (hash_of resolved) s with
      | None => {| status := 404; headers := []; content := Bytes [] |}
      | Some size =>
          {| status := 200;
             headers :=
               [("Content-Type", Text "application/octet-stream");
                ("Content-Length", Text (Js.dec size));
                ("Cache-Control", Text "public, immutable, max-age=31536000")]
                 ++ resolved_header resolved;
             content := Bytes [] |}
      end
  end.

(** GET /blob/:ref *)
Definition get_blob (ref : string) (s : db) : response :=
  match resolveRef ref s with
  | None => json 404 [("error", "Not found")]
  | Some resolved =>
      match getBlob (hash_of resolved) s with
      | None => json 404 [("error", "Not found")]
      | Some data =>
          {| status := 200;
             headers :=
               [("Content-Type", Text "application/octet-stream");
                ("Cache-Control", Text "public, immutable, max-age=31536000")]
                 ++ resolved_header resolved;
             content := Bytes data |}
      end
  end.

(** GET /events. [parsed] is what [parseInt(req.query.limit)] gives:
    [None] for [NaN], and for a number the integer it is worth, an infinity
    counting as a number beyond every bound below. The limit of the handler
    is [Math.min(parsed || 50, 500)]. *)
Definition events_limit (parsed : option Z) : Z :=
  Z.min (match num_or_null parsed with Some n => n | None => 50 end) 500.

(** [store.recentEvents(limit)] with that limit. The number is bound to
    [LIMIT ?] as it is, as a double when it does not fit 32 bits, and
    SQLite takes as a limit only what it can turn into a 64-bit integer
    other than the smallest one: from [- 2 ^ 63] down the statement throws,
    and the exception leaves the handler. *)
Definition datatype_mismatch : Js.error := Js.Error "datatype mismatch".

Definition get_events (parsed : option Z) (s : db) : result (list event) :=
  let limit := events_limit parsed in
  if limit <=? - 2 ^ 63 then Throw datatype_mismatch
  else Ok (recentEvents limit s).

(** GET /alias/:name *)
Definition get_alias (name : string) (s : db) : response :=
  match getAlias name s with
  | None => json 404 [("error", "Alias not found")]
  | Some a =>
      json 200 [("name", name); ("hash", alias_hash a);
                ("created_at", created_at a); ("updated_at", updated_at a)]
  end.

End Routes.

(** * Modules, stores and requests used in the statements *)

Definition wasm_header : list byte := [x00; x61; x73; x6d; x01; x00; x00; x00].

(** A module with one function of type [(i32, i32, i32) -> (i32)], exported
    as [run], and a memory of [pages] pages, exported as [memory]. [body] is
    the code of the function, with its [end]. *)
Definition module_with (pages : byte) (body : list byte) : list byte :=
  (wasm_header
   ++ [x01; x08; x01; x60; x03; x7f; x7f; x7f; x01; x7f]
   ++ [x03; x02; x01; x00]
   ++ [x05; x03; x01; x00; pages]
   ++ [x07; x10; x02; x06; x6d; x65; x6d; x6f; x72; x79; x02; x00;
       x03; x72; x75; x6e; x00; x00]
   ++ [x0a; byte_of (3 + Z.of_nat (length body)); x01;
       byte_of (1 + Z.of_nat (length body)); x00]
   ++ body)%list.

(** [run] is [i32.const 0]. *)
Definition conformant_module : list byte := module_with x01 [x41; x00; x0b].

Definition hello : list byte := list_byte_of_string "hello".

(** The blob ["hello"] stored, and the alias [foo] set to it. *)
Definition hello_store : Store.db :=
  Store.apply (Store.PutBlob "2024-03-15T12:34:56.789" hello) Store.empty.

Definition foo_store : Store.db :=
  Store.apply (Store.SetAlias "2024-03-15T12:34:57.001" "foo" (Store.hash hello))
    hello_store.

(** The empty blob and ["hello"] stored, and an alias whose name is the
    hash of the empty blob, set to ["hello"]. *)
Definition shadow_store : Store.db :=
  Store.apply
    (Store.SetAlias "2024-03-15T12:35:00.000" (Store.hash []) (Store.hash hello))
    (Store.apply (Store.PutBlob "2024-03-15T12:34:59.000" []) hello_store).

(** What instantiating [module_with pages body] gives: [pages] pages of
    zeroed memory, exported as [memory], and the function, exported as
    [run]. *)
Definition instance_with (pages : Z)
    (run : list Z -> list byte -> result (option Z * list byte))
  : WebAssembly.Instance :=
  {| WebAssembly.buffer := repeat x00 (Z.to_nat (pages * 65536));
     WebAssembly.maximum := None;
     WebAssembly.exports :=
       {[ "memory" := WebAssembly.Memory; "run" := WebAssembly.Func run ]} |}.

(** A function whose body is [i32.const w]: it leaves the memory alone and
    returns the 32 bits [w]. A function whose body is [unreachable]: it
    traps. *)
Definition i32_const (w : Z) : list Z -> list byte -> result (option Z * list byte) :=
  fun _ mem => Ok (Some w, mem).

Definition unreachable : list Z -> list byte -> result (option Z * list byte) :=
  fun _ _ => Throw (Js.Error "unreachable").

(** Modules whose [run] returns 0, 5, 65536, 65537, -1 and -65537, the one
    of 65537 also with three pages of memory, and a module whose [run]
    traps. The constant of [i32.const] is in signed LEB128. *)
Definition returns_0 : list byte := conformant_module.
Definition returns_5 : list byte := module_with x01 [x41; x05; x0b].
Definition returns_65536 : list byte := module_with x01 [x41; x80; x80; x04; x0b].
Definition returns_65537 : list byte := module_with x01 [x41; x81; x80; x04; x0b].
Definition returns_65537_3 : list byte := module_with x03 [x41; x81; x80; x04; x0b].
Definition returns_minus_1 : list byte := module_with x01 [x41; x7f; x0b].
Definition returns_minus_65537 : list byte :=
  module_with x01 [x41; xff; xff; x7b; x0b].
Definition trapping : list byte := module_with x01 [x00; x0b].

Definition known_modules : list (list byte * WebAssembly.Instance) :=
  [(returns_0, instance_with 1 (i32_const 0));
   (returns_5, instance_with 1 (i32_const 5));
   (returns_65536, instance_with 1 (i32_const 65536));
   (returns_65537, instance_with 1 (i32_const 65537));
   (returns_65537_3, instance_with 3 (i32_const 65537));
   (returns_minus_1, instance_with 1 (i32_const (2 ^ 32 - 1)));
   (trapping, instance_with 1 unreachable);
   (returns_minus_65537, instance_with 1 (i32_const (2 ^ 32 - 65537)))].

Definition same_bytes (a b : list byte) : bool :=
  String.eqb (string_of_list_byte a) (string_of_list_byte b).

(** The runtime, on the modules above. *)
Definition engine : WebAssembly.Runtime :=
  fun wasmBytes =>
    match List.find (fun m => same_bytes m.1 wasmBytes) known_modules with
    | Some m => Ok m.2
    | None => Throw (Js.Error "WebAssembly.compile(): unknown module")
    end.

Definition output_length (r : result (list byte)) : option Z :=
  match r with
  | Ok output => Some (Z.of_nat (length output))
  | Throw _ => None
  end.

(** The output the specification describes for the memory [mem] that [run]
    leaves and the 32 bits [w] it returns: [w] read as an unsigned length. *)
Definition unsigned_output (mem : list byte) (w : Z) : list byte :=
  Js.slice mem Harness.OUTPUT_PTR (Harness.OUTPUT_PTR + w).

(** What [run] returned and the memory it left, for a call that did not
    throw. *)
Definition returned (r : result (option Z * list byte)) : option (option Z) :=
  match r with
  | Ok (w, _) => Some w
  | Throw _ => None
  end.

Definition memory_left (r : result (option Z * list byte)) : list byte :=
  match r with
  | Ok (_, mem) => mem
  | Throw _ => []
  end.

(** The memory when [_initialize] has returned, or the memory of the
    instance when no [_initialize] is exported. *)
Definition initialized (inst : WebAssembly.Instance) (mem0 : list byte) : Prop :=
  (WebAssembly.exports inst !! "_initialize" = None
   /\ mem0 = WebAssembly.buffer inst)
  \/ (exists init r,
        WebAssembly.exports inst !! "_initialize" = Some init
        /\ WebAssembly.call "_initialize" init [] (WebAssembly.buffer inst)
           = Ok (r, mem0)).

(** The maximum of the memory lets it have two pages. *)
Definition two_pages_allowed (inst : WebAssembly.Instance) : Prop :=
  match WebAssembly.maximum inst with
  | Some m => 2 <= m
  | None => True
  end.

(** What instantiating a module gives whose memory has one page and may
    have no more. *)
Definition one_page_only : WebAssembly.Instance :=
  {| WebAssembly.buffer := repeat x00 (Z.to_nat (1 * 65536));
     WebAssembly.maximum := Some 1;
     WebAssembly.exports :=
       {[ "memory" := WebAssembly.Memory;
          "run" := WebAssembly.Func (i32_const 5) ]} |}.

(** A module stored, and an alias set to it. *)
Definition stored_as (name : string) (wasm : list byte) : Store.db :=
  Store.apply (Store.SetAlias "2024-03-15T12:34:56.100" name (Store.hash wasm))
    (Store.apply (Store.PutBlob "2024-03-15T12:34:56.000" wasm) Store.empty).

(** A request that takes 12 ms, and one that ends within the millisecond in
    which it started. *)
Definition clock_12ms : Server.clock :=
  {| Server.t0 := 1710506096789; Server.t1 := 1710506096801;
     Server.t2 := 1710506096802; Server.now := "2024-03-15T12:34:56.801" |}.

Definition clock_0ms : Server.clock :=
  {| Server.t0 := 1710506096789; Server.t1 := 1710506096789;
     Server.t2 := 1710506096789; Server.now := "2024-03-15T12:34:56.789" |}.

Definition ref_to (name : string) (wasm : list byte) : Store.resolved :=
  {| Store.hash_of := Store.hash wasm; Store.alias_of := Some name |}.

(** A toolchain whose output file holds [wasm], whatever the source. *)
Definition builds (wasm : list byte) : Server.Toolchain :=
  fun _ _ => Server.Built wasm.

(** A module whose only section is a Type section with the type tag [0x61]. *)
Definition odd_type_module : list byte := (wasm_header ++ [x01; x02; x01; x61])%list.

(** A program that meets the contract: one type [(i32, i32, i32) -> (i32)],
    one function of that type exported as [run], a memory exported as
    [memory]. *)
Definition echo_program : Encode.program :=
  {| Encode.types := [([x7f; x7f; x7f], [x7f])];
     Encode.imports := [];
     Encode.functions := [0];
     Encode.exports := [("memory", x02, 0); ("run", x00, 0)] |}.

(** A module that imports its memory, of one page or more, and then a
    function of type [() -> ()]. It has one function of its own, of type
    [(i32, i32, i32) -> (i32)], with the index 1 after the imported one, and
    exports the memory and that function as [run]. *)
Definition memory_importer : Encode.program :=
  {| Encode.types := [Contract.signature; ([], [])];
     Encode.imports := [("env", "memory", Encode.ImportMemory 1 None);
                        ("env", "log", Encode.ImportFunc 1)];
     Encode.functions := [0];
     Encode.exports := [("memory", x02, 0); ("run", x00, 1)] |}.

(** A module with the same two imports, the function again of type
    [() -> ()], that exports the memory and, as [run], the imported
    function. Its own function, of type [(i32, i32, i32) -> (i32)], is not
    exported. *)
Definition run_importer : Encode.program :=
  {| Encode.types := [([], []); Contract.signature];
     Encode.imports := [("env", "memory", Encode.ImportMemory 1 None);
                        ("env", "run", Encode.ImportFunc 0)];
     Encode.functions := [1];
     Encode.exports := [("memory", x02, 0); ("run", x00, 0)] |}.

(** The module of a program with one function of its own, whose body is
    [i32.const 0]: the four sections and the Code section. *)
Definition module_of (p : Encode.program) : list byte :=
  Encode.module [x01; x00; x00; x00]
    (Encode.sections p ++ [(x0a, [x01; x04; x00; x41; x00; x0b])]).

(** What [validate] answers: [valid] and the errors. *)
Definition verdict_of (wasmBytes : list byte) : option (bool * list string) :=
  match Validate.validate wasmBytes with
  | Ok v => Some (Validate.valid v, Validate.errors v)
  | Throw _ => None
  end.

(** Two Chinese characters, U+4F60 and U+597D, and an AssemblyScript source
    that exports [run] and a function of that name. *)
Definition greeting : string :=
  string_of_list_byte [xe4; xbd; xa0; xe5; xa5; xbd].

Definition greeting_source : string :=
  "export function run(ptr: i32, len: i32, out: i32): i32 { return 0 } "
  ++ "export function " ++ greeting ++ "(): void {}".

(** Its module: the types [(i32, i32, i32) -> (i32)] and [() -> ()], a
    function of each, a memory of one page, and the exports [memory], [run]
    and the second function under its name. *)
Definition greeting_module : list byte :=
  Encode.module [x01; x00; x00; x00]
    [(x01, Encode.vec Encode.functype [Contract.signature; ([], [])]);
     (x03, Encode.vec Encode.uleb128 [0; 1]);
     (x05, [x01; x00; x01]);
     (x07, Encode.vec Encode.export
             [("memory", x02, 0); ("run", x00, 0); (greeting, x00, 1)]);
     (x0a, [x02; x04; x00; x41; x00; x0b; x02; x00; x0b])].

(** The program above with two more exports of its function: one named
    [__proto__], one whose name is the byte [0xff], which is no UTF-8,
    before the letter a. *)
Definition odd_names : Encode.program :=
  {| Encode.types := [([x7f; x7f; x7f], [x7f])];
     Encode.imports := [];
     Encode.functions := [0];
     Encode.exports := [("memory", x02, 0); ("run", x00, 0);
                        ("__proto__", x00, 0);
                        (string_of_list_byte [xff; x61], x00, 0)] |}.

(** A toolchain whose compiler fails with nothing on [stderr]. *)
Definition fails_silently : Server.Toolchain :=
  fun _ _ => Server.Failed "Command failed: zig build-exe" (Some "") None.

(** * Properties *)

(** ** Facts about the checks of the validator *)

Module ValidateFacts.

Import Validate.

Lemma byte_val_inj (a b : Byte.byte) : byte_val a = byte_val b -> a = b.
Proof.
  unfold byte_val. intros H. apply N2Z.inj in H.
  pose proof (Byte.of_to_N a) as Ha. rewrite H, Byte.of_to_N in Ha.
  congruence.
Qed.

Lemma is_num_spec (o : option Byte.byte) (k : Byte.byte) :
  is_num o (byte_val k) = true <-> o = Some k.
Proof.
  destruct o as [b|]; simpl.
  - rewrite Z.eqb_eq. split.
    + intros H. f_equal. by apply byte_val_inj.
    + by intros [= ->].
  - split; discriminate.
Qed.

Lemma is_run_export_spec (e : ExportEntry.t) :
  is_run_export e = true <-> exported "run" x00 e.
Proof.
  unfold is_run_export, exported.
  rewrite andb_true_iff, String.eqb_eq.
  change EXPORT_FUNC with (byte_val x00). by rewrite is_num_spec.
Qed.

Lemma is_memory_export_spec (e : ExportEntry.t) :
  is_memory_export e = true <-> exported "memory" x02 e.
Proof.
  unfold is_memory_export, exported.
  rewrite andb_true_iff, String.eqb_eq.
  change EXPORT_MEMORY with (byte_val x02). by rewrite is_num_spec.
Qed.

Lemma find_first {A} (p : A -> bool) (l : list A) (a : A) :
  List.find p l = Some a <->
  exists pre post,
    l = (pre ++ a :: post)%list /\ p a = true /\ Forall (fun x => p x = false) pre.
Proof.
  induction l as [|x l IH]; simpl.
  - split; [discriminate|]. intros (pre & post & H & _). by destruct pre.
  - destruct (p x) eqn:Hx.
    + split.
      * intros [= ->]. exists [], l. repeat split; auto.
      * intros (pre & post & H & Ha & Hpre). destruct pre as [|y pre].
        -- simpl in H. by injection H as -> _.
        -- simpl in H. injection H as -> _. inversion Hpre; congruence.
    + rewrite IH. split.
      * intros (pre & post & -> & Ha & Hpre). exists (x :: pre), post.
        repeat split; auto.
      * intros (pre & post & H & Ha & Hpre). destruct pre as [|y pre].
        -- simpl in H. injection H as -> _. congruence.
        -- simpl in H. injection H as -> ->. inversion Hpre; subst.
           exists pre, post. repeat split; auto.
  Qed.

Lemma find_run_export (exports : list ExportEntry.t) (e : ExportEntry.t) :
  List.find is_run_export exports = Some e <-> found_export "run" x00 exports e.
Proof.
  rewrite find_first. unfold found_export.
  split; intros (pre & post & H & He & Hpre); exists pre, post;
    (split; [exact H|]); rewrite is_run_export_spec in *; (split; [exact He|]);
    eapply Forall_impl; try exact Hpre; simpl; intros x Hx.
  - rewrite <- is_run_export_spec. by rewrite Hx.
  - rewrite <- is_run_export_spec in Hx. by destruct (is_run_export x).
Qed.

(** Where no two exports have the same name, as in a valid module, the
    export found for a name is any export of that name. *)
Lemma found_export_unique nm k (exports : list ExportEntry.t) (e : ExportEntry.t) :
  NoDup (ExportEntry.name <$> exports) ->
  found_export nm k exports e <-> e ∈ exports /\ exported nm k e.
Proof.
  intros Hnodup. split.
  - intros (pre & post & -> & He & _). split; [|exact He].
    apply elem_of_app. right. apply list_elem_of_here.
  - intros [Hin He]. apply list_elem_of_split in Hin as (pre & post & ->).
    exists pre, post. split; [reflexivity|]. split; [exact He|].
    apply Forall_forall. intros x Hx [Hname _].
    rewrite fmap_app in Hnodup. cbn in Hnodup.
    apply NoDup_app in Hnodup as (_ & Hdisj & _).
    apply (Hdisj (ExportEntry.name x)).
    + apply list_elem_of_fmap. by exists x.
    + destruct He as [<- _]. rewrite Hname. apply list_elem_of_here.
Qed.

Lemma find_memory_export (exports : list ExportEntry.t) :
  (exists m, List.find is_memory_export exports = Some m) <->
  (exists m, m ∈ exports /\ exported "memory" x02 m).
Proof.
  split.
  - intros [m Hm]. exists m. apply find_some in Hm as [Hin Hm].
    split; [by apply list_elem_of_In | by apply is_memory_export_spec].
  - intros (m & Hin & Hm).
    destruct (List.find is_memory_export exports) as [m'|] eqn:E; [by exists m'|].
    apply list_elem_of_In in Hin.
    apply (find_none _ _ E) in Hin.
    apply is_memory_export_spec in Hm. congruence.
Qed.

Lemma strict_eq_i32 (p : option Byte.byte) :
  strict_eq p (Some TYPE_I32) = true <-> p = i32.
Proof.
  destruct p as [b|]; simpl; [|split; discriminate].
  change TYPE_I32 with (byte_val x7f). rewrite Z.eqb_eq. split.
  - intros H. unfold i32. f_equal. by apply byte_val_inj.
  - by intros [= ->].
Qed.

Lemma params_ok_spec (arr : list (option Byte.byte)) :
  sig_ok arr EXPECTED_PARAMS = true <-> arr = [i32; i32; i32].
Proof.
  unfold sig_ok. rewrite andb_true_iff, Z.eqb_eq. split.
  - intros [Hlen Hall].
    destruct arr as [|a [|b [|c [|d arr]]]]; simpl in Hlen; try lia.
    simpl in Hall. rewrite !andb_true_iff in Hall.
    destruct Hall as (Ha & Hb & Hc & _).
    apply strict_eq_i32 in Ha, Hb, Hc. by subst.
  - intros ->. split; reflexivity.
Qed.

Lemma results_ok_spec (arr : list (option Byte.byte)) :
  sig_ok arr EXPECTED_RESULTS = true <-> arr = [i32].
Proof.
  unfold sig_ok. rewrite andb_true_iff, Z.eqb_eq. split.
  - intros [Hlen Hall].
    destruct arr as [|a [|b arr]]; simpl in Hlen; try lia.
    simpl in Hall. rewrite !andb_true_iff in Hall.
    destruct Hall as (Ha & _).
    apply strict_eq_i32 in Ha. by subst.
  - intros ->. split; reflexivity.
Qed.

Lemma array_get_Some {A} (l : list A) (i : Z) (a : A) :
  array_get l i = Some a <-> 0 <= i /\ l !! Z.to_nat i = Some a.
Proof.
  unfold array_get.
  destruct (0 <=? i) eqn:H0; simpl.
  - apply Z.leb_le in H0. destruct (i <? Z.of_nat (length l)) eqn:H1.
    + tauto.
    + apply Z.ltb_ge in H1. split; [discriminate|]. intros [_ H].
      apply lookup_lt_Some in H. lia.
  - apply Z.leb_gt in H0. split; [discriminate|]. lia.
Qed.

(** [check_run] pushes no error exactly when the found [run] export
    resolves to the expected signature. *)
Lemma check_run_no_error types imports funcTypeIndices exports sig :
  check_run types imports funcTypeIndices exports = Ok ([], sig) ->
  exists r type,
    found_export "run" x00 exports r
    /\ resolves_to types imports funcTypeIndices r type
    /\ params type = [i32; i32; i32]
    /\ results type = [i32].
Proof.
  unfold check_run.
  destruct (List.find is_run_export exports) as [r|] eqn:Hfind; [|discriminate].
  apply find_run_export in Hfind.
  destruct (_ || _) eqn:Hrange; [discriminate|].
  apply orb_false_iff in Hrange as [Hlo Hhi].
  apply Z.ltb_ge in Hlo.
  destruct (array_get funcTypeIndices _) as [typeIdx|] eqn:Hidx; [|discriminate].
  destruct (array_get types typeIdx) as [type|] eqn:Htype; [|discriminate].
  destruct (formatSig type) as [s|]; [|discriminate].
  destruct (sig_ok (params type) EXPECTED_PARAMS) eqn:Hp; [|discriminate].
  destruct (sig_ok (results type) EXPECTED_RESULTS) eqn:Hr; [|discriminate].
  intros _. exists r, type.
  apply array_get_Some in Hidx as [_ Hidx].
  apply array_get_Some in Htype as [Hty0 Htype].
  apply params_ok_spec in Hp. apply results_ok_spec in Hr.
  split; [exact Hfind|]. split; [|by split].
  exists typeIdx. auto.
Qed.

Lemma check_run_conformant types imports funcTypeIndices exports r type :
  found_export "run" x00 exports r ->
  resolves_to types imports funcTypeIndices r type ->
  params type = [i32; i32; i32] ->
  results type = [i32] ->
  check_run types imports funcTypeIndices exports
  = Ok ([], Some "(i32, i32, i32) -> (i32)").
Proof.
  intros Hfind (typeIdx & Hlo & Hidx & Hty0 & Htype) Hp Hr.
  apply find_run_export in Hfind.
  unfold check_run. rewrite Hfind.
  pose proof (lookup_lt_Some _ _ _ Hidx) as Hlen.
  replace (_ || _) with false.
  2: { symmetry. apply orb_false_iff. split; [apply Z.ltb_ge; lia|].
       rewrite Z.geb_leb. apply Z.leb_gt. lia. }
  replace (array_get funcTypeIndices _) with (Some typeIdx)
    by (symmetry; by apply array_get_Some).
  replace (array_get types typeIdx) with (Some type)
    by (symmetry; by apply array_get_Some).
  unfold formatSig. rewrite Hp, Hr. reflexivity.
Qed.

Lemma validate_parsed wasmBytes sections v :
  parseSections wasmBytes = Ok sections ->
  validate wasmBytes = Ok v <->
  exists types imports funcTypeIndices exports run,
    parse_section sections SECTION_TYPE parseTypes [] = Ok types
    /\ parse_section sections SECTION_IMPORT parseImports {| funcImports := 0 |}
       = Ok imports
    /\ parse_section sections SECTION_FUNCTION parseFunctions [] = Ok funcTypeIndices
    /\ parse_section sections SECTION_EXPORT parseExports [] = Ok exports
    /\ check_run types imports funcTypeIndices exports = Ok run
    /\ v = verdict exports run.
Proof.
  intros Hsec. unfold validate. rewrite Hsec. split.
  - destruct (parse_section sections SECTION_TYPE _ _) as [types|] eqn:Ht;
      [|discriminate].
    destruct (parse_section sections SECTION_IMPORT _ _) as [imports|] eqn:Hi;
      [|discriminate].
    destruct (parse_section sections SECTION_FUNCTION _ _) as [funcs|] eqn:Hf;
      [|discriminate].
    destruct (parse_section sections SECTION_EXPORT _ _) as [exports|] eqn:He;
      [|discriminate].
    simpl.
    destruct (check_run types imports funcs exports) as [run|] eqn:Hrun;
      [|discriminate].
    simpl. intros [= <-]. by exists types, imports, funcs, exports, run.
  - intros (types & imports & funcs & exports & run & -> & -> & -> & -> & Hrun & ->).
    simpl. by rewrite Hrun.
Qed.

Lemma verdict_valid exports run :
  valid (verdict exports run) = true <-> errors (verdict exports run) = [].
Proof.
  unfold verdict. simpl. rewrite Z.eqb_eq.
  destruct (_ ++ _)%list; simpl; split; (lia || discriminate || reflexivity).
Qed.

End ValidateFacts.

(** ** Facts about the store *)

Module StoreFacts.

Import Store.

Lemma string_length_app (a b : string) :
  String.length (a ++ b) = (String.length a + String.length b)%nat.
Proof. induction a as [|c a IH]; simpl; [reflexivity | by rewrite IH]. Qed.

Lemma hex2_length (b : byte) : String.length (hex2 b) = 2%nat.
Proof. destruct b; reflexivity. Qed.

Lemma to_hex_length (bs : list byte) :
  String.length (to_hex bs) = (2 * length bs)%nat.
Proof.
  unfold to_hex. induction bs as [|b [|b' bs] IH].
  - reflexivity.
  - apply hex2_length.
  - change (String.length (hex2 b ++ "" ++ String.concat "" (map hex2 (b' :: bs)))
            = (2 * length (b :: b' :: bs))%nat).
    rewrite !string_length_app, hex2_length, IH. simpl. lia.
Qed.

Lemma hash_length (data : list byte) : String.length (hash data) = 64%nat.
Proof.
  unfold hash. rewrite to_hex_length. unfold Sha256.digest.
  generalize (fold_left Sha256.compress
                (Sha256.chunks 64 (length (Sha256.pad (map byte_val data)) / 64)
                   (Sha256.pad (map byte_val data))) Sha256.initial).
  intros st. rewrite !length_app. reflexivity.
Qed.

Opaque Sha256.digest.

Lemma hash_nonempty (data : list byte) : hash data <> "".
Proof. intros H. pose proof (hash_length data) as L. by rewrite H in L. Qed.

Lemma str_or_null_hash (data : list byte) :
  str_or_null (Some (hash data)) = Some (hash data).
Proof.
  unfold str_or_null. destruct (String.eqb_spec (hash data) ""); [|reflexivity].
  by destruct (hash_nonempty data).
Qed.

Lemma hasBlob_true h s : hasBlob h s = true <-> is_Some (blobs s !! h).
Proof. apply bool_decide_eq_true. Qed.

Lemma hasBlob_false h s : hasBlob h s = false <-> blobs s !! h = None.
Proof.
  unfold hasBlob. rewrite bool_decide_eq_false. symmetry. apply eq_None_not_Some.
Qed.

Lemma putBlob_blobs now x s h :
  blobs (putBlob now x s).2 !! h =
  if decide (h = hash x)
  then match blobs s !! h with
       | Some b => Some b
       | None => Some {| data := x; size := Z.of_nat (length x);
                         blob_created_at := now |}
       end
  else blobs s !! h.
Proof.
  unfold putBlob. destruct (blobs s !! hash x) as [b|] eqn:E; simpl.
  - case_decide; [subst; by rewrite E | reflexivity].
  - case_decide.
    + subst. by rewrite lookup_insert_eq, E.
    + by rewrite lookup_insert_ne.
Qed.

(** No operation removes or changes a blob. *)
Lemma apply_keeps_blob o s h b :
  blobs s !! h = Some b -> blobs (apply o s) !! h = Some b.
Proof.
  intros Hb. destruct o as [now x|now f|now name hsh|name]; simpl.
  - rewrite putBlob_blobs, Hb. by case_decide.
  - unfold recordEvent. by destruct (_ && _).
  - unfold setAlias. by destruct (negb _).
  - exact Hb.
Qed.

Lemma apply_blobs_ok o s : blobs_ok s -> blobs_ok (apply o s).
Proof.
  intros Hs h b. destruct o as [now x|now f|now name hsh|name]; simpl.
  - rewrite putBlob_blobs. case_decide as Hh.
    + destruct (blobs s !! h) as [b'|] eqn:E.
      * intros [= <-]. by apply Hs.
      * intros [= <-]. by split.
    + apply Hs.
  - unfold recordEvent. destruct (_ && _); apply Hs.
  - unfold setAlias. destruct (negb _); apply Hs.
  - apply Hs.
Qed.

Lemma apply_aliases_ok o s : aliases_ok s -> aliases_ok (apply o s).
Proof.
  intros Hs name a.
  destruct o as [now x|now f|now name' hsh|name']; simpl.
  - intros Ha.
    assert (aliases (putBlob now x s).2 = aliases s) as Heq
        by (unfold putBlob; by destruct (blobs s !! hash x)).
    rewrite Heq in Ha. destruct (Hs _ _ Ha) as [b Hb].
    exists b. by apply (apply_keeps_blob (PutBlob now x)).
  - unfold recordEvent. destruct (_ && _); apply Hs.
  - unfold setAlias. destruct (hasBlob hsh s) eqn:Hh; simpl; [|apply Hs].
    apply hasBlob_true in Hh.
    destruct (decide (name' = name)) as [->|Hne].
    + rewrite lookup_insert_eq. intros [= <-].
      by destruct (aliases s !! name).
    + rewrite lookup_insert_ne by done. apply Hs.
  - destruct (decide (name' = name)) as [->|Hne].
    + by rewrite lookup_delete_eq.
    + rewrite lookup_delete_ne by done. apply Hs.
Qed.

Lemma reachable_ok s : reachable s -> blobs_ok s /\ aliases_ok s.
Proof.
  induction 1 as [|o s _ [IHb IHa]].
  - split; intros ? ? H; cbn in H; by rewrite lookup_empty in H.
  - split; [by apply apply_blobs_ok | by apply apply_aliases_ok].
Qed.

Lemma str_or_null_key s h b :
  blobs_ok s -> blobs s !! h = Some b -> str_or_null (Some h) = Some h.
Proof.
  intros Hok Hb. destruct (Hok _ _ Hb) as [-> _]. apply str_or_null_hash.
Qed.

Lemma references_key s h :
  is_Some (blobs s !! h) -> references_blob (str_or_null (Some h)) s = true.
Proof.
  intros Hb. unfold str_or_null. destruct (String.eqb h ""); [reflexivity|].
  by apply hasBlob_true.
Qed.

Lemma recordEvent_Ok now f s :
  references_blob (str_or_null (f_inputHash f)) s = true ->
  references_blob (str_or_null (f_outputHash f)) s = true ->
  references_blob (str_or_null (f_moduleHash f)) s = true ->
  recordEvent now f s
  = Ok (Z.of_nat (length (events s)) + 1, add_event (event_row now f s) s).
Proof.
  intros Hi Ho Hm. unfold recordEvent. cbn [input_hash output_hash module_hash event_row id].
  by rewrite Hi, Ho, Hm.
Qed.

Lemma putBlob_stored now x s :
  is_Some (blobs (putBlob now x s).2 !! hash x) /\ (putBlob now x s).1 = hash x.
Proof.
  split.
  - rewrite putBlob_blobs, decide_True by done.
    by destruct (blobs s !! hash x).
  - unfold putBlob. by destruct (blobs s !! hash x).
Qed.

Lemma putBlob_keeps now x s h :
  is_Some (blobs s !! h) -> is_Some (blobs (putBlob now x s).2 !! h).
Proof.
  intros [b Hb]. exists b. by apply (apply_keeps_blob (PutBlob now x)).
Qed.

Lemma putBlob_events now x s : events (putBlob now x s).2 = events s.
Proof. unfold putBlob. by destruct (blobs s !! hash x). Qed.

Lemma reachable_putBlob now x s : reachable s -> reachable (putBlob now x s).2.
Proof. apply (reachable_apply (PutBlob now x)). Qed.

Lemma reachable_recordEvent now f s r :
  reachable s -> recordEvent now f s = Ok r -> reachable r.2.
Proof.
  intros Hs Hr. pose proof (reachable_apply (RecordEvent now f) s Hs) as H.
  cbn [apply] in H. by rewrite Hr in H.
Qed.

Lemma reachable_setAlias now name h s :
  reachable s -> reachable (setAlias now name h s).2.
Proof. apply (reachable_apply (SetAlias now name h)). Qed.

Lemma reachable_deleteAlias name s : reachable s -> reachable (deleteAlias name s).2.
Proof. apply (reachable_apply (DeleteAlias name)). Qed.

End StoreFacts.

(** ** The handlers and the states of the store *)

(** The handlers lead from a state the store reaches to such a state. *)
Lemma record_resolve_reachable c r s s' :
  Store.reachable s -> Server.record_resolve c r s = Ok s' -> Store.reachable s'.
Proof.
  unfold Server.record_resolve. intros Hs.
  destruct (Server.truthy _); [|by intros [= <-]].
  destruct (Store.recordEvent _ _ s) as [x|] eqn:E; [|discriminate].
  intros [= <-]. by apply (StoreFacts.reachable_recordEvent _ _ _ _ Hs E).
Qed.

Lemma run_catch_reachable c moduleHash inputHash err s :
  Store.reachable s ->
  Store.reachable (Server.run_catch c moduleHash inputHash err s).2.
Proof.
  intros Hs. unfold Server.run_catch.
  destruct (Store.recordEvent _ _ s) as [x|] eqn:E; [|exact Hs].
  by apply (StoreFacts.reachable_recordEvent _ _ _ _ Hs E).
Qed.

Lemma run_try_reachable rt c moduleHash inputHash wasmBytes inputBytes s :
  Store.reachable s ->
  Store.reachable
    (Server.run_try rt c moduleHash inputHash wasmBytes inputBytes s).2.
Proof.
  intros Hs. unfold Server.run_try.
  destruct (Harness.executeModule rt wasmBytes inputBytes) as [output|err];
    [|by apply run_catch_reachable].
  pose proof (StoreFacts.reachable_putBlob (Server.now c) output s Hs) as Hs1.
  destruct (Store.putBlob (Server.now c) output s) as [outputHash s1].
  cbn [snd] in Hs1.
  destruct (Store.recordEvent _ _ s1) as [x|] eqn:E;
    [|by apply run_catch_reachable].
  by apply (StoreFacts.reachable_recordEvent _ _ _ _ Hs1 E).
Qed.

Lemma post_run_reachable rt c ref inputRef reqBody s :
  Store.reachable s ->
  Store.reachable (Server.post_run rt c ref inputRef reqBody s).2.
Proof.
  intros Hs. unfold Server.post_run.
  destruct (Store.resolveRef ref s) as [r|]; [|exact Hs].
  destruct (Server.record_resolve c r s) as [s1|] eqn:E1; [|exact Hs].
  pose proof (record_resolve_reachable _ _ _ _ Hs E1) as Hs1.
  destruct (Store.getBlob _ s1) as [wasmBytes|]; [|exact Hs1].
  destruct (Server.truthy inputRef).
  - destruct (Store.resolveRef _ s1) as [ri|]; [|exact Hs1].
    destruct (Server.record_resolve c ri s1) as [s2|] eqn:E2; [|exact Hs1].
    pose proof (record_resolve_reachable _ _ _ _ Hs1 E2) as Hs2.
    destruct (Store.getBlob _ s2) as [inputBytes|]; [|exact Hs2].
    by apply run_try_reachable.
  - pose proof (StoreFacts.reachable_putBlob (Server.now c) reqBody s1 Hs1) as Hs2.
    destruct (Store.putBlob (Server.now c) reqBody s1) as [inputHash s2].
    by apply run_try_reachable.
Qed.

Lemma compile_catch_reachable c t set lang inputHash message stderr stdout s :
  Store.reachable s ->
  Store.reachable
    (Server.compile_catch c t set lang inputHash message stderr stdout s).2.
Proof.
  intros Hs. unfold Server.compile_catch.
  destruct (Store.recordEvent _ _ s) as [x|] eqn:E; [|exact Hs].
  by apply (StoreFacts.reachable_recordEvent _ _ _ _ Hs E).
Qed.

Lemma compile_send_reachable c lang inputHash wasm outputSize content s :
  Store.reachable s ->
  Store.reachable
    (Server.compile_send c lang inputHash wasm outputSize content s).2.
Proof.
  intros Hs1. unfold Server.compile_send.
  pose proof (StoreFacts.reachable_putBlob (Server.now c) wasm s Hs1) as Hs2.
  destruct (Store.putBlob (Server.now c) wasm s) as [outputHash s2].
  cbn [snd] in Hs2.
  destruct (Validate.validate wasm) as [v|err];
    [|by apply compile_catch_reachable].
  destruct (Store.recordEvent _ _ s2) as [x|] eqn:E;
    [|by apply compile_catch_reachable].
  pose proof (StoreFacts.reachable_recordEvent _ _ _ _ Hs2 E) as Hs3.
  destruct (Server.set_headers _) as [set [err|]];
    [by apply compile_catch_reachable | exact Hs3].
Qed.

Lemma post_compile_reachable tc c lang source s :
  Store.reachable s ->
  Store.reachable (Server.post_compile tc c lang source s).2.
Proof.
  intros Hs. unfold Server.post_compile.
  destruct (negb _); [exact Hs|].
  destruct (String.eqb source ""); [exact Hs|].
  pose proof (StoreFacts.reachable_putBlob (Server.now c)
                (list_byte_of_string source) s Hs) as Hs1.
  destruct (Store.putBlob (Server.now c) (list_byte_of_string source) s)
    as [inputHash s1].
  cbn [snd] in Hs1.
  destruct (tc lang source);
    by first [apply compile_catch_reachable | apply compile_send_reachable].
Qed.

Lemma put_alias_reachable c name hash s :
  Store.reachable s -> Store.reachable (Server.put_alias c name hash s).2.
Proof.
  intros Hs. unfold Server.put_alias.
  destruct (negb _); [exact Hs|].
  pose proof (StoreFacts.reachable_setAlias (Server.now c) name (default "" hash) s Hs)
    as Hs1.
  destruct (Store.setAlias (Server.now c) name (default "" hash) s) as [[result|] s1];
    [|exact Hs1].
  cbn [snd] in Hs1.
  destruct (Store.recordEvent _ _ s1) as [x|] eqn:E; [|exact Hs1].
  by apply (StoreFacts.reachable_recordEvent _ _ _ _ Hs1 E).
Qed.

Lemma delete_alias_reachable c name s :
  Store.reachable s -> Store.reachable (Server.delete_alias c name s).2.
Proof.
  intros Hs. unfold Server.delete_alias.
  pose proof (StoreFacts.reachable_deleteAlias name s Hs) as Hs1.
  destruct (Store.deleteAlias name s) as [deleted s1]. cbn [snd] in Hs1.
  destruct (negb deleted); [exact Hs1|].
  destruct (Store.getAlias name s) as [a|]; [|exact Hs1].
  destruct (Store.recordEvent _ _ s1) as [x|] eqn:E; [|exact Hs1].
  by apply (StoreFacts.reachable_recordEvent _ _ _ _ Hs1 E).
Qed.

(** [PUT /alias/:name] with the hash of no stored blob is answered with a
    400 and leaves the store as it was. *)
Lemma put_alias_missing_blob c name h s :
  Store.blobs s !! h = None ->
  exists resp, Server.put_alias c name (Some h) s = (Ok resp, s)
               /\ Server.status resp = 400.
Proof.
  intros Hh. unfold Server.put_alias.
  destruct (negb _); [by eexists|].
  change (default "" (Some h)) with h. unfold Store.setAlias.
  apply StoreFacts.hasBlob_false in Hh. rewrite Hh. by eexists.
Qed.


(** ** Contract Validator *)

(** Whatever [validate] returns, [valid] says that there is no error. *)
Lemma validate_valid_iff_no_errors (wasmBytes : list byte) (v : Validate.validation) :
  Validate.validate wasmBytes = Ok v ->
  (Validate.valid v = true <-> Validate.errors v = []).
Proof.
  destruct (Validate.parseSections wasmBytes) as [sections|e] eqn:Hsec.
  - intros Hv. apply (ValidateFacts.validate_parsed _ _ _ Hsec) in Hv.
    destruct Hv as (? & ? & ? & exports & run & _ & _ & _ & _ & _ & ->).
    apply ValidateFacts.verdict_valid.
  - unfold Validate.validate. rewrite Hsec. intros [= <-]. by cbn.
Qed.

(** C4. [validate] does not decide the contract of a module that imports
    its memory before a function. [memory_importer] exports that memory and
    its own function, of type [(i32, i32, i32) -> (i32)], as [run]: it
    satisfies the contract, and [validate] answers that the type of [run]
    cannot be resolved. [run_importer] exports the function it imports, of
    type [() -> ()], as [run]: it does not satisfy the contract, and
    [validate] answers [valid] with no error. In both, [parseImports] counts
    no function import where there is one. *)
Theorem validate_miscounts_imports :
  (Contract.conforms memory_importer
   /\ Validate.parseImports
        (Encode.vec Encode.import (Encode.imports memory_importer))
      = Ok {| Validate.funcImports := 0 |}
   /\ verdict_of (module_of memory_importer)
      = Some (false, ["Cannot resolve type for run (func index 1)"]))
  /\ (~ Contract.conforms run_importer
      /\ Validate.parseImports
           (Encode.vec Encode.import (Encode.imports run_importer))
         = Ok {| Validate.funcImports := 0 |}
      /\ verdict_of (module_of run_importer) = Some (true, [])).
Proof.
  split; split.
  - split.
    + exists 0. apply list_elem_of_here.
    + exists 1. split; [apply list_elem_of_further, list_elem_of_here|].
      exists 0. by vm_compute.
  - split; vm_compute; reflexivity.
  - intros [_ (index & Hin & typeIdx & Hlow & _)].
    apply elem_of_cons in Hin as [Hin|Hin]; [discriminate Hin|].
    apply elem_of_cons in Hin as [Hin|Hin];
      [|by apply not_elem_of_nil in Hin].
    injection Hin as ->. vm_compute in Hlow. by apply Hlow.
  - split; vm_compute; reflexivity.
Qed.

(** A module whose [run] has type [() -> ()] and that exports no memory. *)
Example validate_wrong_signature :
  Validate.errors
    <$> match Validate.validate
                (wasm_header ++ [x01; x04; x01; x60; x00; x00] ++ [x03; x02; x01; x00]
                   ++ [x07; x07; x01; x03; x72; x75; x6e; x00; x00])%list with
        | Ok v => Some v
        | Throw _ => None
        end
  = Some ["Missing export: memory (kind: memory)";
          "Wrong signature for run: got () -> (), expected (i32, i32, i32) -> (i32)"].
Proof. vm_compute. reflexivity. Qed.

(** C2. A module whose Type section holds a type that does not start with
    [0x60] makes [validate] throw: the exception of [parseTypes] is raised
    outside the [try] block and is not turned into a result. *)
Theorem validate_throws_on_type_tag :
  Validate.validate odd_type_module
  = Throw (Js.Error "Unexpected type tag: 0x61").
Proof. vm_compute. reflexivity. Qed.

(** So does every module whose Type section [parseTypes] rejects. *)
Lemma validate_rethrows_parseTypes
    (wasmBytes payload : list byte) (sections : gmap Z (list byte)) (e : Js.error) :
  Validate.parseSections wasmBytes = Ok sections ->
  sections !! Validate.SECTION_TYPE = Some payload ->
  Validate.parseTypes payload = Throw e ->
  Validate.validate wasmBytes = Throw e.
Proof.
  intros Hsec Hpayload Htypes. unfold Validate.validate, Validate.parse_section.
  by rewrite Hsec, Hpayload, Htypes.
Qed.

(** An exception of [parseSections] is caught and reported. *)
Lemma validate_catches_section_error (wasmBytes : list byte) (e : Js.error) :
  Validate.parseSections wasmBytes = Throw e ->
  Validate.validate wasmBytes
  = Ok {| Validate.valid := false;
          Validate.errors := ["Invalid wasm binary: " ++ Js.message e];
          Validate.warnings := [];
          Validate.info := {| Validate.exports := ∅;
                              Validate.runSignature := None |} |}.
Proof. intros H. unfold Validate.validate. by rewrite H. Qed.

(** ** Blob Store and Alias Registry *)

(** The hash is SHA-256: the digests of the empty string, of ["abc"] and of
    a message of two blocks. *)
Example hash_test_vectors :
  Store.hash [] = "e3b0c44298fc1c149afbf4c8996fb92427ae41e4649b934ca495991b7852b855"
  /\ Store.hash (list_byte_of_string "abc")
     = "ba7816bf8f01cfea414140de5dae2223b00361a396177a9cb410ff61f20015ad"
  /\ Store.hash
       (list_byte_of_string "abcdbcdecdefdefgefghfghighijhijkijkljklmklmnlmnomnopnopq")
     = "248d6a61d20638b8e5c026930c3e6039a33ce45964ff2167f6ecedd419db06c1".
Proof. split; [|split]; vm_compute; reflexivity. Qed.

(** C5. [setAlias] on a hash under which no blob is stored returns the
    "blob does not exist" value and leaves the store as it was, and
    [PUT /alias/:name] answers it with a 400. The property that every alias
    points to a stored blob holds of the empty store and is kept by every
    operation of the store, so it holds in every state the store reaches,
    and the handlers lead from such a state to such a state. *)
Theorem setAlias_requires_blob :
  (forall now name h s,
      Store.blobs s !! h = None -> Store.setAlias now name h s = (None, s))
  /\ (forall c name h s,
        Store.blobs s !! h = None ->
        exists resp, Server.put_alias c name (Some h) s = (Ok resp, s)
                     /\ Server.status resp = 400)
  /\ Store.aliases_ok Store.empty
  /\ (forall o s, Store.aliases_ok s -> Store.aliases_ok (Store.apply o s))
  /\ (forall s, Store.reachable s ->
        forall name a, Store.aliases s !! name = Some a ->
                       is_Some (Store.blobs s !! Store.alias_hash a))
  /\ (forall rt tc c ref inputRef reqBody lang source name hash s,
        Store.reachable s ->
        Store.reachable (Server.post_run rt c ref inputRef reqBody s).2
        /\ Store.reachable (Server.post_compile tc c lang source s).2
        /\ Store.reachable (Server.put_alias c name hash s).2
        /\ Store.reachable (Server.delete_alias c name s).2).
Proof.
  split; [|split; [|split; [|split; [|split]]]].
  - intros now name h s Hh. unfold Store.setAlias.
    apply StoreFacts.hasBlob_false in Hh. by rewrite Hh.
  - apply put_alias_missing_blob.
  - intros name a H. cbn in H. by rewrite lookup_empty in H.
  - apply StoreFacts.apply_aliases_ok.
  - intros s Hs. apply (StoreFacts.reachable_ok s Hs).
  - intros rt tc c ref inputRef reqBody lang source name hash s Hs.
    split; [by apply post_run_reachable|].
    split; [by apply post_compile_reachable|].
    split; [by apply put_alias_reachable | by apply delete_alias_reachable].
Qed.

Lemma setAlias_requires_blob_witness :
  Store.setAlias "2024-03-15T12:34:58.000" "foo" (Store.hash []) hello_store
  = (None, hello_store)
  /\ is_Some (Store.blobs foo_store !! Store.hash hello).
Proof.
  destruct setAlias_requires_blob as (Hfail & _ & _ & _ & Hinv & _).
  split.
  - apply Hfail. vm_compute. reflexivity.
  - apply (Hinv foo_store) with
      (name := "foo")
      (a := {| Store.alias_hash := Store.hash hello;
               Store.created_at := "2024-03-15T12:34:57.001";
               Store.updated_at := "2024-03-15T12:34:57.001" |}).
    + unfold foo_store, hello_store.
      do 2 apply Store.reachable_apply. apply Store.reachable_empty.
    + vm_compute. reflexivity.
Defined.

(** C6. [resolveRef] returns the hash of the alias named [ref] when there is
    one, with the alias recorded; otherwise [ref] itself when a blob is
    stored under it; otherwise nothing. A name that is both an alias and the
    hash of a stored blob resolves as the alias. *)
Theorem resolveRef_alias_first (ref : string) (s : Store.db) :
  (forall a, Store.getAlias ref s = Some a ->
             Store.resolveRef ref s
             = Some {| Store.hash_of := Store.alias_hash a;
                       Store.alias_of := Some ref |})
  /\ (Store.getAlias ref s = None -> is_Some (Store.blobs s !! ref) ->
      Store.resolveRef ref s
      = Some {| Store.hash_of := ref; Store.alias_of := None |})
  /\ (Store.getAlias ref s = None -> Store.blobs s !! ref = None ->
      Store.resolveRef ref s = None)
  /\ (forall a b, Store.getAlias ref s = Some a -> Store.blobs s !! ref = Some b ->
                  Store.resolveRef ref s
                  = Some {| Store.hash_of := Store.alias_hash a;
                            Store.alias_of := Some ref |}).
Proof.
  unfold Store.resolveRef. repeat split.
  - by intros a ->.
  - intros -> Hb. apply StoreFacts.hasBlob_true in Hb. by rewrite Hb.
  - intros -> Hb. apply StoreFacts.hasBlob_false in Hb. by rewrite Hb.
  - by intros a b -> _.
Qed.

Lemma resolveRef_alias_first_witness :
  Store.resolveRef (Store.hash []) shadow_store
  = Some {| Store.hash_of := Store.hash hello;
            Store.alias_of := Some (Store.hash []) |}.
Proof.
  destruct (resolveRef_alias_first (Store.hash []) shadow_store)
    as (_ & _ & _ & Hboth).
  apply (Hboth
           {| Store.alias_hash := Store.hash hello;
              Store.created_at := "2024-03-15T12:35:00.000";
              Store.updated_at := "2024-03-15T12:35:00.000" |}
           {| Store.data := [];
              Store.size := 0;
              Store.blob_created_at := "2024-03-15T12:34:59.000" |});
    vm_compute; reflexivity.
Defined.

(** C7. [putBlob x] returns the SHA-256 of [x] in hexadecimal; a second
    [putBlob x], at any later time, returns the same hash and leaves the
    store, and so the stored row with its [created_at], as it was; and, in a
    state the store reaches, when no stored blob collides with [x],
    [getBlob] of that hash then returns [x]. *)
Theorem putBlob_idempotent (x : list byte) (now now' : string) (s : Store.db) :
  let r1 := Store.putBlob now x s in
  let r2 := Store.putBlob now' x r1.2 in
  r1.1 = Store.hash x
  /\ r2.1 = Store.hash x
  /\ r2.2 = r1.2
  /\ (Store.reachable s ->
      (forall h b, Store.blobs s !! h = Some b ->
                   Store.hash (Store.data b) = Store.hash x -> Store.data b = x) ->
      Store.getBlob (Store.hash x) r2.2 = Some x).
Proof.
  intros r1 r2.
  assert (r1.1 = Store.hash x) as H1
      by (unfold r1, Store.putBlob; by destruct (Store.blobs s !! Store.hash x)).
  assert (is_Some (Store.blobs r1.2 !! Store.hash x)) as [b Hb].
  { unfold r1. rewrite StoreFacts.putBlob_blobs. rewrite decide_True by done.
    by destruct (Store.blobs s !! Store.hash x). }
  assert (r2 = (Store.hash x, r1.2)) as H2
      by (unfold r2, Store.putBlob; by rewrite Hb).
  rewrite H2. cbn [fst snd]. repeat split; [exact H1|].
  intros Hs Hcoll. unfold Store.getBlob. rewrite Hb. cbn. f_equal.
  unfold r1 in Hb. rewrite StoreFacts.putBlob_blobs, decide_True in Hb by done.
  destruct (Store.blobs s !! Store.hash x) as [b'|] eqn:E.
  - injection Hb as <-. apply (Hcoll _ _ E).
    destruct (StoreFacts.reachable_ok s Hs) as [Hok _].
    by destruct (Hok _ _ E) as [<- _].
  - by injection Hb as <-.
Qed.

Lemma putBlob_idempotent_witness :
  Store.getBlob (Store.hash [])
    (Store.putBlob "2024-03-15T12:36:00.000" []
       (Store.putBlob "2024-03-15T12:35:00.000" [] hello_store).2).2
  = Some [].
Proof.
  apply (putBlob_idempotent [] "2024-03-15T12:35:00.000"
           "2024-03-15T12:36:00.000" hello_store).
  - unfold hello_store. apply Store.reachable_apply, Store.reachable_empty.
  - intros h b Hb Hcoll. unfold hello_store in Hb. cbn [Store.apply] in Hb.
    rewrite StoreFacts.putBlob_blobs in Hb. cbn in Hb. rewrite lookup_empty in Hb.
    case_decide; [|discriminate Hb]. injection Hb as <-.
    vm_compute in Hcoll. discriminate Hcoll.
Defined.

(** ** Execution Harness *)

(** Each of them satisfies the contract. *)
Example known_modules_valid :
  map (fun m => match Validate.validate m.1 with
                | Ok v => Validate.valid v
                | Throw _ => false
                end) known_modules
  = [true; true; true; true; true; true; true; true].
Proof. vm_compute. reflexivity. Qed.

(** C1. A module with three pages of memory whose [run] returns 65537 gets
    65537 bytes of output back, and with the two pages of the contract it
    gets the 65536 bytes there are: in neither case does the execution fail.
    An output of 65536 bytes is accepted. *)
Theorem executeModule_ignores_MAX_OUTPUT :
  output_length (Harness.executeModule engine returns_65537_3 [])
  = Some (Harness.MAX_OUTPUT + 1)
  /\ output_length (Harness.executeModule engine returns_65537 [])
     = Some Harness.MAX_OUTPUT
  /\ output_length (Harness.executeModule engine returns_65536 [])
     = Some Harness.MAX_OUTPUT.
Proof. split; [|split]; vm_compute; reflexivity. Qed.

Lemma slice_from (mem : list byte) (start n : Z) :
  0 <= start -> 0 <= n ->
  Js.slice mem start (start + n) = take (Z.to_nat n) (drop (Z.to_nat start) mem).
Proof.
  intros Hs Hn. unfold Js.slice, Js.rel_index.
  destruct (start <? 0) eqn:E1; [apply Z.ltb_lt in E1; lia|].
  destruct (start + n <? 0) eqn:E2; [apply Z.ltb_lt in E2; lia|].
  destruct (Z.le_gt_cases (Z.of_nat (length mem)) start) as [Hlen|Hlen].
  - rewrite Z.min_r by lia. rewrite !drop_ge by lia. by rewrite !take_nil.
  - rewrite (Z.min_l start) by lia.
    destruct (Z.le_gt_cases (start + n) (Z.of_nat (length mem))) as [Hend|Hend].
    + rewrite Z.min_l by lia. f_equal. lia.
    + rewrite Z.min_r by lia.
      rewrite !take_ge; [reflexivity | |]; rewrite length_drop; lia.
Qed.

Lemma slice_backwards (mem : list byte) (start stop : Z) :
  0 <= stop <= start -> Js.slice mem start stop = [].
Proof.
  intros H. unfold Js.slice, Js.rel_index.
  destruct (start <? 0) eqn:E1; [apply Z.ltb_lt in E1; lia|].
  destruct (stop <? 0) eqn:E2; [apply Z.ltb_lt in E2; lia|].
  replace (Z.to_nat _) with 0%nat by lia. reflexivity.
Qed.

Lemma of_i32_small (w : Z) : 0 <= w < 2 ^ 31 -> Js.of_i32 w = w.
Proof.
  intros H. unfold Js.of_i32, Js.ToInt32.
  rewrite Z.mod_small by lia. lia.
Qed.

Lemma of_i32_sign_bit (w : Z) : 2 ^ 31 <= w < 2 ^ 32 -> Js.of_i32 w = w - 2 ^ 32.
Proof.
  intros H. unfold Js.of_i32, Js.ToInt32.
  replace (w + 2 ^ 31) with (w - 2 ^ 31 + 1 * 2 ^ 32) by lia.
  rewrite Z.mod_add by lia. rewrite Z.mod_small by lia. lia.
Qed.

Lemma executeModule_slice
    (rt : WebAssembly.Runtime) (wasmBytes inputBytes mem : list byte)
    (outputLen : option Z) :
  Harness.call_run rt wasmBytes inputBytes = Ok (outputLen, mem) ->
  Harness.executeModule rt wasmBytes inputBytes
  = Ok (Js.slice mem Harness.OUTPUT_PTR (Harness.output_end outputLen)).
Proof. intros Hrun. unfold Harness.executeModule. by rewrite Hrun. Qed.

(** The 32 bits [w] that [run] returns are read as a signed number.
    Without the sign bit, the output is the [w] bytes of memory from
    [OUTPUT_PTR] on, as far as the memory goes. With the sign bit, the
    number is [w - 2 ^ 32], a negative one, and the output is the slice of
    memory from [OUTPUT_PTR] to [OUTPUT_PTR + (w - 2 ^ 32)]: empty when that
    end is not negative. *)
Lemma executeModule_signed_length
    (rt : WebAssembly.Runtime) (wasmBytes inputBytes mem : list byte) (w : Z) :
  Harness.call_run rt wasmBytes inputBytes = Ok (Some w, mem) ->
  (0 <= w < 2 ^ 31 ->
   Harness.executeModule rt wasmBytes inputBytes
   = Ok (take (Z.to_nat w) (drop (Z.to_nat Harness.OUTPUT_PTR) mem)))
  /\ (2 ^ 31 <= w < 2 ^ 32 ->
      Js.of_i32 w = w - 2 ^ 32
      /\ Harness.executeModule rt wasmBytes inputBytes
         = Ok (Js.slice mem Harness.OUTPUT_PTR (Harness.OUTPUT_PTR + (w - 2 ^ 32)))
      /\ (2 ^ 32 - Harness.OUTPUT_PTR <= w ->
          Harness.executeModule rt wasmBytes inputBytes = Ok [])).
Proof.
  intros Hrun. rewrite (executeModule_slice _ _ _ _ _ Hrun).
  unfold Harness.output_end. split.
  - intros Hw. rewrite of_i32_small by exact Hw.
    rewrite slice_from; [reflexivity | unfold Harness.OUTPUT_PTR; lia | lia].
  - intros Hw. rewrite of_i32_sign_bit by exact Hw.
    split; [reflexivity|]. split; [reflexivity|].
    intros Hhi. rewrite slice_backwards; [reflexivity|].
    unfold Harness.OUTPUT_PTR in *. lia.
Qed.

Lemma returned_memory_left r w :
  returned r = Some w -> r = Ok (w, memory_left r).
Proof. destruct r as [[w' mem]|e]; simpl; [by intros [= ->] | discriminate]. Qed.

(** Whatever non-negative length [run] returns, [MAX_OUTPUT] or more, that
    many bytes are returned when the memory holds them. *)
Lemma executeModule_any_length
    (rt : WebAssembly.Runtime) (wasmBytes inputBytes mem : list byte) (w : Z) :
  Harness.call_run rt wasmBytes inputBytes = Ok (Some w, mem) ->
  0 <= w < 2 ^ 31 ->
  Harness.OUTPUT_PTR + w <= Z.of_nat (length mem) ->
  exists output,
    Harness.executeModule rt wasmBytes inputBytes = Ok output
    /\ Z.of_nat (length output) = w.
Proof.
  intros Hrun Hw Hmem. rewrite (executeModule_slice _ _ _ _ _ Hrun).
  eexists. split; [reflexivity|].
  unfold Harness.output_end. rewrite of_i32_small by exact Hw.
  rewrite slice_from by (unfold Harness.OUTPUT_PTR; lia).
  rewrite length_take, length_drop. unfold Harness.OUTPUT_PTR in *. lia.
Qed.

(** C3. The harness reads what [run] returns as a signed number, not as
    an unsigned length. When [run] returns [0xFFFFFFFF] the harness takes it
    as -1 and returns no byte, and when [run] returns [0xFFFEFFFF], which is
    -65537, it returns 65535 bytes: the memory from [OUTPUT_PTR] up to its
    last byte, that one left out. Neither execution fails. Read as unsigned
    lengths, both numbers take the 65536 bytes that the memory has from
    [OUTPUT_PTR] on. *)
Theorem executeModule_reads_length_signed :
  (returned (Harness.call_run engine returns_minus_1 hello)
   = Some (Some (2 ^ 32 - 1))
   /\ Harness.executeModule engine returns_minus_1 hello = Ok []
   /\ Z.of_nat
        (length (unsigned_output
                   (memory_left (Harness.call_run engine returns_minus_1 hello))
                   (2 ^ 32 - 1)))
      = 65536)
  /\ (returned (Harness.call_run engine returns_minus_65537 hello)
      = Some (Some (2 ^ 32 - 65537))
      /\ output_length (Harness.executeModule engine returns_minus_65537 hello)
         = Some 65535
      /\ Z.of_nat
           (length (unsigned_output
                      (memory_left
                         (Harness.call_run engine returns_minus_65537 hello))
                      (2 ^ 32 - 65537)))
         = 65536).
Proof.
  split; (split; [|split]); vm_compute; reflexivity.
Qed.

(** ** Event Log and request handlers *)

Lemma record_resolve_events (c : Server.clock) (r : Store.resolved) (s : Store.db) :
  is_Some (Store.blobs s !! Store.hash_of r) ->
  exists pre,
    Server.record_resolve c r s
    = Ok {| Store.blobs := Store.blobs s;
            Store.events := (Store.events s ++ pre)%list;
            Store.aliases := Store.aliases s |}
    /\ Forall (fun e => Store.type e = "resolve") pre.
Proof.
  intros Hb. unfold Server.record_resolve.
  destruct (Server.truthy (Store.alias_of r)).
  - rewrite StoreFacts.recordEvent_Ok;
      [|reflexivity | by apply StoreFacts.references_key | reflexivity].
    eexists [_]. split; [reflexivity|]. by repeat constructor.
  - exists []. rewrite app_nil_r. destruct s. split; [reflexivity | constructor].
Qed.

(** [POST /run/:ref] with the input in the body, for a [ref] that resolves
    to a stored module: the resolve event of an alias, the input stored,
    then the [try] block. *)
Lemma post_run_body (rt : WebAssembly.Runtime) (c : Server.clock) (ref : string)
    (reqBody wasmBytes : list byte) (s : Store.db) (r : Store.resolved) :
  Store.resolveRef ref s = Some r ->
  Store.getBlob (Store.hash_of r) s = Some wasmBytes ->
  exists pre,
    Forall (fun e => Store.type e = "resolve") pre
    /\ Server.post_run rt c ref None reqBody s
       = Server.run_try rt c (Store.hash_of r) (Store.hash reqBody) wasmBytes reqBody
           (Store.putBlob (Server.now c) reqBody
              {| Store.blobs := Store.blobs s;
                 Store.events := (Store.events s ++ pre)%list;
                 Store.aliases := Store.aliases s |}).2.
Proof.
  intros Hres Hblob. unfold Store.getBlob in Hblob.
  destruct (Store.blobs s !! Store.hash_of r) as [mb|] eqn:Hmb; [|discriminate].
  cbn in Hblob. injection Hblob as <-.
  destruct (record_resolve_events c r s) as (pre & Hrec & Hpre); [by exists mb|].
  exists pre. split; [exact Hpre|].
  unfold Server.post_run. rewrite Hres, Hrec.
  unfold Store.getBlob. cbn [Store.blobs]. rewrite Hmb.
  cbn [fmap option_fmap option_map Server.truthy Store.str_or_null].
  match goal with
  | |- context [Store.putBlob ?n ?x ?t] =>
      pose proof (StoreFacts.putBlob_stored n x t) as [_ Hih];
      destruct (Store.putBlob n x t) as [ih s2]
  end.
  cbn [fst snd] in *. by subst ih.
Qed.

(** C10, as the code has it. [POST /run/:ref] with the input in the body
    stores the input as a blob before it runs the module. When the run
    throws, the blob stays, the answer is a 400, and the only events added
    are the resolve event of an alias, if any, and one execute event with
    the [module_hash], the [input_hash], [success = 0] and no [output_hash];
    its [duration_ms] and [error] are the measured duration and the message
    of the exception as [recordEvent] stores them: NULL for a duration of 0
    and for an empty message. *)
Theorem post_run_failure_recorded
    (rt : WebAssembly.Runtime) (c : Server.clock) (ref : string)
    (reqBody wasmBytes : list byte) (s : Store.db) (r : Store.resolved)
    (err : Js.error) :
  Store.reachable s ->
  Store.resolveRef ref s = Some r ->
  Store.getBlob (Store.hash_of r) s = Some wasmBytes ->
  Harness.executeModule rt wasmBytes reqBody = Throw err ->
  let out := Server.post_run rt c ref None reqBody s in
  out.1 = Ok (Server.json 400 [("error", "Execution failed");
                               ("message", Js.message err)])
  /\ (exists b, Store.blobs out.2 !! Store.hash reqBody = Some b
                /\ Store.hash (Store.data b) = Store.hash reqBody)
  /\ exists pre e,
      Store.events out.2 = (Store.events s ++ pre ++ [e])%list
      /\ Forall (fun e => Store.type e = "resolve") pre
      /\ Store.type e = "execute"
      /\ Store.module_hash e = Some (Store.hash_of r)
      /\ Store.input_hash e = Some (Store.hash reqBody)
      /\ Store.output_hash e = None
      /\ Store.success e = 0
      /\ Store.duration_ms e = Store.num_or_null (Some (Server.t1 c - Server.t0 c))
      /\ Store.error e = Store.str_or_null (Some (Js.message err)).
Proof.
  intros Hs Hres Hblob Hexec out.
  destruct (StoreFacts.reachable_ok s Hs) as [Hok _].
  destruct (post_run_body rt c ref reqBody wasmBytes s r Hres Hblob)
    as (pre & Hpre & Hout).
  fold out in Hout.
  assert (exists mb, Store.blobs s !! Store.hash_of r = Some mb) as [mb Hmb].
  { unfold Store.getBlob in Hblob.
    destruct (Store.blobs s !! Store.hash_of r) as [mb|]; [by exists mb | discriminate]. }
  set (s1 := {| Store.blobs := Store.blobs s;
                Store.events := (Store.events s ++ pre)%list;
                Store.aliases := Store.aliases s |}) in *.
  set (s2 := (Store.putBlob (Server.now c) reqBody s1).2) in *.
  destruct (StoreFacts.putBlob_stored (Server.now c) reqBody s1) as [[ib Hib] _].
  fold s2 in Hib.
  assert (is_Some (Store.blobs s2 !! Store.hash_of r)) as Hm2.
  { apply StoreFacts.putBlob_keeps. by exists mb. }
  set (f := Server.execute_failed (Store.hash_of r) (Store.hash reqBody)
              (Server.t1 c - Server.t0 c) err).
  assert (out = (Ok (Server.json 400 [("error", "Execution failed");
                                      ("message", Js.message err)]),
                 Store.add_event (Store.event_row (Server.now c) f s2) s2)) as ->.
  { rewrite Hout. unfold Server.run_try. rewrite Hexec. unfold Server.run_catch.
    rewrite StoreFacts.recordEvent_Ok; [reflexivity | | reflexivity |].
    - cbn [Server.execute_failed Store.f_inputHash].
      apply StoreFacts.references_key. by exists ib.
    - cbn [Server.execute_failed Store.f_moduleHash].
      by apply StoreFacts.references_key. }
  cbn [fst snd]. split; [reflexivity|]. split.
  - exists ib. split; [exact Hib|].
    assert (Store.blobs_ok s2) as Hok2.
    { apply (StoreFacts.apply_blobs_ok (Store.PutBlob (Server.now c) reqBody) s1).
      exact Hok. }
    by destruct (Hok2 _ _ Hib) as [<- _].
  - exists pre, (Store.event_row (Server.now c) f s2).
    split.
    { cbn [Store.add_event Store.events]. unfold s2.
      rewrite StoreFacts.putBlob_events. cbn [s1 Store.events].
      by rewrite <- app_assoc. }
    split; [exact Hpre|].
    cbn [Store.event_row f Server.execute_failed Store.type Store.module_hash
         Store.input_hash Store.output_hash Store.success Store.duration_ms
         Store.error Store.f_type Store.f_moduleHash Store.f_inputHash
         Store.f_outputHash Store.f_success Store.f_durationMs Store.f_error].
    split; [reflexivity|]. split; [by apply (StoreFacts.str_or_null_key s _ mb)|].
    split; [apply StoreFacts.str_or_null_hash|]. by repeat split.
Qed.

Lemma stored_as_reachable name wasm : Store.reachable (stored_as name wasm).
Proof. do 2 apply Store.reachable_apply. apply Store.reachable_empty. Qed.

Lemma post_run_failure_recorded_witness :
  (Server.post_run engine clock_12ms "t" None hello (stored_as "t" trapping)).1
  = Ok (Server.json 400 [("error", "Execution failed"); ("message", "unreachable")]).
Proof.
  apply (post_run_failure_recorded engine clock_12ms "t" hello trapping
           (stored_as "t" trapping) (ref_to "t" trapping) (Js.Error "unreachable")).
  - apply stored_as_reachable.
  - vm_compute. reflexivity.
  - vm_compute. reflexivity.
  - vm_compute. reflexivity.
Defined.

(** C10 fails as stated: a run that throws within the millisecond in which
    it started is recorded as an execute event without [duration_ms]. *)
Lemma post_run_failure_counterexample :
  map (fun e => (Store.type e, Store.success e, Store.duration_ms e))
    (Store.events
       (Server.post_run engine clock_0ms "t" None hello (stored_as "t" trapping)).2)
  = [("resolve", 1, None); ("execute", 0, None)]
  /\ Server.t1 clock_0ms - Server.t0 clock_0ms = 0.
Proof. split; vm_compute; reflexivity. Qed.

(** C9. [recordEvent] stores an [outputSize] of 0 and a [durationMs] of 0
    as it stores a field that was left out: the row has NULL there, and the
    store that results is the same. An execution that returns no byte
    succeeds and is recorded as an execute event whose [output_size] is
    NULL. *)
Theorem recordEvent_zero_is_null :
  (forall now f s,
      Store.f_outputSize f = Some 0 ->
      Store.output_size (Store.event_row now f s) = None
      /\ Store.recordEvent now f s
         = Store.recordEvent now (Store.with_outputSize None f) s)
  /\ (forall now f s,
        Store.f_durationMs f = Some 0 ->
        Store.duration_ms (Store.event_row now f s) = None
        /\ Store.recordEvent now f s
           = Store.recordEvent now (Store.with_durationMs None f) s)
  /\ (forall rt c ref reqBody wasmBytes s r,
        Store.reachable s ->
        Store.resolveRef ref s = Some r ->
        Store.getBlob (Store.hash_of r) s = Some wasmBytes ->
        Harness.executeModule rt wasmBytes reqBody = Ok [] ->
        let out := Server.post_run rt c ref None reqBody s in
        (exists h, out.1 = Ok {| Server.status := 200;
                                 Server.headers := h;
                                 Server.content := Server.Bytes [] |})
        /\ exists e, last (Store.events out.2) = Some e
                     /\ Store.type e = "execute"
                     /\ Store.success e = 1
                     /\ Store.output_hash e = Some (Store.hash [])
                     /\ Store.output_size e = None).
Proof.
  split; [|split].
  - intros now f s Hf.
    assert (Store.event_row now f s
            = Store.event_row now (Store.with_outputSize None f) s) as Hrow
        by (unfold Store.event_row; cbn; by rewrite Hf).
    split; [by rewrite Hrow|]. unfold Store.recordEvent. by rewrite Hrow.
  - intros now f s Hf.
    assert (Store.event_row now f s
            = Store.event_row now (Store.with_durationMs None f) s) as Hrow
        by (unfold Store.event_row; cbn; by rewrite Hf).
    split; [by rewrite Hrow|]. unfold Store.recordEvent. by rewrite Hrow.
  - intros rt c ref reqBody wasmBytes s r Hs Hres Hblob Hexec out.
    destruct (post_run_body rt c ref reqBody wasmBytes s r Hres Hblob)
      as (pre & Hpre & Hout).
    fold out in Hout.
    assert (is_Some (Store.blobs s !! Store.hash_of r)) as Hmb.
    { unfold Store.getBlob in Hblob.
      destruct (Store.blobs s !! Store.hash_of r) as [mb|]; [by exists mb | discriminate]. }
    set (s1 := {| Store.blobs := Store.blobs s;
                  Store.events := (Store.events s ++ pre)%list;
                  Store.aliases := Store.aliases s |}) in *.
    set (s2 := (Store.putBlob (Server.now c) reqBody s1).2) in *.
    destruct (StoreFacts.putBlob_stored (Server.now c) reqBody s1) as [Hib _].
    fold s2 in Hib.
    set (s3 := (Store.putBlob (Server.now c) [] s2).2).
    assert (Store.putBlob (Server.now c) [] s2 = (Store.hash [], s3)) as Hput.
    { destruct (StoreFacts.putBlob_stored (Server.now c) [] s2) as [_ Hoh].
      unfold s3. destruct (Store.putBlob (Server.now c) [] s2). cbn in *. by subst. }
    assert (is_Some (Store.blobs s3 !! Store.hash [])) as Hob
        by apply StoreFacts.putBlob_stored.
    assert (is_Some (Store.blobs s3 !! Store.hash reqBody)) as Hib3
        by (by apply StoreFacts.putBlob_keeps).
    assert (is_Some (Store.blobs s3 !! Store.hash_of r)) as Hmb3
        by (do 2 apply StoreFacts.putBlob_keeps; exact Hmb).
    set (f := Server.execute_ok (Store.hash_of r) (Store.hash reqBody)
                (Store.hash []) [] (Server.t1 c - Server.t0 c)).
    assert (exists h,
               out = (Ok {| Server.status := 200; Server.headers := h;
                            Server.content := Server.Bytes [] |},
                      Store.add_event (Store.event_row (Server.now c) f s3) s3))
      as [h ->].
    { rewrite Hout. unfold Server.run_try. rewrite Hexec, Hput.
      rewrite StoreFacts.recordEvent_Ok; [by eexists | | |];
        by apply StoreFacts.references_key. }
    cbn [fst snd]. split; [by exists h|].
    eexists. split.
    { cbn [Store.add_event Store.events]. apply last_snoc. }
    cbn [Store.event_row f Server.execute_ok Store.type Store.success
         Store.output_hash Store.output_size Store.f_type Store.f_success
         Store.f_outputHash Store.f_outputSize].
    split; [reflexivity|]. split; [reflexivity|].
    split; [apply StoreFacts.str_or_null_hash | reflexivity].
Qed.

Lemma recordEvent_zero_is_null_witness :
  exists e,
    last (Store.events
            (Server.post_run engine clock_12ms "m" None [] (stored_as "m" returns_0)).2)
    = Some e
    /\ Store.type e = "execute"
    /\ Store.success e = 1
    /\ Store.output_hash e = Some (Store.hash [])
    /\ Store.output_size e = None.
Proof.
  destruct recordEvent_zero_is_null as (_ & _ & Hrun).
  apply (Hrun engine clock_12ms "m" [] returns_0 (stored_as "m" returns_0)
           (ref_to "m" returns_0)).
  - apply stored_as_reachable.
  - vm_compute. reflexivity.
  - vm_compute. reflexivity.
  - vm_compute. reflexivity.
Defined.

(** ** Compile Pipeline *)

Module HeaderFacts.

(** Bytes below 128 are their own code points. *)
Lemma decode_ascii (bs : list byte) :
  Forall (fun b => byte_val b < 128) bs -> Utf8.decode bs = map byte_val bs.
Proof.
  unfold Utf8.decode. induction 1 as [|b bs Hb _ IH]; [reflexivity|].
  cbn [Utf8.decode_loop map]. change (0 =? 0) with true. cbv beta iota zeta.
  unfold Utf8.first. destruct (Z.leb_spec (byte_val b) 127); [|lia].
  by rewrite IH.
Qed.

Lemma bytes_app (a b : string) :
  list_byte_of_string (a ++ b)
  = (list_byte_of_string a ++ list_byte_of_string b)%list.
Proof.
  induction a as [|c a IH]; [reflexivity|].
  change (byte_of_ascii c :: list_byte_of_string (a ++ b)
          = byte_of_ascii c :: (list_byte_of_string a ++ list_byte_of_string b))%list.
  by rewrite IH.
Qed.

(** The characters of a hexadecimal number are below 128, and Node takes
    them in a header. *)
Lemma hex2_chars (b : byte) :
  Forall (fun b => byte_val b < 128 /\ Server.header_char (byte_val b) = true)
    (list_byte_of_string (hex2 b)).
Proof. destruct b; repeat constructor. Qed.

Lemma to_hex_chars (bs : list byte) :
  Forall (fun b => byte_val b < 128 /\ Server.header_char (byte_val b) = true)
    (list_byte_of_string (to_hex bs)).
Proof.
  unfold to_hex. induction bs as [|b [|b' bs] IH].
  - constructor.
  - apply hex2_chars.
  - change (Forall (fun b => byte_val b < 128 /\ Server.header_char (byte_val b) = true)
              (list_byte_of_string
                 (hex2 b ++ "" ++ String.concat "" (map hex2 (b' :: bs))))).
    rewrite !bytes_app. apply Forall_app. split; [apply hex2_chars|].
    apply Forall_app. split; [constructor | exact IH].
Qed.

(** Node takes a hash as the value of a header. *)
Lemma hash_ok (data : list byte) :
  Server.header_value_ok (Server.Text (Store.hash data)) = true.
Proof.
  unfold Server.header_value_ok, Utf8.code_points, Store.hash.
  pose proof (to_hex_chars (Sha256.digest data)) as H.
  rewrite decode_ascii by (eapply Forall_impl; [exact H|]; by intros b [Hb _]).
  induction H as [|b bs [_ Hb] _ IH]; [reflexivity|].
  cbn [map forallb]. by rewrite Hb, IH.
Qed.

(** Headers that Node takes are all set; the first one it refuses ends
    the list of those that were set. *)
Lemma set_headers_all (hs : list (string * Server.header_value)) :
  Forall (fun h => Server.header_value_ok h.2 = true) hs ->
  Server.set_headers hs = (hs, None).
Proof.
  induction 1 as [|h hs Hh _ IH]; [reflexivity|].
  cbn [Server.set_headers]. by rewrite Hh, IH.
Qed.

Lemma set_headers_refused (hs : list (string * Server.header_value))
    (h : string * Server.header_value) (rest : list (string * Server.header_value)) :
  Forall (fun h => Server.header_value_ok h.2 = true) hs ->
  Server.header_value_ok h.2 = false ->
  Server.set_headers (hs ++ h :: rest) = (hs, Some (Server.invalid_char h.1)).
Proof.
  intros Hhs Hh. induction Hhs as [|h' hs Hh' _ IH].
  - cbn [app Server.set_headers]. by rewrite Hh.
  - cbn [app Server.set_headers]. by rewrite Hh', IH.
Qed.

(** The headers of a compile up to the warnings. *)
Lemma first_headers_ok (source : string) (wasm : list byte) (v : Validate.validation) :
  Server.header_value_ok (Server.JsonArray (Validate.errors v)) = true ->
  Forall (fun h => Server.header_value_ok h.2 = true)
    ([("Content-Type", Server.Text "application/wasm");
      ("X-Input-Hash", Server.Text (Store.hash (list_byte_of_string source)));
      ("X-Output-Hash", Server.Text (Store.hash wasm));
      ("X-Contract-Valid",
       Server.Text (if Validate.valid v then "true" else "false"))]
       ++ (if negb (Validate.valid v)
           then [("X-Contract-Errors", Server.JsonArray (Validate.errors v))]
           else []))%list.
Proof.
  intros He. apply Forall_app. split.
  - constructor; [vm_compute; reflexivity|].
    constructor; [apply hash_ok|]. constructor; [apply hash_ok|].
    constructor; [|constructor].
    by destruct (Validate.valid v); vm_compute.
  - destruct (negb _); constructor; [exact He | constructor].
Qed.

End HeaderFacts.

(** A compile whose toolchain succeeds answers 200 with the module and the
    verdict in the headers, and records a successful compile event,
    whenever the validator returns a verdict and Node takes its errors and
    warnings as values of a header. *)
Lemma post_compile_verdict (tc : Server.Toolchain) (c : Server.clock)
    (lang source : string) (wasm : list byte) (v : Validate.validation)
    (s : Store.db) :
  Validate.has Server.compilers lang = true ->
  source <> "" ->
  tc lang source = Server.Built wasm ->
  Validate.validate wasm = Ok v ->
  Server.header_value_ok (Server.JsonArray (Validate.errors v)) = true ->
  Server.header_value_ok (Server.JsonArray (Validate.warnings v)) = true ->
  let out := Server.post_compile tc c lang source s in
  out.1 = Ok {| Server.status := 200;
                Server.headers :=
                  [("Content-Type", Server.Text "application/wasm");
                   ("X-Input-Hash",
                    Server.Text (Store.hash (list_byte_of_string source)));
                   ("X-Output-Hash", Server.Text (Store.hash wasm))]
                    ++ Server.contract_headers v;
                Server.content := Server.Bytes wasm |}
  /\ exists e, last (Store.events out.2) = Some e
               /\ Store.type e = "compile"
               /\ Store.success e = 1
               /\ Store.output_hash e = Some (Store.hash wasm).
Proof.
  intros Hlang Hsrc Htc Hv Herr Hwarn out. unfold out, Server.post_compile.
  unfold Server.found. rewrite Hlang. cbn [orb negb].
  destruct (String.eqb_spec source ""); [done|].
  set (s1 := (Store.putBlob (Server.now c) (list_byte_of_string source) s).2).
  assert (Store.putBlob (Server.now c) (list_byte_of_string source) s
          = (Store.hash (list_byte_of_string source), s1)) as ->.
  { destruct (StoreFacts.putBlob_stored (Server.now c) (list_byte_of_string source) s)
      as [_ Hh].
    unfold s1. destruct (Store.putBlob _ _ s). cbn in *. by subst. }
  rewrite Htc. unfold Server.compile_send.
  set (s2 := (Store.putBlob (Server.now c) wasm s1).2).
  assert (Store.putBlob (Server.now c) wasm s1 = (Store.hash wasm, s2)) as ->.
  { destruct (StoreFacts.putBlob_stored (Server.now c) wasm s1) as [_ Hh].
    unfold s2. destruct (Store.putBlob _ _ s1). cbn in *. by subst. }
  rewrite Hv.
  rewrite StoreFacts.recordEvent_Ok.
  - rewrite HeaderFacts.set_headers_all.
    + cbn [fst snd]. split; [reflexivity|].
      eexists. split; [apply last_snoc|].
      cbn [Store.event_row Server.compile_ok Store.type Store.success
           Store.output_hash Store.f_type Store.f_success Store.f_outputHash].
      split; [reflexivity|]. split; [reflexivity|].
      apply StoreFacts.str_or_null_hash.
    + pose proof (HeaderFacts.first_headers_ok source wasm v Herr) as H.
      unfold Server.contract_headers.
      rewrite app_assoc, (app_assoc _ (if negb _ then _ else _)).
      apply Forall_app. split.
      * rewrite <- app_assoc. exact H.
      * destruct (negb (_ =? 0)); constructor; [exact Hwarn | constructor].
  - apply StoreFacts.references_key, StoreFacts.putBlob_keeps, StoreFacts.putBlob_stored.
  - apply StoreFacts.references_key, StoreFacts.putBlob_stored.
  - reflexivity.
Qed.

(** A compile whose toolchain succeeds, with a warning that Node refuses as
    the value of a header: the successful compile event is recorded, and
    then the [catch] block records a failed one and answers 400 with the
    message of Node's error. *)
Lemma post_compile_refused_warnings (tc : Server.Toolchain) (c : Server.clock)
    (lang source : string) (wasm : list byte) (v : Validate.validation)
    (s : Store.db) :
  Validate.has Server.compilers lang = true ->
  source <> "" ->
  tc lang source = Server.Built wasm ->
  Validate.validate wasm = Ok v ->
  Server.header_value_ok (Server.JsonArray (Validate.errors v)) = true ->
  Server.header_value_ok (Server.JsonArray (Validate.warnings v)) = false ->
  let message := Js.message (Server.invalid_char "X-Contract-Warnings") in
  let out := Server.post_compile tc c lang source s in
  (exists set,
     out.1 = Ok {| Server.status := 400;
                   Server.headers := set;
                   Server.content :=
                     Server.Json [("error", "Compilation failed");
                                  ("stderr", message);
                                  ("stdout", "")] |})
  /\ is_Some (Store.getBlob (Store.hash wasm) out.2)
  /\ exists built failed,
      Store.events out.2 = (Store.events s ++ [built; failed])%list
      /\ Store.type built = "compile" /\ Store.success built = 1
      /\ Store.output_hash built = Some (Store.hash wasm)
      /\ Store.type failed = "compile" /\ Store.success failed = 0
      /\ Store.output_hash failed = None
      /\ Store.error failed = Some message.
Proof.
  intros Hlang Hsrc Htc Hv Herr Hwarn message out.
  unfold out, Server.post_compile, Server.found. rewrite Hlang. cbn [orb negb].
  destruct (String.eqb_spec source ""); [done|].
  set (s1 := (Store.putBlob (Server.now c) (list_byte_of_string source) s).2).
  assert (Store.putBlob (Server.now c) (list_byte_of_string source) s
          = (Store.hash (list_byte_of_string source), s1)) as ->.
  { destruct (StoreFacts.putBlob_stored (Server.now c) (list_byte_of_string source) s)
      as [_ Hh].
    unfold s1. destruct (Store.putBlob _ _ s). cbn in *. by subst. }
  rewrite Htc. unfold Server.compile_send.
  set (s2 := (Store.putBlob (Server.now c) wasm s1).2).
  assert (Store.putBlob (Server.now c) wasm s1 = (Store.hash wasm, s2)) as ->.
  { destruct (StoreFacts.putBlob_stored (Server.now c) wasm s1) as [_ Hh].
    unfold s2. destruct (Store.putBlob _ _ s1). cbn in *. by subst. }
  assert (is_Some (Store.blobs s2 !! Store.hash (list_byte_of_string source)))
    as Hin by apply StoreFacts.putBlob_keeps, StoreFacts.putBlob_stored.
  assert (is_Some (Store.blobs s2 !! Store.hash wasm)) as Hout
      by apply StoreFacts.putBlob_stored.
  rewrite Hv.
  rewrite StoreFacts.recordEvent_Ok;
    [|by apply StoreFacts.references_key | by apply StoreFacts.references_key
     |reflexivity].
  cbn [snd].
  assert (negb (Z.of_nat (length (Validate.warnings v)) =? 0) = true) as Hsome.
  { destruct (Validate.warnings v); [discriminate Hwarn | reflexivity]. }
  unfold Server.contract_headers. rewrite Hsome.
  match goal with
  | |- context [Server.set_headers ?hs] =>
      replace hs with
        (([("Content-Type", Server.Text "application/wasm");
           ("X-Input-Hash",
            Server.Text (Store.hash (list_byte_of_string source)));
           ("X-Output-Hash", Server.Text (Store.hash wasm));
           ("X-Contract-Valid",
            Server.Text (if Validate.valid v then "true" else "false"))]
            ++ (if negb (Validate.valid v)
                then [("X-Contract-Errors",
                       Server.JsonArray (Validate.errors v))]
                else []))
           ++ ("X-Contract-Warnings", Server.JsonArray (Validate.warnings v))
              :: [])%list
        by (by destruct (negb (Validate.valid v)))
  end.
  rewrite (HeaderFacts.set_headers_refused _
             ("X-Contract-Warnings", Server.JsonArray (Validate.warnings v)) []
             (HeaderFacts.first_headers_ok source wasm v Herr) Hwarn).
  cbn [fst]. unfold Server.compile_catch.
  rewrite StoreFacts.recordEvent_Ok;
    [|by apply StoreFacts.references_key | reflexivity | reflexivity].
  cbn [fst snd]. split; [by eexists|]. split.
  { destruct Hout as [b Hb]. exists (Store.data b). unfold Store.getBlob.
    cbn [Store.add_event Store.blobs]. by rewrite Hb. }
  eexists _, _. split.
  { cbn [Store.add_event Store.events]. unfold s2, s1.
    rewrite !StoreFacts.putBlob_events. by rewrite <- app_assoc. }
  cbn [Store.event_row Server.compile_ok Server.compile_failed Store.type
       Store.success Store.output_hash Store.error Store.f_type Store.f_success
       Store.f_outputHash Store.f_error].
  split; [reflexivity|]. split; [reflexivity|].
  split; [apply StoreFacts.str_or_null_hash|].
  split; [reflexivity|]. split; [reflexivity|]. split; reflexivity.
Qed.

(** When the output file the toolchain leaves makes the validator throw,
    the compile is answered with a 400 ["Compilation failed"] and recorded
    with [success = 0], although the module has been stored. *)
Example post_compile_validator_exception :
  (Server.post_compile (builds odd_type_module) clock_12ms "assemblyscript"
     "export function run(): void {}" Store.empty).1
  = Ok (Server.json 400 [("error", "Compilation failed");
                         ("stderr", "Unexpected type tag: 0x61");
                         ("stdout", "")])
  /\ map (fun e => (Store.type e, Store.success e, Store.output_hash e, Store.error e))
       (Store.events
          (Server.post_compile (builds odd_type_module) clock_12ms "assemblyscript"
             "export function run(): void {}" Store.empty).2)
     = [("compile", 0, None, Some "Unexpected type tag: 0x61")]
  /\ Store.getBlob (Store.hash odd_type_module)
       (Server.post_compile (builds odd_type_module) clock_12ms "assemblyscript"
          "export function run(): void {}" Store.empty).2
     = Some odd_type_module.
Proof. split; [|split]; vm_compute; reflexivity. Qed.

(** C8. A compile whose toolchain succeeds is answered with a 400 when the
    module exports a function under a name with a character outside
    Latin-1. The module of [greeting_source] satisfies the contract and
    exports one more function, named in two Chinese characters; the
    validator warns of it; the successful compile event is recorded; then
    Node refuses the warning as the value of [X-Contract-Warnings], and the
    [catch] block answers 400 ["Compilation failed"] with the message of
    that error and records a second compile event, with [success = 0]. The
    module is not sent, although it has been stored. *)
Theorem post_compile_header_exception :
  let out :=
    Server.post_compile (builds greeting_module) clock_12ms "assemblyscript"
      greeting_source Store.empty in
  verdict_of greeting_module = Some (true, [])
  /\ match Validate.validate greeting_module with
     | Ok v => Validate.warnings v
     | Throw _ => []
     end
     = ["Extra export: " ++ greeting]
  /\ out.1
     = Ok {| Server.status := 400;
             Server.headers :=
               [("Content-Type", Server.Text "application/wasm; charset=utf-8");
                ("X-Input-Hash",
                 Server.Text (Store.hash (list_byte_of_string greeting_source)));
                ("X-Output-Hash", Server.Text (Store.hash greeting_module));
                ("X-Contract-Valid", Server.Text "true")];
             Server.content :=
               Server.Json
                 [("error", "Compilation failed");
                  ("stderr",
                   Js.message (Server.invalid_char "X-Contract-Warnings"));
                  ("stdout", "")] |}
  /\ map (fun e => (Store.type e, Store.success e, Store.output_hash e,
                    Store.duration_ms e, Store.error e))
       (Store.events out.2)
     = [("compile", 1, Some (Store.hash greeting_module), Some 12, None);
        ("compile", 0, None, Some 13,
         Some (Js.message (Server.invalid_char "X-Contract-Warnings")))]
  /\ Store.getBlob (Store.hash greeting_module) out.2 = Some greeting_module.
Proof.
  cbv zeta. split; [|split; [|split; [|split]]]; vm_compute; reflexivity.
Qed.

(** The languages [toString], [constructor] and [__proto__] pass the
    check of the language, with what the values found under them give
    when they are called: the first two are answered 200 with a text that
    is no module, the last one 400; a name that is not found is answered
    400 before anything is stored. *)
Example post_compile_inherited_names :
  let seen (out : result Server.response * Store.db) :=
    (match out.1 with
     | Ok resp => Some (Server.status resp, Server.content resp)
     | Throw _ => None
     end,
     map (fun e => (Store.language e, Store.success e, Store.output_size e))
       (Store.events out.2)) in
  seen (Server.post_compile (fun _ _ => Server.Str "[object Undefined]")
          clock_12ms "toString" "pub fn" Store.empty)
  = (Some (200, Server.Chars "[object Undefined]"),
     [(Some "toString", 1, Some 18)])
  /\ seen (Server.post_compile (fun _ source => Server.StrObject source)
             clock_12ms "constructor" greeting Store.empty)
     = (Some (200, Server.JsonText greeting), [(Some "constructor", 1, Some 2)])
  /\ seen (Server.post_compile
             (fun _ _ => Server.Failed "compiler is not a function" None None)
             clock_12ms "__proto__" "pub fn" Store.empty)
     = (Some (400, Server.Json [("error", "Compilation failed");
                                ("stderr", "compiler is not a function");
                                ("stdout", "")]),
        [(Some "__proto__", 0, None)])
  /\ seen (Server.post_compile (builds conformant_module) clock_12ms "rust"
             "pub fn" Store.empty)
     = (Some (400, Server.Json
                     [("error", "Unknown language: rust. Supported: "
                                ++ "assemblyscript, tinygo, zig")]),
        []).
Proof. cbv zeta. split; [|split; [|split]]; vm_compute; reflexivity. Qed.

(** * Further properties *)

(** ** Names *)

Module Utf8Facts.

Lemma byte_of_val (b : byte) : byte_of (byte_val b) = b.
Proof. by destruct b. Qed.

(** Bytes below 128 decode to the string that they are. *)
Lemma toString_ascii (bs : list byte) :
  Forall (fun b => byte_val b < 128) bs ->
  Utf8.toString bs = string_of_list_byte bs.
Proof.
  intros H. unfold Utf8.toString. f_equal.
  rewrite (HeaderFacts.decode_ascii bs H).
  induction H as [|b bs Hb _ IH]; [reflexivity|].
  cbn [map Utf8.encode flat_map]. fold (Utf8.encode (map byte_val bs)).
  rewrite IH. unfold Utf8.encode_one.
  destruct (Z.ltb_spec (byte_val b) 128); [|lia].
  by rewrite byte_of_val.
Qed.

(** The names of the contract are read as they are written. *)
Example toString_known_names :
  map (fun s => Utf8.toString (list_byte_of_string s)) Validate.knownExports
  = Validate.knownExports.
Proof. vm_compute. reflexivity. Qed.

End Utf8Facts.

(** ** The readers of the validator *)

Module ReaderFacts.

Lemma byte_val_range (b : byte) : 0 <= byte_val b < 256.
Proof. destruct b; vm_compute; split; congruence. Qed.

Lemma byte_val_byte_of (z : Z) : byte_val (byte_of z) = z mod 256.
Proof.
  unfold byte_val, byte_of.
  assert (0 <= z mod 256 < 256) as Hz by (apply Z.mod_pos_bound; lia).
  destruct (Byte.of_N (Z.to_N (z mod 256))) as [b|] eqn:E.
  - apply Byte.to_of_N in E. rewrite E. lia.
  - apply Byte.of_N_None_iff in E. lia.
Qed.

Lemma band_low7 (b : byte) : Js.band (byte_val b) 0x7f = byte_val b mod 128.
Proof. destruct b; vm_compute; reflexivity. Qed.

Lemma band_high_bit (b : byte) :
  (Js.band (byte_val b) 0x80 =? 0) = (byte_val b <? 128).
Proof. destruct b; vm_compute; reflexivity. Qed.

Lemma ToUint32_ToInt32 (x : Z) : Js.ToUint32 (Js.ToInt32 x) = Js.ToUint32 x.
Proof.
  unfold Js.ToUint32, Js.ToInt32.
  rewrite Zminus_mod, Zmod_mod, <- Zminus_mod. f_equal. lia.
Qed.

Lemma ToUint32_small (x : Z) : 0 <= x < 2 ^ 32 -> Js.ToUint32 x = x.
Proof. intros H. unfold Js.ToUint32. by rewrite Z.mod_small. Qed.

Lemma ToUint32_lor (a b : Z) :
  Js.ToUint32 (Z.lor a b) = Z.lor (Js.ToUint32 a) (Js.ToUint32 b).
Proof.
  unfold Js.ToUint32. rewrite <- !Z.land_ones by lia. apply Z.land_lor_distr_l.
Qed.

Lemma ToInt32_small (x : Z) : 0 <= x < 2 ^ 31 -> Js.ToInt32 x = x.
Proof. intros H. unfold Js.ToInt32. rewrite Z.mod_small by lia. lia. Qed.

Lemma lor_disjoint (acc d shift : Z) :
  0 <= shift -> 0 <= acc < 2 ^ shift -> 0 <= d ->
  Z.lor acc (d * 2 ^ shift) = acc + d * 2 ^ shift.
Proof.
  intros Hs Hacc Hd. symmetry. apply Z.add_nocarry_lor.
  apply Z.bits_inj'. intros n Hn. rewrite Z.land_spec, Z.bits_0.
  destruct (Z.lt_ge_cases n shift) as [Hlt|Hge].
  - rewrite (Z.mul_pow2_bits_low d shift n) by lia. apply andb_false_r.
  - replace acc with (acc mod 2 ^ shift) by (apply Z.mod_small; lia).
    rewrite Z.mod_pow2_bits_high by lia. reflexivity.
Qed.

(** One turn of the loop of [leb128] on a byte, read on unsigned values. *)
Lemma leb128_step (result shift : Z) (b : byte) :
  0 <= shift <= 28 ->
  Js.ToUint32 result < 2 ^ shift ->
  (byte_val b mod 128) * 2 ^ shift < 2 ^ 32 ->
  Js.ToUint32 (Js.bor result (Js.shl (Js.band (byte_val b) 0x7f) shift))
  = Js.ToUint32 result + (byte_val b mod 128) * 2 ^ shift.
Proof.
  intros Hs Hacc Hd. rewrite band_low7.
  set (d := byte_val b mod 128) in *.
  assert (0 <= d < 128) as Hdr by (apply Z.mod_pos_bound; lia).
  assert (0 <= Js.ToUint32 result)
    by (unfold Js.ToUint32; apply Z.mod_pos_bound; lia).
  assert (0 < 2 ^ shift) by (apply Z.pow_pos_nonneg; lia).
  unfold Js.bor, Js.shl.
  rewrite ToUint32_ToInt32, ToUint32_lor, !ToUint32_ToInt32.
  rewrite (ToInt32_small d) by lia.
  rewrite (ToUint32_small shift) by lia.
  replace (Z.land shift 31) with shift.
  2: { change 31 with (Z.ones 5). rewrite Z.land_ones by lia.
       symmetry. apply Z.mod_small. lia. }
  rewrite Z.shiftl_mul_pow2 by lia.
  rewrite (ToUint32_small (d * 2 ^ shift)) by nia.
  apply lor_disjoint; lia.
Qed.

Lemma leb128_last_byte (n : Z) (tail : list byte) (result shift read : Z) :
  0 <= n < 128 -> 0 <= shift <= 28 -> n * 2 ^ shift < 2 ^ 32 ->
  Js.ToUint32 result < 2 ^ shift ->
  let r := Validate.leb128_loop (byte_of n :: tail) result shift read in
  Js.ToUint32 r.1 = Js.ToUint32 result + n * 2 ^ shift /\ r.2 = read + 1.
Proof.
  intros Hn Hs Hbits Hacc.
  assert (byte_val (byte_of n) = n) as Hb
      by (rewrite byte_val_byte_of; apply Z.mod_small; lia).
  cbn [Validate.leb128_loop]. rewrite band_high_bit.
  destruct (byte_val (byte_of n) <? 128) eqn:E.
  - cbn [fst snd]. split; [|reflexivity].
    rewrite leb128_step.
    + rewrite Hb, (Z.mod_small n 128) by lia. reflexivity.
    + lia.
    + exact Hacc.
    + rewrite Hb, (Z.mod_small n 128) by lia. exact Hbits.
  - apply Z.ltb_ge in E. lia.
Qed.

Lemma leb128_loop_uleb (groups : nat) :
  forall n tail result shift read,
    0 <= n < 2 ^ (7 * Z.of_nat (S groups)) ->
    0 <= shift -> shift + 7 * Z.of_nat (S groups) <= 35 ->
    n * 2 ^ shift < 2 ^ 32 ->
    Js.ToUint32 result < 2 ^ shift ->
    let r := Validate.leb128_loop (Encode.uleb128_loop (S groups) n ++ tail)
               result shift read in
    Js.ToUint32 r.1 = Js.ToUint32 result + n * 2 ^ shift
    /\ r.2 = read + Z.of_nat (length (Encode.uleb128_loop (S groups) n)).
Proof.
  induction groups as [|groups IH]; intros n tail result shift read Hn Hs Hg Hbits Hacc.
  - change (2 ^ (7 * Z.of_nat 1)) with 128 in Hn.
    cbn [Encode.uleb128_loop].
    replace (n <? 128) with true by (symmetry; apply Z.ltb_lt; lia).
    cbn [app length]. apply leb128_last_byte; lia.
  - remember (S groups) as g eqn:Hg'.
    cbn [Encode.uleb128_loop].
    destruct (n <? 128) eqn:Hsmall.
    + apply Z.ltb_lt in Hsmall. cbn [app length]. apply leb128_last_byte; lia.
    + apply Z.ltb_ge in Hsmall.
      assert (0 <= n mod 128 < 128) as Hd by (apply Z.mod_pos_bound; lia).
      assert (0 < 2 ^ shift) by (apply Z.pow_pos_nonneg; lia).
      assert (n = 128 * (n / 128) + n mod 128) as Hdiv by (apply Z.div_mod; lia).
      assert (0 <= n / 128) by (apply Z.div_pos; lia).
      assert (byte_val (byte_of (n mod 128 + 128)) = n mod 128 + 128) as Hb
          by (rewrite byte_val_byte_of; apply Z.mod_small; lia).
      assert ((n mod 128 + 128) mod 128 = n mod 128) as Hlow.
      { replace (n mod 128 + 128) with (n mod 128 + 1 * 128) by lia.
        rewrite Z.mod_add by lia. apply Z.mod_small. lia. }
      assert (2 ^ (shift + 7) = 128 * 2 ^ shift) as Hpow.
      { rewrite Z.pow_add_r by lia. change (2 ^ 7) with 128. lia. }
      assert (0 <= Js.ToUint32 result)
        by (unfold Js.ToUint32; apply Z.mod_pos_bound; lia).
      cbn [app Validate.leb128_loop length]. rewrite band_high_bit.
      destruct (byte_val (byte_of (n mod 128 + 128)) <? 128) eqn:E;
        [apply Z.ltb_lt in E; lia|].
      set (result' := Js.bor result
                        (Js.shl (Js.band (byte_val (byte_of (n mod 128 + 128))) 127)
                           shift)).
      assert (Js.ToUint32 result' = Js.ToUint32 result + n mod 128 * 2 ^ shift)
        as Hres.
      { unfold result'. rewrite leb128_step; rewrite ?Hb, ?Hlow; (lia || nia). }
      specialize (IH (n / 128) tail result' (shift + 7) (read + 1)).
      subst g.
      destruct IH as [IH1 IH2].
      * split; [lia|].
        replace (7 * Z.of_nat (S (S groups))) with (7 + 7 * Z.of_nat (S groups)) in Hn by lia.
        rewrite Z.pow_add_r in Hn by lia. change (2 ^ 7) with 128 in Hn.
        apply Z.div_lt_upper_bound; lia.
      * lia.
      * lia.
      * rewrite Hpow. nia.
      * rewrite Hres, Hpow. nia.
      * cbn zeta in IH1, IH2. split.
        -- rewrite IH1, Hres, Hpow. nia.
        -- rewrite IH2. lia.
Qed.

Lemma reads_ret {A} (a : A) : reads (fun _ => Validate.ret a) [] a.
Proof. intros pre tail. unfold Validate.ret. cbn. f_equal. f_equal. lia. Qed.

Lemma reads_bind {A B} (m : list byte -> Validate.Reader A)
    (k : A -> list byte -> Validate.Reader B) bs1 bs2 a b :
  reads m bs1 a -> reads (k a) bs2 b ->
  reads (fun buf => Validate.bind (m buf) (fun x => k x buf)) (bs1 ++ bs2) b.
Proof.
  intros H1 H2 pre tail. unfold Validate.bind.
  rewrite <- (app_assoc bs1 bs2 tail). rewrite H1.
  replace (Z.of_nat (length pre) + Z.of_nat (length bs1))
    with (Z.of_nat (length (pre ++ bs1))) by (rewrite length_app; lia).
  rewrite (app_assoc pre bs1 (bs2 ++ tail)). rewrite H2.
  rewrite !length_app. f_equal. f_equal. lia.
Qed.

Lemma reads_bind_ret {A B} (m : list byte -> Validate.Reader A) (f : A -> B) bs a :
  reads m bs a ->
  reads (fun buf => Validate.bind (m buf) (fun x => Validate.ret (f x))) bs (f a).
Proof.
  intros H. rewrite <- (app_nil_r bs).
  apply (reads_bind m (fun x _ => Validate.ret (f x)) bs [] a (f a) H).
  apply reads_ret.
Qed.

Lemma reads_byte (b : byte) : reads Validate.byte [b] (Some b).
Proof.
  intros pre tail. unfold Validate.byte, Validate.at_index, Validate.buf_length.
  rewrite !length_app. cbn [length app].
  replace (_ && _) with true by (symmetry; apply andb_true_iff; split; [apply Z.leb_le | apply Z.ltb_lt]; lia).
  rewrite Nat2Z.id, list_lookup_middle by reflexivity. reflexivity.
Qed.

Lemma uleb128_length (n : Z) : (1 <= length (Encode.uleb128 n) <= 5)%nat.
Proof.
  unfold Encode.uleb128.
  assert (forall g m, (1 <= length (Encode.uleb128_loop (S g) m) <= S g)%nat) as H.
  { induction g as [|g IH]; intros m.
    - cbn [Encode.uleb128_loop]. destruct (m <? 128); cbn; lia.
    - change (Encode.uleb128_loop (S (S g)) m)
        with (if m <? 128 then [byte_of m]
              else byte_of (m mod 128 + 128) :: Encode.uleb128_loop (S g) (m / 128)).
      destruct (m <? 128); [cbn; lia|]. specialize (IH (m / 128)).
      cbn [length]. lia. }
  exact (H 4%nat n).
Qed.

Lemma reads_u32 (n : Z) : Encode.is_u32 n -> reads Validate.u32 (Encode.uleb128 n) n.
Proof.
  unfold Encode.is_u32. intros Hn pre tail. unfold Validate.u32, Validate.leb128, Validate.rest,
    Validate.buf_length.
  pose proof (uleb128_length n) as Hlen.
  rewrite !length_app.
  replace (_ && _) with true by (symmetry; apply andb_true_iff; split; [apply Z.leb_le | apply Z.ltb_lt]; lia).
  rewrite Nat2Z.id, drop_app_length.
  assert (0 <= n < 2 ^ (7 * Z.of_nat 5)) as Hn' by (change (2 ^ (7 * Z.of_nat 5)) with (2 ^ 35); lia).
  assert (0 + 7 * Z.of_nat 5 <= 35) as H35 by (cbn; lia).
  assert (n * 2 ^ 0 < 2 ^ 32) as Hn0 by lia.
  assert (Js.ToUint32 0 < 2 ^ 0) as H0 by (vm_compute; reflexivity).
  pose proof (leb128_loop_uleb 4 n tail 0 0 0 Hn' (Z.le_refl 0) H35 Hn0 H0) as H.
  cbv zeta in H. destruct H as [H1 H2].
  fold (Encode.uleb128 n) in H1, H2.
  destruct (Validate.leb128_loop (Encode.uleb128 n ++ tail) 0 0 0) as [r k].
  cbn [fst snd] in H1, H2. unfold Js.ushr0. rewrite H1, H2.
  change (Js.ToUint32 0) with 0. change (2 ^ 0) with 1.
  f_equal. f_equal; lia.
Qed.

Lemma reads_bytes (bs : list byte) :
  reads (fun buf => Validate.bytes buf (Encode.size bs)) bs bs.
Proof.
  intros pre tail. unfold Validate.bytes, Encode.size.
  rewrite slice_from by lia.
  rewrite !Nat2Z.id, drop_app_length, take_app_length. reflexivity.
Qed.

Lemma size_is_u32 {A} (l : list A) : Encode.short l -> Encode.is_u32 (Encode.size l).
Proof. unfold Encode.short, Encode.is_u32, Encode.size. lia. Qed.

Lemma reads_name (s : string) :
  Encode.short_name s ->
  reads Validate.name (Encode.name s) (Utf8.toString (list_byte_of_string s)).
Proof.
  intros Hs. unfold Validate.name, Encode.name.
  apply (reads_bind Validate.u32 _ _ _ (Encode.size (list_byte_of_string s)));
    [apply reads_u32, size_is_u32, Hs|].
  apply (reads_bind_ret (fun buf => Validate.bytes buf _) Utf8.toString).
  apply reads_bytes.
Qed.

Lemma reads_push_loop {A} (m : list byte -> Validate.Reader A)
    (bss : list (list byte)) (l : list A) :
  Forall2 (reads m) bss l ->
  reads (fun buf => Validate.push_loop (length l) (m buf)) (concat bss) l.
Proof.
  induction 1 as [|bs a bss l Hhd Htl IH].
  - apply reads_ret.
  - cbn [length Validate.push_loop concat].
    apply (reads_bind m _ _ _ a); [exact Hhd|].
    apply (reads_bind_ret (fun buf => Validate.push_loop (length l) (m buf)) (cons a)).
    exact IH.
Qed.

(** A reader that reads [bs] as [a], run from the start of [bs], gives
    [a]. *)
Lemma reads_run {A} (m : list byte -> Validate.Reader A) (bs : list byte) (a : A) :
  reads m bs a -> Validate.run (m bs) = Ok a.
Proof.
  intros H. specialize (H [] []). cbn [app length] in H. rewrite app_nil_r in H.
  change (Z.of_nat 0) with 0 in H. unfold Validate.run. by rewrite H.
Qed.

Lemma Forall_reads {A B} (m : list byte -> Validate.Reader B)
    (enc : A -> list byte) (f : A -> B) (l : list A) :
  Forall (fun a => reads m (enc a) (f a)) l ->
  Forall2 (reads m) (map enc l) (f <$> l).
Proof. induction 1; constructor; assumption. Qed.

Lemma reads_vec_bind {A B C} (m : list byte -> Validate.Reader B)
    (k : list B -> list byte -> Validate.Reader C)
    (enc : A -> list byte) (f : A -> B) (l : list A) bs c :
  Encode.short l ->
  Forall (fun a => reads m (enc a) (f a)) l ->
  reads (k (f <$> l)) bs c ->
  reads (fun buf =>
           Validate.bind (Validate.u32 buf) (fun count =>
           Validate.bind (Validate.push_loop (Z.to_nat count) (m buf)) (fun l =>
           k l buf)))
    (Encode.vec enc l ++ bs) c.
Proof.
  intros Hl H Hk. unfold Encode.vec. rewrite <- app_assoc.
  apply (reads_bind Validate.u32
           (fun count buf =>
              Validate.bind (Validate.push_loop (Z.to_nat count) (m buf))
                (fun l => k l buf)) _ _ (Encode.size l));
    [apply reads_u32, size_is_u32, Hl|].
  unfold Encode.size. rewrite Nat2Z.id.
  replace (length l) with (length (f <$> l)) by apply length_fmap.
  apply (reads_bind (fun buf => Validate.push_loop (length (f <$> l)) (m buf)) k
           _ _ (f <$> l)); [|exact Hk].
  apply reads_push_loop, Forall_reads, H.
Qed.

Lemma reads_vec {A B} (m : list byte -> Validate.Reader B)
    (enc : A -> list byte) (f : A -> B) (l : list A) :
  Encode.short l ->
  Forall (fun a => reads m (enc a) (f a)) l ->
  reads (fun buf =>
           Validate.bind (Validate.u32 buf) (fun count =>
           Validate.push_loop (Z.to_nat count) (m buf)))
    (Encode.vec enc l) (f <$> l).
Proof.
  intros Hl H. unfold Encode.vec.
  apply (reads_bind Validate.u32
           (fun count buf => Validate.push_loop (Z.to_nat count) (m buf))
           _ _ (Encode.size l));
    [apply reads_u32, size_is_u32, Hl|].
  unfold Encode.size. rewrite Nat2Z.id.
  replace (length l) with (length (f <$> l)) by apply length_fmap.
  apply reads_push_loop, Forall_reads, H.
Qed.

Lemma reads_valtypes (l : list byte) :
  Forall (fun v => reads Validate.byte [v] (Some v)) l.
Proof. induction l; constructor; [apply reads_byte | assumption]. Qed.

Lemma reads_export (e : string * byte * Z) :
  Encode.short_name e.1.1 -> Encode.is_u32 e.2 ->
  reads Validate.read_export (Encode.export e) (Encode.read_export e).
Proof.
  intros Hn Hi. unfold Validate.read_export, Encode.export.
  eapply reads_bind; [apply reads_name, Hn|]. cbv beta.
  eapply reads_bind; [apply reads_byte|]. cbv beta.
  apply (reads_bind_ret Validate.u32
           (fun index => {| Validate.ExportEntry.name :=
                              Utf8.toString (list_byte_of_string e.1.1);
                            Validate.ExportEntry.kind := Some e.1.2;
                            Validate.ExportEntry.index := index |})).
  apply reads_u32, Hi.
Qed.

Lemma reads_functype (t : list byte * list byte) :
  Encode.short t.1 -> Encode.short t.2 ->
  reads Validate.read_type (Encode.functype t) (Encode.read_functype t).
Proof.
  intros Hp Hr. unfold Validate.read_type, Encode.functype.
  eapply reads_bind; [apply reads_byte|]. cbv beta iota.
  change (negb (byte_val x60 =? Validate.FUNC_TYPE_TAG)) with false. cbv iota.
  apply (reads_vec_bind Validate.byte _ (fun v => [v]) Some t.1); [exact Hp|apply reads_valtypes|].
  rewrite <- (app_nil_r (Encode.vec _ t.2)).
  apply (reads_vec_bind Validate.byte _ (fun v => [v]) Some t.2); [exact Hr|apply reads_valtypes|].
  apply reads_ret.
Qed.

Lemma reads_import (i : string * string * Encode.importdesc) (n : Z) :
  Encode.short_name i.1.1 -> Encode.short_name i.1.2 ->
  match i.2 with
  | Encode.ImportFunc typeidx => Encode.is_u32 typeidx
  | Encode.ImportGlobal _ _ => True
  | Encode.ImportTable _ _ _ | Encode.ImportMemory _ _ => False
  end ->
  reads (fun buf => Validate.read_import buf n) (Encode.import i)
    (if Encode.is_func i then n + 1 else n).
Proof.
  intros H1 H2 Hd. unfold Validate.read_import, Encode.import, Encode.is_func.
  eapply reads_bind; [apply reads_name, H1|]. cbv beta.
  eapply reads_bind; [apply reads_name, H2|]. cbv beta.
  destruct i.2 as [typeidx|reftype min max|min max|valtype mut];
    [|destruct Hd|destruct Hd|].
  - eapply reads_bind; [apply reads_byte|]. cbv beta.
    change (Validate.is_num (Some x00) 0) with true. cbv iota.
    apply (reads_bind_ret Validate.u32 (fun _ => n + 1) _ typeidx), reads_u32, Hd.
  - change [x03; valtype; mut] with ([x03] ++ [valtype] ++ [mut])%list.
    eapply reads_bind; [apply reads_byte|]. cbv beta.
    change (Validate.is_num (Some x03) 0) with false.
    change (Validate.is_num (Some x03) 1) with false.
    change (Validate.is_num (Some x03) 2) with false.
    change (Validate.is_num (Some x03) 3) with true. cbv iota.
    eapply reads_bind; [apply reads_byte|]. cbv beta.
    apply (reads_bind_ret Validate.byte (fun _ => n) _ (Some mut)), reads_byte.
Qed.

Lemma reads_imports_loop (l : list (string * string * Encode.importdesc)) :
  Forall Encode.import_ok l ->
  forall n,
    reads (fun buf => Validate.imports_loop buf (length l) n)
      (concat (map Encode.import l)) (n + Encode.func_imports l).
Proof.
  unfold Encode.func_imports.
  induction 1 as [|i l (H1 & H2 & H3) Hl IH]; intros n.
  - cbn. rewrite Z.add_0_r. apply reads_ret.
  - cbn [length map concat Validate.imports_loop List.filter].
    eapply reads_bind; [apply reads_import; assumption|]. cbv beta.
    destruct (Encode.is_func i) eqn:E.
    + cbn [length].
      replace (n + Z.of_nat (S (length (List.filter Encode.is_func l))))
        with (n + 1 + Z.of_nat (length (List.filter Encode.is_func l))) by lia.
      apply IH.
    + apply IH.
Qed.

Lemma reads_section (sec : byte * list byte) :
  Encode.short sec.2 ->
  reads Validate.read_section (Encode.section sec) (byte_val sec.1, sec.2).
Proof.
  intros Hs. unfold Validate.read_section, Encode.section.
  eapply reads_bind; [apply reads_byte|]. cbv beta.
  eapply reads_bind; [apply reads_u32, size_is_u32, Hs|]. cbv beta.
  apply (reads_bind_ret (fun buf => Validate.bytes buf (Encode.size sec.2))
           (fun payload => (Validate.section_id (Some sec.1), payload))).
  apply reads_bytes.
Qed.

(** One turn of the loop of [parseSections]. *)
Lemma sections_loop_clause_2_eq buf sections pos
    (refine : {y | Validate.read_section buf pos = y}) Hlt rec :
  (forall a1 a2 b0 H, rec a1 a2 b0 H = Validate.sections_loop a1 a2 b0) ->
  Validate.sections_loop_clause_1_clause_2 buf sections pos refine Hlt rec
  = match proj1_sig refine with
    | Ok section =>
        Validate.sections_loop buf (<[section.1.1 := section.1.2]> sections) section.2
    | Throw e => Throw e
    end.
Proof.
  intros Hrec. destruct refine as [[a|e0] e]; cbn; [apply Hrec | reflexivity].
Qed.

Lemma sections_loop_clause_1_eq buf sections pos
    (refine : {y | (pos <? Validate.buf_length buf) = y}) rec :
  (forall a1 a2 b0 H, rec a1 a2 b0 H = Validate.sections_loop a1 a2 b0) ->
  Validate.sections_loop_clause_1 buf sections pos refine rec
  = if proj1_sig refine
    then match Validate.read_section buf pos with
         | Ok section =>
             Validate.sections_loop buf (<[section.1.1 := section.1.2]> sections)
               section.2
         | Throw e => Throw e
         end
    else Ok sections.
Proof.
  intros Hrec. destruct refine as [[|] e];
    unfold Validate.sections_loop_clause_1; cbv beta iota; cbn [proj1_sig];
    [|reflexivity].
  by rewrite sections_loop_clause_2_eq.
Qed.

Lemma sections_loop_clause_2_ext buf sections pos
    (refine : {y | Validate.read_section buf pos = y}) Hlt rec1 rec2 :
  (forall a1 a2 b0 H, rec1 a1 a2 b0 H = rec2 a1 a2 b0 H) ->
  Validate.sections_loop_clause_1_clause_2 buf sections pos refine Hlt rec1
  = Validate.sections_loop_clause_1_clause_2 buf sections pos refine Hlt rec2.
Proof.
  intros Hrec. destruct refine as [[a|e0] e];
    unfold Validate.sections_loop_clause_1_clause_2; cbv beta iota;
    [apply Hrec | reflexivity].
Qed.

Lemma sections_loop_clause_1_ext buf sections pos
    (refine : {y | (pos <? Validate.buf_length buf) = y}) rec1 rec2 :
  (forall a1 a2 b0 H, rec1 a1 a2 b0 H = rec2 a1 a2 b0 H) ->
  Validate.sections_loop_clause_1 buf sections pos refine rec1
  = Validate.sections_loop_clause_1 buf sections pos refine rec2.
Proof.
  intros Hrec. destruct refine as [[|] e];
    unfold Validate.sections_loop_clause_1; cbv beta iota;
    [by apply sections_loop_clause_2_ext | reflexivity].
Qed.

Lemma sections_loop_unfold buf sections pos :
  Validate.sections_loop buf sections pos
  = if pos <? Validate.buf_length buf
    then match Validate.read_section buf pos with
         | Ok section =>
             Validate.sections_loop buf (<[section.1.1 := section.1.2]> sections)
               section.2
         | Throw e => Throw e
         end
    else Ok sections.
Proof.
  unfold Validate.sections_loop at 1.
  rewrite Subterm.FixWf_unfold.
  - cbn [pr1 pr2]. unfold Validate.sections_loop_functional.
    rewrite sections_loop_clause_1_eq; [reflexivity|].
    intros a1 a2 b0 H. reflexivity.
  - intros x f g Hfg. unfold Validate.sections_loop_functional.
    apply sections_loop_clause_1_ext. intros a1 a2 b0 H. apply Hfg.
Qed.

Lemma sections_loop_encoded (secs : list (byte * list byte)) :
  Forall (fun sec => Encode.short sec.2) secs ->
  forall pre sections,
    Validate.sections_loop (pre ++ concat (map Encode.section secs)) sections
      (Z.of_nat (length pre))
    = Ok (fold_left (fun o s => <[byte_val s.1 := s.2]> o) secs sections).
Proof.
  induction 1 as [|sec secs Hsec Hsecs IH]; intros pre sections.
  - cbn [map concat fold_left]. rewrite sections_loop_unfold, app_nil_r.
    unfold Validate.buf_length. rewrite Z.ltb_irrefl. reflexivity.
  - cbn [map concat fold_left]. rewrite sections_loop_unfold.
    replace (_ <? _) with true.
    2: { symmetry. apply Z.ltb_lt. unfold Validate.buf_length, Encode.section.
         rewrite !length_app. cbn [length]. lia. }
    rewrite (reads_section sec Hsec pre (concat (map Encode.section secs))).
    cbn [fst snd].
    replace (Z.of_nat (length pre) + Z.of_nat (length (Encode.section sec)))
      with (Z.of_nat (length (pre ++ Encode.section sec)))
      by (rewrite length_app; lia).
    rewrite (app_assoc pre). apply IH.
Qed.

Lemma parseSections_module (version : list byte) (secs : list (byte * list byte)) :
  length version = 4%nat ->
  Forall (fun sec => Encode.short sec.2) secs ->
  Validate.parseSections (Encode.module version secs) = Ok (Encode.sections_of secs).
Proof.
  intros Hv Hsecs.
  destruct version as [|v1 [|v2 [|v3 [|v4 [|]]]]]; try discriminate Hv.
  unfold Validate.parseSections, Validate.run, Validate.bind, Validate.bytes,
    Validate.skip, Encode.module.
  rewrite (slice_from _ 0 4) by lia.
  change (Z.to_nat 4) with 4%nat. change (Z.to_nat 0) with 0%nat.
  cbn [drop take app].
  change (negb (to_hex [x00; x61; x73; x6d] =? "0061736d")%string) with false.
  cbv beta iota.
  pose proof (sections_loop_encoded secs Hsecs
                [x00; x61; x73; x6d; v1; v2; v3; v4] ∅) as H.
  cbn [app length] in H. change (Z.of_nat 8) with (0 + 4 + 4) in H.
  rewrite H. reflexivity.
Qed.

Lemma reads_run_tail {A} (m : list byte -> Validate.Reader A) (bs tail : list byte)
    (a : A) :
  reads m bs a -> Validate.run (m (bs ++ tail)%list) = Ok a.
Proof.
  intros H. specialize (H [] tail). cbn [app length] in H.
  change (Z.of_nat 0) with 0 in H. unfold Validate.run. by rewrite H.
Qed.

Lemma fails_run {A} (m : list byte -> Validate.Reader A) (bs tail : list byte) e :
  fails m bs tail e -> Validate.run (m (bs ++ tail)%list) = Throw e.
Proof.
  intros H. specialize (H []). cbn [app length] in H.
  change (Z.of_nat 0) with 0 in H. unfold Validate.run. by rewrite H.
Qed.

Lemma reads_bind_fails {A B} (m : list byte -> Validate.Reader A)
    (k : A -> list byte -> Validate.Reader B) bs1 bs2 tail a e :
  reads m bs1 a -> fails (k a) bs2 tail e ->
  fails (fun buf => Validate.bind (m buf) (fun x => k x buf)) (bs1 ++ bs2) tail e.
Proof.
  intros H1 H2 pre. unfold Validate.bind.
  rewrite <- (app_assoc bs1 bs2 tail). rewrite H1.
  replace (Z.of_nat (length pre) + Z.of_nat (length bs1))
    with (Z.of_nat (length (pre ++ bs1))) by (rewrite length_app; lia).
  rewrite (app_assoc pre bs1 (bs2 ++ tail)). apply H2.
Qed.

Lemma fails_bind {A B} (m : list byte -> Validate.Reader A)
    (k : A -> list byte -> Validate.Reader B) bs tail e :
  fails m bs tail e ->
  fails (fun buf => Validate.bind (m buf) (fun x => k x buf)) bs tail e.
Proof. intros H pre. unfold Validate.bind. by rewrite H. Qed.

Lemma fails_push_loop {A} (m : list byte -> Validate.Reader A)
    (bss : list (list byte)) (l : list A) (more : nat) bs tail e :
  Forall2 (reads m) bss l -> fails m bs tail e ->
  fails (fun buf => Validate.push_loop (length l + S more) (m buf))
    (concat bss ++ bs) tail e.
Proof.
  intros H He. induction H as [|b a bss l Hhd Htl IH].
  - cbn [length concat app Init.Nat.add Validate.push_loop].
    apply (fails_bind m), He.
  - cbn [length concat Init.Nat.add Validate.push_loop]. rewrite <- app_assoc.
    apply (reads_bind_fails m
             (fun a buf =>
                Validate.bind (Validate.push_loop (length l + S more) (m buf))
                  (fun l => Validate.ret (a :: l))) _ _ _ a); [exact Hhd|].
    apply (fails_bind (fun buf => Validate.push_loop (length l + S more) (m buf))).
    exact IH.
Qed.

(** A position at or past the end of the buffer holds no byte. *)
Lemma at_index_end (pre : list byte) :
  Validate.at_index (pre ++ [] ++ []) (Z.of_nat (length pre)) = None.
Proof.
  unfold Validate.at_index, Validate.buf_length. rewrite !app_nil_r.
  rewrite Z.ltb_irrefl, andb_false_r. reflexivity.
Qed.

Lemma fails_read_type_tag (tag : byte) (tail : list byte) :
  tag <> x60 ->
  fails Validate.read_type [tag] tail
    (Js.Error ("Unexpected type tag: 0x" ++ Js.hex (byte_val tag))).
Proof.
  intros Htag pre. unfold Validate.read_type, Validate.bind.
  rewrite (reads_byte tag pre tail).
  replace (byte_val tag =? Validate.FUNC_TYPE_TAG) with false; [reflexivity|].
  symmetry. apply Z.eqb_neq. intros H. apply Htag.
  apply ValidateFacts.byte_val_inj. exact H.
Qed.

Lemma fails_read_type_end :
  fails Validate.read_type [] [] Validate.undefined_toString.
Proof.
  intros pre. unfold Validate.read_type, Validate.bind, Validate.byte.
  rewrite at_index_end. reflexivity.
Qed.

Lemma fails_parseTypes (count : Z) (ts : list (list byte * list byte)) bs tail e :
  Encode.is_u32 count -> Encode.size ts < count ->
  Forall (fun t => Encode.short t.1 /\ Encode.short t.2) ts ->
  fails Validate.read_type bs tail e ->
  Validate.parseTypes
    (Encode.uleb128 count ++ (concat (map Encode.functype ts) ++ bs) ++ tail)%list
  = Throw e.
Proof.
  intros Hc Hlt Hts He. unfold Validate.parseTypes.
  rewrite (app_assoc (Encode.uleb128 count)).
  apply (fails_run
           (fun buf =>
              Validate.bind (Validate.u32 buf)
                (fun count => Validate.push_loop (Z.to_nat count)
                                (Validate.read_type buf)))).
  apply (reads_bind_fails Validate.u32
           (fun count buf => Validate.push_loop (Z.to_nat count)
                               (Validate.read_type buf)) _ _ _ count);
    [apply reads_u32, Hc|].
  unfold Encode.size in Hlt.
  replace (Z.to_nat count)
    with (length (Encode.read_functype <$> ts)
          + S (Z.to_nat count - length ts - 1))%nat
    by (rewrite length_fmap; lia).
  apply fails_push_loop; [|exact He].
  apply Forall_reads. eapply Forall_impl; [exact Hts|].
  intros t [H1 H2]. apply reads_functype; assumption.
Qed.

Lemma leb128_loop_bounds bs : forall result shift read,
  read < (Validate.leb128_loop bs result shift read).2
       <= read + Z.of_nat (length bs) + 1.
Proof.
  induction bs as [|b bs IH]; intros result shift read;
    cbn [Validate.leb128_loop length].
  - cbn [snd]. lia.
  - destruct (_ =? 0); [cbn [snd]; lia|].
    specialize (IH (Js.bor result (Js.shl (Js.band (byte_val b) 127) shift))
                  (shift + 7) (read + 1)).
    lia.
Qed.

Lemma byte_of_byte_val (b : byte) : byte_of (byte_val b) = b.
Proof. destruct b; reflexivity. Qed.

Lemma uleb128_small (n : Z) : n < 128 -> Encode.uleb128 n = [byte_of n].
Proof.
  intros H. unfold Encode.uleb128. cbn [Encode.uleb128_loop].
  by replace (n <? 128) with true by (symmetry; apply Z.ltb_lt; exact H).
Qed.

Lemma at_index_last (pre bs tail : list byte) :
  bs <> [] ->
  Validate.at_index (pre ++ bs ++ tail)
    (Z.of_nat (length pre) + Z.of_nat (length bs) - 1)
  = last bs.
Proof.
  intros Hbs. destruct (last bs) as [b|] eqn:E.
  2: { apply last_None in E. contradiction. }
  apply last_Some in E. destruct E as [bs' ->].
  unfold Validate.at_index, Validate.buf_length. rewrite !length_app.
  cbn [length].
  replace (_ && _) with true
    by (symmetry; apply andb_true_iff; split;
        [apply Z.leb_le | apply Z.ltb_lt]; lia).
  replace (Z.to_nat (Z.of_nat (length pre) + Z.of_nat (length bs' + 1) - 1))
    with (length (pre ++ bs')) by (rewrite length_app; lia).
  rewrite <- (app_assoc bs'), (app_assoc pre bs'). cbn [app].
  apply list_lookup_middle. reflexivity.
Qed.

Lemma uleb128_nonempty (n : Z) : Encode.uleb128 n <> [].
Proof.
  intros H. pose proof (uleb128_length n) as L. rewrite H in L. cbn in L. lia.
Qed.

(** The end of the memory branch of [read_import]: the minimum, then a
    second number when the byte before the position is 1. *)
Lemma reads_memory_limits (min max n : Z) :
  Encode.is_u32 min -> Encode.is_u32 max ->
  reads (fun buf =>
           Validate.bind (Validate.u32 buf) (fun _ pos =>
             if Validate.is_num (Validate.at_index buf (pos - 1)) 1
             then Validate.bind (Validate.u32 buf) (fun _ => Validate.ret n) pos
             else Validate.ret n pos))
    (Encode.uleb128 min
     ++ (if Validate.is_num (last (Encode.uleb128 min)) 1
         then Encode.uleb128 max else []))
    n.
Proof.
  intros Hmin Hmax pre tail. unfold Validate.bind at 1.
  rewrite <- app_assoc. rewrite (reads_u32 min Hmin pre).
  rewrite at_index_last by apply uleb128_nonempty.
  destruct (Validate.is_num (last (Encode.uleb128 min)) 1).
  - pose proof (reads_bind_ret Validate.u32 (fun _ => n) _ max
                  (reads_u32 max Hmax) (pre ++ Encode.uleb128 min)%list tail) as H.
    cbv beta in H. rewrite <- app_assoc, length_app, Nat2Z.inj_add in H.
    rewrite H, length_app. f_equal. f_equal. lia.
  - unfold Validate.ret. rewrite length_app. cbn [app length].
    f_equal. f_equal. lia.
Qed.

End ReaderFacts.

(** ** The readers of the validator on well-formed and on broken input *)

(** X1. [u32] reads the LEB128 bytes of any number below 2^32 back as that
    number, wherever they stand in the buffer, and stops right after them. *)
Theorem u32_reads_uleb128 (n : Z) (pre tail : list byte) :
  0 <= n < 2 ^ 32 ->
  Validate.u32 (pre ++ Encode.uleb128 n ++ tail) (Z.of_nat (length pre))
  = Ok (n, Z.of_nat (length pre) + Z.of_nat (length (Encode.uleb128 n))).
Proof. intros H. apply ReaderFacts.reads_u32, H. Qed.

Lemma u32_reads_uleb128_witness :
  Validate.u32 ([x07] ++ Encode.uleb128 624485 ++ [x00]) 1 = Ok (624485, 4).
Proof. apply (u32_reads_uleb128 624485 [x07] [x00]). lia. Defined.

(** X2. [u32] never throws: on any buffer and from any position it gives a
    number below 2^32 and moves the position forward, at most one place
    past the end; from the end on it gives 0 and moves by one. *)
Theorem u32_total (buf : list byte) (pos : Z) :
  exists n pos',
    Validate.u32 buf pos = Ok (n, pos')
    /\ 0 <= n < 2 ^ 32
    /\ pos < pos'
    /\ pos' <= Z.max pos (Validate.buf_length buf) + 1
    /\ (Validate.buf_length buf <= pos -> n = 0 /\ pos' = pos + 1).
Proof.
  unfold Validate.u32, Validate.leb128.
  pose proof (ReaderFacts.leb128_loop_bounds (Validate.rest buf pos) 0 0 0) as Hb.
  assert (Z.of_nat (length (Validate.rest buf pos))
          <= Z.max pos (Validate.buf_length buf) - pos) as Hrest.
  { unfold Validate.rest, Validate.buf_length.
    destruct (_ && _) eqn:E; [|cbn [length]; lia].
    apply andb_true_iff in E. destruct E as [E1%Z.leb_le E2%Z.ltb_lt].
    rewrite length_drop. lia. }
  destruct (Validate.leb128_loop (Validate.rest buf pos) 0 0 0) as [r k] eqn:E.
  cbn [snd] in Hb. exists (Js.ushr0 r), (pos + k).
  split; [reflexivity|]. split; [apply Z.mod_pos_bound; lia|].
  split; [lia|]. split; [lia|].
  intros Hend. unfold Validate.rest in E.
  replace (_ && _) with false in E
    by (symmetry; apply andb_false_iff; right; apply Z.ltb_ge; exact Hend).
  cbn in E. injection E as <- <-. split; reflexivity.
Qed.

(** X3. [parseFunctions] reads a vector of type indexes back as the list it
    encodes; bytes after the vector are not looked at. *)
Theorem parseFunctions_round_trip (l : list Z) (tail : list byte) :
  Encode.short l -> Forall Encode.is_u32 l ->
  Validate.parseFunctions (Encode.vec Encode.uleb128 l ++ tail) = Ok l.
Proof.
  intros Hl H. unfold Validate.parseFunctions.
  rewrite <- (list_fmap_id l) at 2.
  apply (ReaderFacts.reads_run_tail
           (fun buf => Validate.bind (Validate.u32 buf) (fun count =>
                       Validate.push_loop (Z.to_nat count) (Validate.u32 buf)))).
  apply ReaderFacts.reads_vec; [exact Hl|].
  eapply Forall_impl; [exact H|]. intros n Hn. apply ReaderFacts.reads_u32, Hn.
Qed.

Lemma parseFunctions_round_trip_witness :
  Validate.parseFunctions (Encode.vec Encode.uleb128 [0; 300; 2] ++ [xff])
  = Ok [0; 300; 2].
Proof.
  apply (parseFunctions_round_trip [0; 300; 2] [xff]).
  - unfold Encode.short, Encode.size. simpl. lia.
  - repeat constructor; unfold Encode.is_u32; lia.
Defined.

(** X4. [parseExports] reads a vector of exports back with the name, the
    kind byte and the index of each, in order. The name is the string that
    its bytes decode to as UTF-8, with U+FFFD where they are none. *)
Theorem parseExports_round_trip (l : list (string * byte * Z)) (tail : list byte) :
  Encode.short l ->
  Forall (fun e => Encode.short_name e.1.1 /\ Encode.is_u32 e.2) l ->
  Validate.parseExports (Encode.vec Encode.export l ++ tail)
  = Ok (Encode.read_export <$> l).
Proof.
  intros Hl H. unfold Validate.parseExports.
  apply (ReaderFacts.reads_run_tail
           (fun buf => Validate.bind (Validate.u32 buf) (fun count =>
                       Validate.push_loop (Z.to_nat count)
                         (Validate.read_export buf)))).
  apply ReaderFacts.reads_vec; [exact Hl|].
  eapply Forall_impl; [exact H|]. intros e [H1 H2].
  apply ReaderFacts.reads_export; assumption.
Qed.

Lemma parseExports_round_trip_witness :
  Validate.parseExports
    (Encode.vec Encode.export
       [("memory", x02, 0); ("run", x00, 0);
        (string_of_list_byte [xff; x61], x00, 1)] ++ [])
  = Ok [{| Validate.ExportEntry.name := "memory";
           Validate.ExportEntry.kind := Some x02;
           Validate.ExportEntry.index := 0 |};
        {| Validate.ExportEntry.name := "run";
           Validate.ExportEntry.kind := Some x00;
           Validate.ExportEntry.index := 0 |};
        {| Validate.ExportEntry.name := string_of_list_byte [xef; xbf; xbd; x61];
           Validate.ExportEntry.kind := Some x00;
           Validate.ExportEntry.index := 1 |}].
Proof.
  apply (parseExports_round_trip
           [("memory", x02, 0); ("run", x00, 0);
            (string_of_list_byte [xff; x61], x00, 1)] []).
  - unfold Encode.short, Encode.size. simpl. lia.
  - repeat constructor;
      unfold Encode.short_name, Encode.short, Encode.size, Encode.is_u32;
      simpl; lia.
Defined.

(** X5. [parseTypes] reads a vector of function types back with the
    parameter and result types of each. *)
Theorem parseTypes_round_trip (l : list (list byte * list byte)) (tail : list byte) :
  Encode.short l ->
  Forall (fun t => Encode.short t.1 /\ Encode.short t.2) l ->
  Validate.parseTypes (Encode.vec Encode.functype l ++ tail)
  = Ok (Encode.read_functype <$> l).
Proof.
  intros Hl H. unfold Validate.parseTypes.
  apply (ReaderFacts.reads_run_tail
           (fun buf => Validate.bind (Validate.u32 buf) (fun count =>
                       Validate.push_loop (Z.to_nat count)
                         (Validate.read_type buf)))).
  apply ReaderFacts.reads_vec; [exact Hl|].
  eapply Forall_impl; [exact H|]. intros t [H1 H2].
  apply ReaderFacts.reads_functype; assumption.
Qed.

Lemma parseTypes_round_trip_witness :
  Validate.parseTypes (Encode.vec Encode.functype [([x7f; x7f; x7f], [x7f])] ++ [])
  = Ok [{| Validate.params := [Some x7f; Some x7f; Some x7f];
           Validate.results := [Some x7f] |}].
Proof.
  apply (parseTypes_round_trip [([x7f; x7f; x7f], [x7f])] []).
  - unfold Encode.short, Encode.size. simpl. lia.
  - repeat constructor; unfold Encode.short, Encode.size; simpl; lia.
Defined.

(** X6. [parseTypes] throws where a type does not start with [0x60]: an
    [Error] that names the tag when there is a byte, the [TypeError] of
    [undefined.toString] when the count promises a type past the end of
    the payload. The types before it do not matter. *)
Theorem parseTypes_throws (count : Z) (ts : list (list byte * list byte)) :
  Encode.is_u32 count -> Encode.size ts < count ->
  Forall (fun t => Encode.short t.1 /\ Encode.short t.2) ts ->
  (forall tag tail,
      tag <> x60 ->
      Validate.parseTypes
        (Encode.uleb128 count ++ concat (map Encode.functype ts) ++ [tag] ++ tail)
      = Throw (Js.Error ("Unexpected type tag: 0x" ++ Js.hex (byte_val tag))))
  /\ Validate.parseTypes (Encode.uleb128 count ++ concat (map Encode.functype ts))
     = Throw Validate.undefined_toString.
Proof.
  intros Hc Hlt Hts. split.
  - intros tag tail Htag.
    pose proof (ReaderFacts.fails_parseTypes count ts [tag] tail _ Hc Hlt Hts
                  (ReaderFacts.fails_read_type_tag tag tail Htag)) as H.
    rewrite <- app_assoc in H. exact H.
  - pose proof (ReaderFacts.fails_parseTypes count ts [] [] _ Hc Hlt Hts
                  ReaderFacts.fails_read_type_end) as H.
    rewrite !app_nil_r in H. exact H.
Qed.

Lemma parseTypes_throws_witness :
  Validate.parseTypes
    (Encode.uleb128 2 ++ concat (map Encode.functype [([x7f], [])]) ++ [x61] ++ [])
  = Throw (Js.Error "Unexpected type tag: 0x61")
  /\ Validate.parseTypes
       (Encode.uleb128 2 ++ concat (map Encode.functype [([x7f], [])]))
     = Throw Validate.undefined_toString.
Proof.
  assert (Encode.is_u32 2) as H1 by (unfold Encode.is_u32; lia).
  assert (Encode.size [([x7f], @nil byte)] < 2) as H2
      by (unfold Encode.size; simpl; lia).
  assert (Forall (fun t : list byte * list byte =>
                    Encode.short t.1 /\ Encode.short t.2) [([x7f], [])]) as H3
      by (repeat constructor; unfold Encode.short, Encode.size; simpl; lia).
  destruct (parseTypes_throws 2 [([x7f], [])] H1 H2 H3) as [Ha Hb].
  split; [|exact Hb].
  apply (Ha x61 []). discriminate.
Defined.

(** X7. [parseImports] counts the function imports of an Import section
    that holds imports of functions and of globals. *)
Theorem parseImports_counts_functions
    (l : list (string * string * Encode.importdesc)) (tail : list byte) :
  Encode.short l -> Forall Encode.import_ok l ->
  Validate.parseImports (Encode.vec Encode.import l ++ tail)
  = Ok {| Validate.funcImports := Encode.func_imports l |}.
Proof.
  intros Hl H. unfold Validate.parseImports.
  apply (ReaderFacts.reads_run_tail
           (fun buf =>
              Validate.bind (Validate.u32 buf) (fun count =>
              Validate.bind (Validate.imports_loop buf (Z.to_nat count) 0) (fun n =>
              Validate.ret {| Validate.funcImports := n |})))).
  unfold Encode.vec.
  apply (ReaderFacts.reads_bind Validate.u32
           (fun count buf =>
              Validate.bind (Validate.imports_loop buf (Z.to_nat count) 0) (fun n =>
              Validate.ret {| Validate.funcImports := n |}))
           _ _ (Encode.size l));
    [apply ReaderFacts.reads_u32, ReaderFacts.size_is_u32, Hl|].
  unfold Encode.size. rewrite Nat2Z.id.
  apply (ReaderFacts.reads_bind_ret
           (fun buf => Validate.imports_loop buf (length l) 0)
           (fun n => {| Validate.funcImports := n |}) _ (Encode.func_imports l)).
  apply (ReaderFacts.reads_imports_loop l H 0).
Qed.

Lemma parseImports_counts_functions_witness :
  Validate.parseImports
    (Encode.vec Encode.import
       [("env", "log", Encode.ImportFunc 0);
        ("env", "base", Encode.ImportGlobal x7f x00);
        ("env", "now", Encode.ImportFunc 1)] ++ [])
  = Ok {| Validate.funcImports := 2 |}.
Proof.
  apply (parseImports_counts_functions
           [("env", "log", Encode.ImportFunc 0);
            ("env", "base", Encode.ImportGlobal x7f x00);
            ("env", "now", Encode.ImportFunc 1)] []).
  - unfold Encode.short, Encode.size. simpl. lia.
  - repeat constructor;
      unfold Encode.short_name, Encode.short, Encode.size, Encode.is_u32;
      simpl; lia.
Defined.

(** X8. On a memory import [read_import] reads the byte of the limits'
    flag and the minimum, and then a maximum exactly when the last byte of
    the minimum is 1: the flag, which says whether a maximum follows, does
    not decide it. The count of function imports is left as it was. *)
Theorem read_import_memory (n1 n2 : string) (flag : byte) (min max n : Z) :
  Encode.short_name n1 -> Encode.short_name n2 ->
  Encode.is_u32 min -> Encode.is_u32 max ->
  reads (fun buf => Validate.read_import buf n)
    (Encode.name n1 ++ Encode.name n2 ++ [x02] ++ [flag]
     ++ Encode.uleb128 min
     ++ (if Validate.is_num (last (Encode.uleb128 min)) 1
         then Encode.uleb128 max else []))
    n.
Proof.
  intros H1 H2 Hmin Hmax. unfold Validate.read_import.
  eapply ReaderFacts.reads_bind; [apply ReaderFacts.reads_name, H1|]. cbv beta.
  eapply ReaderFacts.reads_bind; [apply ReaderFacts.reads_name, H2|]. cbv beta.
  eapply ReaderFacts.reads_bind; [apply ReaderFacts.reads_byte|]. cbv beta.
  change (Validate.is_num (Some x02) 0) with false.
  change (Validate.is_num (Some x02) 1) with false.
  change (Validate.is_num (Some x02) 2) with true. cbv iota.
  eapply ReaderFacts.reads_bind; [apply ReaderFacts.reads_byte|]. cbv beta.
  apply ReaderFacts.reads_memory_limits; assumption.
Qed.

Lemma read_import_memory_witness :
  Validate.read_import
    (Encode.name "env" ++ Encode.name "memory" ++ [x02; x00; x01; x00; x01]) 0 0
  = Ok (0, 15)
  /\ Validate.read_import
       (Encode.name "env" ++ Encode.name "memory" ++ [x02; x01; x02; x0a]) 0 0
     = Ok (0, 14).
Proof.
  assert (Encode.short_name "env") as H1
      by (unfold Encode.short_name, Encode.short, Encode.size; simpl; lia).
  assert (Encode.short_name "memory") as H2
      by (unfold Encode.short_name, Encode.short, Encode.size; simpl; lia).
  split.
  - apply (read_import_memory "env" "memory" x00 1 0 0 H1 H2
             ltac:(unfold Encode.is_u32; lia) ltac:(unfold Encode.is_u32; lia)
             [] [x01]).
  - apply (read_import_memory "env" "memory" x01 2 0 0 H1 H2
             ltac:(unfold Encode.is_u32; lia) ltac:(unfold Encode.is_u32; lia)
             [] [x0a]).
Defined.

(** X9. On a table import [read_import] reads the reference type and one
    number, the flag of the limits, and stops: the minimum and the maximum
    that follow the flag are left for the next import. *)
Theorem read_import_table (n1 n2 : string) (reftype flag : byte) (n : Z) :
  Encode.short_name n1 -> Encode.short_name n2 -> byte_val flag < 128 ->
  reads (fun buf => Validate.read_import buf n)
    (Encode.name n1 ++ Encode.name n2 ++ [x01] ++ [reftype] ++ [flag]) n.
Proof.
  intros H1 H2 Hflag. unfold Validate.read_import.
  eapply ReaderFacts.reads_bind; [apply ReaderFacts.reads_name, H1|]. cbv beta.
  eapply ReaderFacts.reads_bind; [apply ReaderFacts.reads_name, H2|]. cbv beta.
  eapply ReaderFacts.reads_bind; [apply ReaderFacts.reads_byte|]. cbv beta.
  change (Validate.is_num (Some x01) 0) with false.
  change (Validate.is_num (Some x01) 1) with true. cbv iota.
  eapply ReaderFacts.reads_bind; [apply ReaderFacts.reads_byte|]. cbv beta.
  rewrite <- (ReaderFacts.byte_of_byte_val flag).
  rewrite <- (ReaderFacts.uleb128_small (byte_val flag) Hflag).
  apply (ReaderFacts.reads_bind_ret Validate.u32 (fun _ => n) _ (byte_val flag)).
  apply ReaderFacts.reads_u32. unfold Encode.is_u32.
  pose proof (ReaderFacts.byte_val_range flag). lia.
Qed.

Lemma read_import_table_witness :
  Validate.read_import
    (Encode.name "env" ++ Encode.name "table" ++ [x01; x70; x00; x01]) 0 0
  = Ok (0, 13).
Proof.
  apply (read_import_table "env" "table" x70 x00 0
           ltac:(unfold Encode.short_name, Encode.short, Encode.size; simpl; lia)
           ltac:(unfold Encode.short_name, Encode.short, Encode.size; simpl; lia)
           ltac:(vm_compute; reflexivity) [] [x01]).
Defined.

(** X10. [parseSections] reads a module back as its sections: the four
    bytes of version are skipped whatever they are, a section is stored
    under its id whatever the id is, and of two sections with one id the
    later replaces the earlier. *)
Theorem parseSections_round_trip
    (version : list byte) (secs : list (byte * list byte)) :
  length version = 4%nat ->
  Forall (fun sec => Encode.short sec.2) secs ->
  Validate.parseSections (Encode.module version secs) = Ok (Encode.sections_of secs)
  /\ forall sec,
      Encode.short sec.2 ->
      Validate.parseSections (Encode.module version (secs ++ [sec]))
      = Ok (<[byte_val sec.1 := sec.2]> (Encode.sections_of secs)).
Proof.
  intros Hv Hsecs. split; [apply ReaderFacts.parseSections_module; assumption|].
  intros sec Hsec. rewrite ReaderFacts.parseSections_module; [|assumption|].
  - unfold Encode.sections_of. rewrite fold_left_app. reflexivity.
  - apply Forall_app. split; [assumption|]. by constructor.
Qed.

Lemma parseSections_round_trip_witness :
  Validate.parseSections
    (Encode.module [xff; xff; xff; xff] [(x0b, [x01]); (x0b, [x02; x03])])
  = Ok {[ 11 := [x02; x03] ]}.
Proof.
  assert (length [xff; xff; xff; xff] = 4%nat) as Hv by reflexivity.
  assert (Forall (fun sec : byte * list byte => Encode.short sec.2)
            [(x0b, [x01]); (x0b, [x02; x03])]) as Hs
      by (repeat constructor; unfold Encode.short, Encode.size; simpl; lia).
  destruct (parseSections_round_trip [xff; xff; xff; xff]
              [(x0b, [x01]); (x0b, [x02; x03])] Hv Hs) as [H _].
  rewrite H. reflexivity.
Defined.

Module ValidateMore.

Lemma hex2_two (b : byte) : exists c1 c2, hex2 b = String c1 (String c2 "").
Proof. destruct b; do 2 eexists; vm_compute; reflexivity. Qed.

Lemma hex2_00 (b : byte) : hex2 b = "00" -> b = x00.
Proof. destruct b; vm_compute; intros H; first [reflexivity | discriminate H]. Qed.

Lemma hex2_61 (b : byte) : hex2 b = "61" -> b = x61.
Proof. destruct b; vm_compute; intros H; first [reflexivity | discriminate H]. Qed.

Lemma hex2_73 (b : byte) : hex2 b = "73" -> b = x73.
Proof. destruct b; vm_compute; intros H; first [reflexivity | discriminate H]. Qed.

Lemma hex2_6d (b : byte) : hex2 b = "6d" -> b = x6d.
Proof. destruct b; vm_compute; intros H; first [reflexivity | discriminate H]. Qed.

Lemma to_hex_magic (bs : list byte) :
  to_hex bs = "0061736d" -> bs = [x00; x61; x73; x6d].
Proof.
  intros H. pose proof (StoreFacts.to_hex_length bs) as L. rewrite H in L.
  cbn [String.length] in L.
  destruct bs as [|a [|b [|c [|d [|]]]]]; cbn [length] in L; try lia.
  unfold to_hex in H. cbn [map String.concat] in H.
  destruct (hex2_two a) as (a1 & a2 & Ea), (hex2_two b) as (b1 & b2 & Eb),
    (hex2_two c) as (c1 & c2 & Ec), (hex2_two d) as (d1 & d2 & Ed).
  rewrite Ea, Eb, Ec, Ed in H. cbn [append] in H.
  injection H as -> -> -> -> -> -> -> ->.
  by rewrite (hex2_00 a Ea), (hex2_61 b Eb), (hex2_73 c Ec), (hex2_6d d Ed).
Qed.

Lemma parseSections_bad_magic (buf : list byte) :
  take 4 buf <> [x00; x61; x73; x6d] ->
  Validate.parseSections buf = Throw (Js.Error "Not a wasm module").
Proof.
  intros Hm. unfold Validate.parseSections, Validate.run, Validate.bind,
    Validate.bytes.
  rewrite (slice_from _ 0 4) by lia.
  change (Z.to_nat 4) with 4%nat. change (Z.to_nat 0) with 0%nat.
  rewrite drop_0.
  destruct (to_hex (take 4 buf) =? "0061736d")%string eqn:E.
  - apply String.eqb_eq, to_hex_magic in E. contradiction.
  - reflexivity.
Qed.

Lemma sections_of_program (others : list (byte * list byte)) (p : Encode.program) :
  let sections := Encode.sections_of (others ++ Encode.sections p) in
  sections !! Validate.SECTION_TYPE
  = Some (Encode.vec Encode.functype (Encode.types p))
  /\ sections !! Validate.SECTION_IMPORT
     = Some (Encode.vec Encode.import (Encode.imports p))
  /\ sections !! Validate.SECTION_FUNCTION
     = Some (Encode.vec Encode.uleb128 (Encode.functions p))
  /\ sections !! Validate.SECTION_EXPORT
     = Some (Encode.vec Encode.export (Encode.exports p)).
Proof.
  unfold Encode.sections_of, Encode.sections. rewrite fold_left_app.
  cbn [fold_left fst snd].
  change (byte_val x01) with 1. change (byte_val x02) with 2.
  change (byte_val x03) with 3. change (byte_val x07) with 7.
  unfold Validate.SECTION_TYPE, Validate.SECTION_IMPORT,
    Validate.SECTION_FUNCTION, Validate.SECTION_EXPORT.
  split; [|split; [|split]].
  - rewrite !lookup_insert_ne by lia. apply lookup_insert_eq.
  - rewrite !lookup_insert_ne by lia. apply lookup_insert_eq.
  - rewrite lookup_insert_ne by lia. apply lookup_insert_eq.
  - apply lookup_insert_eq.
Qed.

End ValidateMore.


(** X11. A buffer that does not start with the four bytes of the magic
    number, one shorter than four bytes included, is answered with the one
    error [Invalid wasm binary: Not a wasm module], no warning and no
    information. *)
Theorem validate_rejects_bad_magic (buf : list byte) :
  take 4 buf <> [x00; x61; x73; x6d] ->
  Validate.validate buf
  = Ok {| Validate.valid := false;
          Validate.errors := ["Invalid wasm binary: Not a wasm module"];
          Validate.warnings := [];
          Validate.info := {| Validate.exports := ∅;
                              Validate.runSignature := None |} |}.
Proof.
  intros H. unfold Validate.validate.
  rewrite (ValidateMore.parseSections_bad_magic buf H). reflexivity.
Qed.

Lemma validate_rejects_bad_magic_witness :
  Validate.errors <$> match Validate.validate [] with
                      | Ok v => Some v
                      | Throw _ => None
                      end
  = Some ["Invalid wasm binary: Not a wasm module"].
Proof.
  rewrite (validate_rejects_bad_magic []); [reflexivity|]. discriminate.
Defined.

(** X12. [validate] looks at the sections with the ids 1, 2, 3 and 7 only:
    two modules whose sections agree there get the same answer, whatever
    their memory, code, data and custom sections hold. *)
Theorem validate_reads_four_sections
    (b1 b2 : list byte) (s1 s2 : gmap Z (list byte)) :
  Validate.parseSections b1 = Ok s1 ->
  Validate.parseSections b2 = Ok s2 ->
  (forall id, In id [1; 2; 3; 7] -> s1 !! id = s2 !! id) ->
  Validate.validate b1 = Validate.validate b2.
Proof.
  intros H1 H2 H. unfold Validate.validate. rewrite H1, H2.
  unfold Validate.parse_section, Validate.SECTION_TYPE, Validate.SECTION_IMPORT,
    Validate.SECTION_FUNCTION, Validate.SECTION_EXPORT.
  rewrite (H 1), (H 2), (H 3), (H 7) by (cbn; tauto). reflexivity.
Qed.

Lemma validate_reads_four_sections_witness :
  Validate.validate returns_0 = Validate.validate trapping.
Proof.
  apply (validate_reads_four_sections returns_0 trapping
           (match Validate.parseSections returns_0 with
            | Ok s => s | Throw _ => ∅ end)
           (match Validate.parseSections trapping with
            | Ok s => s | Throw _ => ∅ end)).
  - vm_compute. reflexivity.
  - vm_compute. reflexivity.
  - intros id [<-|[<-|[<-|[<-|[]]]]]; vm_compute; reflexivity.
Defined.

(** X13. On the encoding of a program, after any other sections, what
    [validate] answers is the check of the [run] export and the verdict on
    the types, the count of function imports, the type indexes and the
    exports that were encoded. The names of the exports are the strings
    that their bytes decode to, and [info.exports] has a key for each of
    them but [__proto__]. *)
Theorem validate_encoded_program
    (version : list byte) (others : list (byte * list byte)) (p : Encode.program) :
  length version = 4%nat ->
  Forall (fun s => Encode.short s.2) others ->
  Encode.fits p ->
  Validate.validate (Encode.module version (others ++ Encode.sections p))
  = match Validate.check_run (Encode.read_functype <$> Encode.types p)
            {| Validate.funcImports := Encode.func_imports (Encode.imports p) |}
            (Encode.functions p) (Encode.read_export <$> Encode.exports p) with
    | Ok run => Ok (Validate.verdict (Encode.read_export <$> Encode.exports p) run)
    | Throw e => Throw e
    end.
Proof.
  intros Hv Ho ((Ht1 & Ht2) & (Hi1 & Hi2) & (Hf1 & Hf2) & (He1 & He2) & Hs).
  unfold Validate.validate.
  rewrite ReaderFacts.parseSections_module;
    [|exact Hv|apply Forall_app; split; assumption].
  destruct (ValidateMore.sections_of_program others p) as (E1 & E2 & E3 & E7).
  unfold Validate.parse_section. rewrite E1, E2, E3, E7.
  assert (Validate.parseTypes (Encode.vec Encode.functype (Encode.types p))
          = Ok (Encode.read_functype <$> Encode.types p)) as ->.
  { apply (ReaderFacts.reads_run
             (fun buf => Validate.bind (Validate.u32 buf) (fun count =>
                         Validate.push_loop (Z.to_nat count)
                           (Validate.read_type buf)))).
    apply ReaderFacts.reads_vec; [exact Ht1|].
    eapply Forall_impl; [exact Ht2|]. intros t [H1 H2].
    apply ReaderFacts.reads_functype; assumption. }
  assert (Validate.parseImports (Encode.vec Encode.import (Encode.imports p))
          = Ok {| Validate.funcImports :=
                    Encode.func_imports (Encode.imports p) |}) as ->.
  { apply (ReaderFacts.reads_run
             (fun buf =>
                Validate.bind (Validate.u32 buf) (fun count =>
                Validate.bind (Validate.imports_loop buf (Z.to_nat count) 0)
                  (fun n => Validate.ret {| Validate.funcImports := n |})))).
    unfold Encode.vec.
    apply (ReaderFacts.reads_bind Validate.u32
             (fun count buf =>
                Validate.bind (Validate.imports_loop buf (Z.to_nat count) 0)
                  (fun n => Validate.ret {| Validate.funcImports := n |}))
             _ _ (Encode.size (Encode.imports p)));
      [apply ReaderFacts.reads_u32, ReaderFacts.size_is_u32, Hi1|].
    unfold Encode.size. rewrite Nat2Z.id.
    apply (ReaderFacts.reads_bind_ret
             (fun buf => Validate.imports_loop buf (length (Encode.imports p)) 0)
             (fun n => {| Validate.funcImports := n |}) _
             (Encode.func_imports (Encode.imports p))).
    apply (ReaderFacts.reads_imports_loop _ Hi2 0). }
  assert (Validate.parseFunctions (Encode.vec Encode.uleb128 (Encode.functions p))
          = Ok (Encode.functions p)) as ->.
  { rewrite <- (list_fmap_id (Encode.functions p)) at 2.
    apply (ReaderFacts.reads_run
             (fun buf => Validate.bind (Validate.u32 buf) (fun count =>
                         Validate.push_loop (Z.to_nat count) (Validate.u32 buf)))).
    apply ReaderFacts.reads_vec; [exact Hf1|].
    eapply Forall_impl; [exact Hf2|]. intros n Hn.
    apply ReaderFacts.reads_u32, Hn. }
  assert (Validate.parseExports (Encode.vec Encode.export (Encode.exports p))
          = Ok (Encode.read_export <$> Encode.exports p)) as ->.
  { apply (ReaderFacts.reads_run
             (fun buf => Validate.bind (Validate.u32 buf) (fun count =>
                         Validate.push_loop (Z.to_nat count)
                           (Validate.read_export buf)))).
    apply ReaderFacts.reads_vec; [exact He1|].
    eapply Forall_impl; [exact He2|]. intros e [H1 H2].
    apply ReaderFacts.reads_export; assumption. }
  unfold Validate.rbind, Validate.verdict. reflexivity.
Qed.

Lemma validate_encoded_program_witness :
  Validate.validate
    (Encode.module [x01; x00; x00; x00]
       ([(x05, [x01; x00; x01])] ++ Encode.sections echo_program))
  = Ok (Validate.verdict (Encode.read_export <$> Encode.exports echo_program)
          ([], Some "(i32, i32, i32) -> (i32)"))
  /\ match Validate.validate
             (Encode.module [x01; x00; x00; x00]
                ([(x05, [x01; x00; x01])] ++ Encode.sections odd_names)) with
     | Ok v =>
         Some (Validate.valid v, Validate.warnings v,
               Validate.exports (Validate.info v) !! "__proto__",
               Validate.exports (Validate.info v)
                 !! string_of_list_byte [xef; xbf; xbd; x61])
     | Throw _ => None
     end
     = Some (true,
             ["Extra export: __proto__";
              "Extra export: " ++ string_of_list_byte [xef; xbf; xbd; x61]],
             None, Some (Some x00, 0)).
Proof.
  split.
  - rewrite (validate_encoded_program [x01; x00; x00; x00]
               [(x05, [x01; x00; x01])] echo_program).
    + reflexivity.
    + reflexivity.
    + repeat constructor; unfold Encode.short, Encode.size; simpl; lia.
    + unfold Encode.fits, Encode.import_ok, Encode.short_name, Encode.short,
        Encode.size, Encode.is_u32.
      repeat first [split | constructor]; simpl; lia.
  - rewrite (validate_encoded_program [x01; x00; x00; x00]
               [(x05, [x01; x00; x01])] odd_names).
    + vm_compute. reflexivity.
    + reflexivity.
    + repeat constructor; unfold Encode.short, Encode.size; simpl; lia.
    + unfold Encode.fits, Encode.import_ok, Encode.short_name, Encode.short,
        Encode.size, Encode.is_u32.
      repeat first [split | constructor]; simpl; lia.
Defined.

(** ** The store across operations and requests *)

Module StepFacts.

Import Store Queries.

Lemma steps_putBlob now x s0 s : steps s0 s -> steps s0 (putBlob now x s).2.
Proof. apply (steps_apply s0 (PutBlob now x)). Qed.

Lemma steps_recordEvent now f s0 s r :
  steps s0 s -> recordEvent now f s = Ok r -> steps s0 r.2.
Proof.
  intros Hs Hr. pose proof (steps_apply s0 (RecordEvent now f) s Hs) as H.
  cbn [apply] in H. by rewrite Hr in H.
Qed.

Lemma steps_setAlias now name h s0 s :
  steps s0 s -> steps s0 (setAlias now name h s).2.
Proof. apply (steps_apply s0 (SetAlias now name h)). Qed.

Lemma steps_deleteAlias name s0 s : steps s0 s -> steps s0 (deleteAlias name s).2.
Proof. apply (steps_apply s0 (DeleteAlias name)). Qed.

Lemma steps_reachable s s' : reachable s -> steps s s' -> reachable s'.
Proof.
  intros Hs. induction 1 as [|o s' _ IH]; [exact Hs|].
  by apply reachable_apply.
Qed.

Lemma steps_keeps_blobs s s' : steps s s' -> keeps_blobs s s'.
Proof.
  induction 1 as [|o s' _ IH]; intros h b Hb; [exact Hb|].
  by apply StoreFacts.apply_keeps_blob, IH.
Qed.

Lemma apply_events o s : exists more, events (apply o s) = (events s ++ more)%list.
Proof.
  destruct o as [now x|now f|now name hsh|name]; cbn [apply].
  - exists []. by rewrite StoreFacts.putBlob_events, app_nil_r.
  - unfold recordEvent. destruct (_ && _); cbn [snd].
    + by eexists.
    + exists []. by rewrite app_nil_r.
  - unfold setAlias. destruct (negb _); exists []; by rewrite app_nil_r.
  - exists []. cbn. by rewrite app_nil_r.
Qed.

Lemma steps_events s s' : steps s s' -> exists more, events s' = (events s ++ more)%list.
Proof.
  induction 1 as [|o s' _ [more IH]].
  - exists []. by rewrite app_nil_r.
  - destruct (apply_events o s') as [more' H]. exists (more ++ more')%list.
    by rewrite H, IH, app_assoc.
Qed.

Lemma references_blob_kept h s s' :
  keeps_blobs s s' -> references_blob h s = true -> references_blob h s' = true.
Proof.
  intros Hk. destruct h as [h|]; [|done]. cbn [references_blob].
  rewrite !StoreFacts.hasBlob_true. intros [b Hb]. exists b. by apply Hk.
Qed.

Lemma apply_keeps_blobs o s : keeps_blobs s (apply o s).
Proof. intros h b. apply StoreFacts.apply_keeps_blob. Qed.

Lemma events_ok_apply o s : events_ok s -> events_ok (apply o s).
Proof.
  intros Hs i e He.
  assert (forall e', events s !! i = Some e' ->
            id e' = Z.of_nat i + 1
            /\ (success e' = 0 \/ success e' = 1)
            /\ references_blob (input_hash e') (apply o s) = true
            /\ references_blob (output_hash e') (apply o s) = true
            /\ references_blob (module_hash e') (apply o s) = true) as Hold.
  { intros e' He'. destruct (Hs i e' He') as (H1 & H2 & H3 & H4 & H5).
    pose proof (apply_keeps_blobs o s) as Hk.
    repeat split; try assumption; by apply (references_blob_kept _ s). }
  destruct o as [now x|now f|now name hsh|name]; cbn [apply] in *.
  - rewrite StoreFacts.putBlob_events in He. by apply Hold.
  - unfold recordEvent in *.
    destruct (references_blob (input_hash (event_row now f s)) s) eqn:E1;
      [|by apply Hold].
    destruct (references_blob (output_hash (event_row now f s)) s) eqn:E2;
      [|by apply Hold].
    destruct (references_blob (module_hash (event_row now f s)) s) eqn:E3;
      [|by apply Hold].
    cbn [andb snd add_event events] in *.
    apply lookup_app_Some in He. destruct He as [He|[Hlen He]]; [by apply Hold|].
    apply list_lookup_singleton_Some in He. destruct He as [Hi <-].
    assert (i = length (events s)) as -> by lia.
    split; [reflexivity|]. split; [cbn; destruct (f_success f); auto|].
    done.
  - unfold setAlias in *. destruct (negb _); cbn [snd events] in *; by apply Hold.
  - cbn [deleteAlias snd events] in *. by apply Hold.
Qed.

Lemma reachable_events_ok s : reachable s -> events_ok s.
Proof.
  induction 1 as [|o s _ IH].
  - intros i e H. cbn in H. by rewrite lookup_nil in H.
  - by apply events_ok_apply.
Qed.

End StepFacts.

Module HandlerFacts.

Import Queries StepFacts.

Lemma record_resolve_steps c r s0 s s' :
  steps s0 s -> Server.record_resolve c r s = Ok s' -> steps s0 s'.
Proof.
  unfold Server.record_resolve. intros Hs.
  destruct (Server.truthy _); [|by intros [= <-]].
  destruct (Store.recordEvent _ _ s) as [x|] eqn:E; [|discriminate].
  intros [= <-]. by apply (steps_recordEvent _ _ _ _ _ Hs E).
Qed.

Lemma run_catch_steps c moduleHash inputHash err s0 s :
  steps s0 s -> steps s0 (Server.run_catch c moduleHash inputHash err s).2.
Proof.
  intros Hs. unfold Server.run_catch.
  destruct (Store.recordEvent _ _ s) as [x|] eqn:E; [|exact Hs].
  by apply (steps_recordEvent _ _ _ _ _ Hs E).
Qed.

Lemma run_try_steps rt c moduleHash inputHash wasmBytes inputBytes s0 s :
  steps s0 s ->
  steps s0 (Server.run_try rt c moduleHash inputHash wasmBytes inputBytes s).2.
Proof.
  intros Hs. unfold Server.run_try.
  destruct (Harness.executeModule rt wasmBytes inputBytes) as [output|err];
    [|by apply run_catch_steps].
  pose proof (steps_putBlob (Server.now c) output s0 s Hs) as Hs1.
  destruct (Store.putBlob (Server.now c) output s) as [outputHash s1].
  cbn [snd] in Hs1.
  destruct (Store.recordEvent _ _ s1) as [x|] eqn:E;
    [|by apply run_catch_steps].
  by apply (steps_recordEvent _ _ _ _ _ Hs1 E).
Qed.

Lemma post_run_steps rt c ref inputRef reqBody s :
  steps s (Server.post_run rt c ref inputRef reqBody s).2.
Proof.
  pose proof (steps_refl s) as Hs. unfold Server.post_run.
  destruct (Store.resolveRef ref s) as [r|]; [|exact Hs].
  destruct (Server.record_resolve c r s) as [s1|] eqn:E1; [|exact Hs].
  pose proof (record_resolve_steps _ _ _ _ _ Hs E1) as Hs1.
  destruct (Store.getBlob _ s1) as [wasmBytes|]; [|exact Hs1].
  destruct (Server.truthy inputRef).
  - destruct (Store.resolveRef _ s1) as [ri|]; [|exact Hs1].
    destruct (Server.record_resolve c ri s1) as [s2|] eqn:E2; [|exact Hs1].
    pose proof (record_resolve_steps _ _ _ _ _ Hs1 E2) as Hs2.
    destruct (Store.getBlob _ s2) as [inputBytes|]; [|exact Hs2].
    by apply run_try_steps.
  - pose proof (steps_putBlob (Server.now c) reqBody s s1 Hs1) as Hs2.
    destruct (Store.putBlob (Server.now c) reqBody s1) as [inputHash s2].
    by apply run_try_steps.
Qed.

Lemma compile_catch_steps c t set lang inputHash message stderr stdout s0 s :
  steps s0 s ->
  steps s0 (Server.compile_catch c t set lang inputHash message stderr stdout s).2.
Proof.
  intros Hs. unfold Server.compile_catch.
  destruct (Store.recordEvent _ _ s) as [x|] eqn:E; [|exact Hs].
  by apply (steps_recordEvent _ _ _ _ _ Hs E).
Qed.

Lemma compile_send_steps c lang inputHash wasm outputSize content s0 s :
  steps s0 s ->
  steps s0 (Server.compile_send c lang inputHash wasm outputSize content s).2.
Proof.
  intros Hs1. unfold Server.compile_send.
  pose proof (steps_putBlob (Server.now c) wasm s0 s Hs1) as Hs2.
  destruct (Store.putBlob (Server.now c) wasm s) as [outputHash s2].
  cbn [snd] in Hs2.
  destruct (Validate.validate wasm) as [v|err];
    [|by apply compile_catch_steps].
  destruct (Store.recordEvent _ _ s2) as [x|] eqn:E;
    [|by apply compile_catch_steps].
  pose proof (steps_recordEvent _ _ _ _ _ Hs2 E) as Hs3.
  destruct (Server.set_headers _) as [set [err|]];
    [by apply compile_catch_steps | exact Hs3].
Qed.

Lemma post_compile_steps tc c lang source s :
  steps s (Server.post_compile tc c lang source s).2.
Proof.
  pose proof (steps_refl s) as Hs. unfold Server.post_compile.
  destruct (negb _); [exact Hs|].
  destruct (String.eqb source ""); [exact Hs|].
  pose proof (steps_putBlob (Server.now c) (list_byte_of_string source) s s Hs)
    as Hs1.
  destruct (Store.putBlob (Server.now c) (list_byte_of_string source) s)
    as [inputHash s1].
  cbn [snd] in Hs1.
  destruct (tc lang source);
    by first [apply compile_catch_steps | apply compile_send_steps].
Qed.

Lemma put_alias_steps c name hash s : steps s (Server.put_alias c name hash s).2.
Proof.
  pose proof (steps_refl s) as Hs. unfold Server.put_alias.
  destruct (negb _); [exact Hs|].
  pose proof (steps_setAlias (Server.now c) name (default "" hash) s s Hs) as Hs1.
  destruct (Store.setAlias (Server.now c) name (default "" hash) s)
    as [[result|] s1]; [|exact Hs1].
  cbn [snd] in Hs1.
  destruct (Store.recordEvent _ _ s1) as [x|] eqn:E; [|exact Hs1].
  by apply (steps_recordEvent _ _ _ _ _ Hs1 E).
Qed.

Lemma delete_alias_steps c name s : steps s (Server.delete_alias c name s).2.
Proof.
  pose proof (steps_refl s) as Hs. unfold Server.delete_alias.
  pose proof (steps_deleteAlias name s s Hs) as Hs1.
  destruct (Store.deleteAlias name s) as [deleted s1]. cbn [snd] in Hs1.
  destruct (negb deleted); [exact Hs1|].
  destruct (Store.getAlias name s) as [a|]; [|exact Hs1].
  destruct (Store.recordEvent _ _ s1) as [x|] eqn:E; [|exact Hs1].
  by apply (steps_recordEvent _ _ _ _ _ Hs1 E).
Qed.

End HandlerFacts.

(** ** Blobs, events and aliases in every state the store reaches *)

(** X14. In every state the store reaches a blob is stored under the
    SHA-256 of its own bytes, 64 hexadecimal digits, and [blobSize] gives
    the number of its bytes. *)
Theorem stored_blob_named_by_hash (s : Store.db) (h : string) (d : list byte) :
  Store.reachable s ->
  Store.getBlob h s = Some d ->
  h = Store.hash d
  /\ String.length h = 64%nat
  /\ Store.blobSize h s = Some (Z.of_nat (length d)).
Proof.
  intros Hs Hd. unfold Store.getBlob, Store.blobSize in *.
  destruct (Store.blobs s !! h) as [b|] eqn:E; [|discriminate Hd].
  cbn in Hd. injection Hd as <-.
  destruct (proj1 (StoreFacts.reachable_ok s Hs) h b E) as [Hh Hsize].
  split; [exact Hh|]. split; [rewrite Hh; apply StoreFacts.hash_length|].
  cbn. by rewrite Hsize.
Qed.

Lemma stored_blob_named_by_hash_witness :
  Store.hash hello = Store.hash hello
  /\ String.length (Store.hash hello) = 64%nat
  /\ Store.blobSize (Store.hash hello) hello_store = Some 5.
Proof.
  apply (stored_blob_named_by_hash hello_store (Store.hash hello) hello).
  - apply Store.reachable_apply, Store.reachable_empty.
  - vm_compute. reflexivity.
Defined.

(** X15. No operation of the store and no request changes or removes a
    blob: what [getBlob] gives for a hash it gives after [POST /run],
    [POST /compile], [PUT /alias] and [DELETE /alias], whatever they were
    asked and however they ended. *)
Theorem requests_keep_blobs
    (rt : WebAssembly.Runtime) (tc : Server.Toolchain) (c : Server.clock)
    (ref lang source name : string) (inputRef hash : option string)
    (reqBody : list byte) (s : Store.db) (h : string) (d : list byte) :
  Store.getBlob h s = Some d ->
  (forall o, Store.getBlob h (Store.apply o s) = Some d)
  /\ Store.getBlob h (Server.post_run rt c ref inputRef reqBody s).2 = Some d
  /\ Store.getBlob h (Server.post_compile tc c lang source s).2 = Some d
  /\ Store.getBlob h (Server.put_alias c name hash s).2 = Some d
  /\ Store.getBlob h (Server.delete_alias c name s).2 = Some d.
Proof.
  intros Hd. unfold Store.getBlob in *.
  destruct (Store.blobs s !! h) as [b|] eqn:E; [|discriminate Hd].
  assert (forall s', Queries.steps s s' ->
                     Store.data <$> Store.blobs s' !! h = Some d) as H.
  { intros s' Hs'. by rewrite (StepFacts.steps_keeps_blobs s s' Hs' h b E). }
  split; [|split; [|split; [|split]]].
  - intros o. apply H, Queries.steps_apply, Queries.steps_refl.
  - apply H, HandlerFacts.post_run_steps.
  - apply H, HandlerFacts.post_compile_steps.
  - apply H, HandlerFacts.put_alias_steps.
  - apply H, HandlerFacts.delete_alias_steps.
Qed.

Lemma requests_keep_blobs_witness :
  Store.getBlob (Store.hash trapping)
    (Server.post_run engine clock_12ms "t" None hello (stored_as "t" trapping)).2
  = Some trapping.
Proof.
  assert (Store.getBlob (Store.hash trapping) (stored_as "t" trapping)
          = Some trapping) as H by (vm_compute; reflexivity).
  destruct (requests_keep_blobs engine (builds []) clock_12ms "t" "zig" "x" "t"
              None None hello (stored_as "t" trapping) (Store.hash trapping)
              trapping H) as (_ & Hrun & _).
  exact Hrun.
Defined.

(** X16. The events of a state the store reaches have the ids 1, 2, 3, ...
    in the order in which they were recorded, and [recordEvent] returns an
    id above all of them: the count of the events so far, plus one. *)
Theorem event_ids_count_up (s : Store.db) :
  Store.reachable s ->
  (forall i e, Store.events s !! i = Some e -> Store.id e = Z.of_nat i + 1)
  /\ forall now f r,
      Store.recordEvent now f s = Ok r ->
      r.1 = Z.of_nat (length (Store.events s)) + 1
      /\ Forall (fun e => Store.id e < r.1) (Store.events s)
      /\ exists e, Store.events r.2 = (Store.events s ++ [e])%list
                   /\ Store.id e = r.1.
Proof.
  intros Hs. pose proof (StepFacts.reachable_events_ok s Hs) as Hok.
  split; [intros i e He; apply (Hok i e He)|].
  intros now f r Hr. unfold Store.recordEvent in Hr.
  destruct (_ && _); [|discriminate Hr]. injection Hr as <-.
  cbn [fst snd Store.event_row Store.id Store.add_event Store.events].
  split; [reflexivity|]. split.
  - apply Forall_lookup. intros i e He.
    destruct (Hok i e He) as [-> _]. apply lookup_lt_Some in He. lia.
  - eexists. split; reflexivity.
Qed.

Lemma event_ids_count_up_witness :
  Forall (fun e => Store.id e < 3)
    (Store.events
       (Server.post_run engine clock_12ms "t" None hello (stored_as "t" trapping)).2).
Proof.
  destruct (event_ids_count_up _
              (post_run_reachable engine clock_12ms "t" None hello _
                 (stored_as_reachable "t" trapping))) as [_ H].
  destruct (H "2024-03-15T12:34:57.000" (Server.alias_event "t" "")
              (3, Store.add_event
                    (Store.event_row "2024-03-15T12:34:57.000"
                       (Server.alias_event "t" "")
                       (Server.post_run engine clock_12ms "t" None hello
                          (stored_as "t" trapping)).2)
                    (Server.post_run engine clock_12ms "t" None hello
                       (stored_as "t" trapping)).2)
              ltac:(vm_compute; reflexivity)) as (_ & HF & _).
  exact HF.
Defined.

Lemma events_name_stored_blobs_aux (s : Store.db) (e : Store.event) :
  Store.reachable s ->
  e ∈ Store.events s ->
  (Store.success e = 0 \/ Store.success e = 1)
  /\ forall h,
      Store.input_hash e = Some h \/ Store.output_hash e = Some h
      \/ Store.module_hash e = Some h ->
      is_Some (Store.getBlob h s).
Proof.
  intros Hs He. apply list_elem_of_lookup in He. destruct He as [i He].
  destruct (StepFacts.reachable_events_ok s Hs i e He) as (_ & H2 & H3 & H4 & H5).
  split; [exact H2|]. intros h Hh.
  assert (Store.hasBlob h s = true) as Hb.
  { destruct Hh as [Hh|[Hh|Hh]]; rewrite Hh in *; assumption. }
  apply StoreFacts.hasBlob_true in Hb. destruct Hb as [b Hb].
  exists (Store.data b). unfold Store.getBlob. by rewrite Hb.
Qed.

(** X17. An event of a state the store reaches records 0 or 1 as its
    success, and where it names an input, an output or a module, the blob
    of that hash is stored; it stays stored through every later operation
    of the store. *)
Theorem events_name_stored_blobs (s s' : Store.db) (e : Store.event) :
  Store.reachable s ->
  e ∈ Store.events s ->
  Queries.steps s s' ->
  (Store.success e = 0 \/ Store.success e = 1)
  /\ e ∈ Store.events s'
  /\ forall h,
      Store.input_hash e = Some h \/ Store.output_hash e = Some h
      \/ Store.module_hash e = Some h ->
      Store.getBlob h s' = Store.getBlob h s /\ is_Some (Store.getBlob h s).
Proof.
  intros Hs He Hsteps.
  destruct (events_name_stored_blobs_aux s e Hs He) as [H1 H2].
  split; [exact H1|]. split.
  - destruct (StepFacts.steps_events s s' Hsteps) as [more ->].
    apply elem_of_app. by left.
  - intros h Hh. specialize (H2 h Hh). split; [|exact H2].
    destruct H2 as [d Hd]. unfold Store.getBlob in *.
    destruct (Store.blobs s !! h) as [b|] eqn:E; [|discriminate Hd].
    by rewrite (StepFacts.steps_keeps_blobs s s' Hsteps h b E).
Qed.

Lemma events_name_stored_blobs_witness :
  Forall (fun e => Store.success e = 0 \/ Store.success e = 1)
    (Store.events
       (Server.post_run engine clock_12ms "t" None hello (stored_as "t" trapping)).2).
Proof.
  apply Forall_forall. intros e He.
  apply (events_name_stored_blobs _ _ e
           (post_run_reachable engine clock_12ms "t" None hello _
              (stored_as_reachable "t" trapping)) He (Queries.steps_refl _)).
Defined.



Module RunFacts.

Import Store Server.

Lemma resolveRef_stored ref s r :
  reachable s -> resolveRef ref s = Some r -> is_Some (blobs s !! hash_of r).
Proof.
  intros Hs. unfold resolveRef, getAlias.
  destruct (aliases s !! ref) as [a|] eqn:Ea.
  - intros [= <-]. apply (proj2 (StoreFacts.reachable_ok s Hs) ref a Ea).
  - destruct (hasBlob ref s) eqn:Eb; [|discriminate].
    intros [= <-]. by apply StoreFacts.hasBlob_true.
Qed.

(** What [run_try] answers has the status 200 or 400. *)
Lemma run_try_status rt c moduleHash inputHash wasmBytes inputBytes s resp :
  (run_try rt c moduleHash inputHash wasmBytes inputBytes s).1 = Ok resp ->
  status resp = 200 \/ status resp = 400.
Proof.
  assert (forall err s', (run_catch c moduleHash inputHash err s').1 = Ok resp ->
                         status resp = 400) as Hcatch.
  { intros err s'. unfold run_catch.
    destruct (recordEvent _ _ s'); cbn [fst]; [|discriminate].
    by intros [= <-]. }
  unfold run_try.
  destruct (Harness.executeModule rt wasmBytes inputBytes) as [output|err];
    [|intros H; right; by apply (Hcatch err s)].
  destruct (putBlob (now c) output s) as [outputHash s1].
  destruct (recordEvent _ _ s1); [|intros H; right; by apply (Hcatch e s1)].
  cbn [fst]. intros [= <-]. by left.
Qed.

(** [record_resolve] on a resolved reference of a reachable store adds
    events and nothing else. *)
Lemma record_resolve_same c r s :
  is_Some (blobs s !! hash_of r) ->
  exists s', record_resolve c r s = Ok s'
             /\ blobs s' = blobs s /\ aliases s' = aliases s.
Proof.
  intros Hb. destruct (record_resolve_events c r s Hb) as (pre & -> & _).
  by eexists.
Qed.

Lemma resolveRef_same ref s s' :
  blobs s' = blobs s -> aliases s' = aliases s ->
  resolveRef ref s' = resolveRef ref s.
Proof.
  intros Hb Ha. unfold resolveRef, getAlias, hasBlob. by rewrite Hb, Ha.
Qed.

End RunFacts.

(** X19. In a state the store reaches a reference that resolves names a
    stored blob, through an alias or as a hash. So a 404 of [POST /run]
    always says that the module or the input was not found under its
    reference: the answers [Module blob not found] and [Input blob not
    found] are never given. *)
Theorem post_run_404_is_unresolved
    (rt : WebAssembly.Runtime) (c : Server.clock) (ref : string)
    (inputRef : option string) (reqBody : list byte) (s : Store.db)
    (resp : Server.response) :
  Store.reachable s ->
  (forall r, Store.resolveRef ref s = Some r ->
             is_Some (Store.getBlob (Store.hash_of r) s))
  /\ ((Server.post_run rt c ref inputRef reqBody s).1 = Ok resp ->
      Server.status resp = 404 ->
      (Store.resolveRef ref s = None
       /\ resp = Server.json 404 [("error", "Module not found: " ++ ref)])
      \/ exists i, inputRef = Some i /\ Store.resolveRef i s = None
                   /\ resp = Server.json 404 [("error", "Input not found: " ++ i)]).
Proof.
  intros Hs. split.
  - intros r Hr. destruct (RunFacts.resolveRef_stored ref s r Hs Hr) as [b Hb].
    exists (Store.data b). unfold Store.getBlob. by rewrite Hb.
  - unfold Server.post_run.
    destruct (Store.resolveRef ref s) as [r|] eqn:Er;
      [|cbn [fst]; intros [= <-] _; left; by split].
    pose proof (RunFacts.resolveRef_stored ref s r Hs Er) as Hb.
    destruct (RunFacts.record_resolve_same c r s Hb) as (s1 & -> & Hb1 & Ha1).
    unfold Store.getBlob at 1. rewrite Hb1. destruct Hb as [b Hb]. rewrite Hb.
    cbn [fmap option_fmap option_map].
    destruct (Server.truthy inputRef) eqn:Et.
    + destruct inputRef as [i|]; [|discriminate Et].
      change (default "" (Some i)) with i.
      rewrite (RunFacts.resolveRef_same i s s1 Hb1 Ha1).
      destruct (Store.resolveRef i s) as [ri|] eqn:Ei;
        [|cbn [fst]; intros [= <-] _; right; exists i; by repeat split].
      pose proof (RunFacts.resolveRef_stored i s ri Hs Ei) as Hbi.
      rewrite <- Hb1 in Hbi.
      destruct (RunFacts.record_resolve_same c ri s1 Hbi) as (s2 & -> & Hb2 & Ha2).
      unfold Store.getBlob at 1. rewrite Hb2. destruct Hbi as [bi Hbi].
      rewrite Hbi. cbn [fmap option_fmap option_map].
      intros H1 H2. apply RunFacts.run_try_status in H1. lia.
    + destruct (Store.putBlob (Server.now c) reqBody s1) as [inputHash s2].
      intros H1 H2. apply RunFacts.run_try_status in H1. lia.
Qed.

Lemma post_run_404_is_unresolved_witness :
  is_Some (Store.getBlob (Store.hash hello) foo_store).
Proof.
  apply (proj1 (post_run_404_is_unresolved engine clock_12ms "foo" None []
                  foo_store (Server.json 404 [])
                  (Store.reachable_apply _ _
                     (Store.reachable_apply _ _ Store.reachable_empty)))
           {| Store.hash_of := Store.hash hello; Store.alias_of := Some "foo" |}).
  vm_compute. reflexivity.
Defined.

(** ** Aliases *)

(** X20. Setting an alias to a stored blob makes the name resolve to that
    blob; it keeps the time the alias was first made and moves the time of
    its update, and leaves other aliases alone. Deleting it makes the name
    resolve as a hash again, if at all, and a second delete reports that
    nothing was deleted. *)
Theorem alias_set_then_delete (now name h : string) (s : Store.db) :
  is_Some (Store.blobs s !! h) ->
  let s1 := (Store.setAlias now name h s).2 in
  let s2 := (Store.deleteAlias name s1).2 in
  (Store.setAlias now name h s).1 = Some (name, h)
  /\ Store.getAlias name s1
     = Some {| Store.alias_hash := h;
               Store.created_at :=
                 match Store.getAlias name s with
                 | Some old => Store.created_at old
                 | None => now
                 end;
               Store.updated_at := now |}
  /\ Store.resolveRef name s1
     = Some {| Store.hash_of := h; Store.alias_of := Some name |}
  /\ (forall other, other <> name ->
                    Store.getAlias other s1 = Store.getAlias other s)
  /\ (Store.deleteAlias name s1).1 = true
  /\ Store.getAlias name s2 = None
  /\ Store.resolveRef name s2
     = (if Store.hasBlob name s
        then Some {| Store.hash_of := name; Store.alias_of := None |}
        else None)
  /\ (Store.deleteAlias name s2).1 = false.
Proof.
  intros Hb. apply StoreFacts.hasBlob_true in Hb.
  unfold Store.setAlias. rewrite Hb. cbn [negb fst snd].
  unfold Store.resolveRef, Store.getAlias, Store.deleteAlias, Store.hasBlob.
  cbn [fst snd Store.aliases Store.blobs].
  rewrite !lookup_insert_eq, !lookup_delete_eq.
  split; [reflexivity|]. split; [by destruct (Store.aliases s !! name)|].
  split; [by destruct (Store.aliases s !! name)|].
  split; [intros other Hne; by rewrite lookup_insert_ne|].
  split; [apply bool_decide_eq_true; by eexists|].
  split; [reflexivity|]. split; [reflexivity|].
  apply bool_decide_eq_false. by intros [x Hx].
Qed.

Lemma alias_set_then_delete_witness :
  Store.resolveRef "foo" foo_store
  = Some {| Store.hash_of := Store.hash hello; Store.alias_of := Some "foo" |}.
Proof.
  assert (is_Some (Store.blobs hello_store !! Store.hash hello)) as H
      by (vm_compute; eexists; reflexivity).
  destruct (alias_set_then_delete "2024-03-15T12:34:57.001" "foo" (Store.hash hello)
              hello_store H) as (_ & _ & Hr & _).
  exact Hr.
Defined.

(** ** The handlers that read the store *)

(** X21. [GET /events] lists the newest 50 events when the limit is
    missing, not a number or 0, and the newest [min(n, 500)] events for a
    limit [n] above 0, or all of them when there are fewer. A limit below 0
    and above [- 2 ^ 63] lists every event there is, and with a limit of
    [- 2 ^ 63] or below the statement throws [datatype mismatch]: the
    request fails. *)
Theorem get_events_limit (s : Store.db) :
  Routes.get_events None s = Ok (take 50 (rev (Store.events s)))
  /\ Routes.get_events (Some 0) s = Ok (take 50 (rev (Store.events s)))
  /\ (forall n, 0 < n ->
        exists l,
          Routes.get_events (Some n) s = Ok l
          /\ l = take (Z.to_nat (Z.min n 500)) (rev (Store.events s))
          /\ Z.of_nat (length l)
             = Z.min (Z.min n 500) (Z.of_nat (length (Store.events s))))
  /\ (forall n, - 2 ^ 63 < n < 0 ->
        Routes.get_events (Some n) s = Ok (rev (Store.events s)))
  /\ (forall n, n <= - 2 ^ 63 ->
        Routes.get_events (Some n) s = Throw (Js.Error "datatype mismatch")).
Proof.
  unfold Routes.get_events, Routes.events_limit, Store.recentEvents,
    Store.num_or_null.
  split; [reflexivity|]. split; [reflexivity|]. split; [|split].
  - intros n Hn.
    replace (n =? 0) with false by (symmetry; apply Z.eqb_neq; lia).
    replace (Z.min n 500 <=? - 2 ^ 63) with false
      by (symmetry; apply Z.leb_gt; lia).
    replace (Z.min n 500 <? 0) with false by (symmetry; apply Z.ltb_ge; lia).
    eexists. split; [reflexivity|]. split; [reflexivity|].
    rewrite length_take, length_rev. lia.
  - intros n Hn.
    replace (n =? 0) with false by (symmetry; apply Z.eqb_neq; lia).
    replace (Z.min n 500 <=? - 2 ^ 63) with false
      by (symmetry; apply Z.leb_gt; lia).
    by replace (Z.min n 500 <? 0) with true by (symmetry; apply Z.ltb_lt; lia).
  - intros n Hn.
    replace (n =? 0) with false by (symmetry; apply Z.eqb_neq; lia).
    by replace (Z.min n 500 <=? - 2 ^ 63) with true
      by (symmetry; apply Z.leb_le; lia).
Qed.

Lemma get_events_limit_witness :
  Routes.get_events (Some (-1))
    (Server.post_run engine clock_12ms "t" None hello (stored_as "t" trapping)).2
  = Ok (rev (Store.events
               (Server.post_run engine clock_12ms "t" None hello
                  (stored_as "t" trapping)).2))
  /\ Routes.get_events (Some (- 10 ^ 20))
       (Server.post_run engine clock_12ms "t" None hello (stored_as "t" trapping)).2
     = Throw (Js.Error "datatype mismatch").
Proof.
  destruct (get_events_limit
              (Server.post_run engine clock_12ms "t" None hello
                 (stored_as "t" trapping)).2) as (_ & _ & _ & Hneg & Hlow).
  split; [apply Hneg | apply Hlow]; lia.
Defined.

(** X22. In a state the store reaches [HEAD /blob/:ref] and [GET
    /blob/:ref] give the same status, 404 exactly when the reference does
    not resolve, and the [Content-Length] of the one is the length of the
    body of the other; the other headers are the same. *)
Theorem head_blob_matches_get_blob (ref : string) (s : Store.db) :
  Store.reachable s ->
  Server.status (Routes.head_blob ref s) = Server.status (Routes.get_blob ref s)
  /\ (Server.status (Routes.get_blob ref s) = 404 <-> Store.resolveRef ref s = None)
  /\ forall r,
      Store.resolveRef ref s = Some r ->
      exists d,
        Store.getBlob (Store.hash_of r) s = Some d
        /\ Routes.get_blob ref s
           = {| Server.status := 200;
                Server.headers :=
                  [("Content-Type", Server.Text "application/octet-stream");
                   ("Cache-Control",
                    Server.Text "public, immutable, max-age=31536000")]
                    ++ Routes.resolved_header r;
                Server.content := Server.Bytes d |}
        /\ Routes.head_blob ref s
           = {| Server.status := 200;
                Server.headers :=
                  [("Content-Type", Server.Text "application/octet-stream");
                   ("Content-Length", Server.Text (Js.dec (Z.of_nat (length d))));
                   ("Cache-Control",
                    Server.Text "public, immutable, max-age=31536000")]
                    ++ Routes.resolved_header r;
                Server.content := Server.Bytes [] |}.
Proof.
  intros Hs. unfold Routes.head_blob, Routes.get_blob.
  destruct (Store.resolveRef ref s) as [r|] eqn:Er.
  - destruct (RunFacts.resolveRef_stored ref s r Hs Er) as [b Hb].
    destruct (proj1 (StoreFacts.reachable_ok s Hs) _ b Hb) as [_ Hsize].
    unfold Store.blobSize, Store.getBlob. rewrite Hb.
    cbn [fmap option_fmap option_map Server.status].
    split; [reflexivity|]. split; [split; discriminate|].
    intros r' [= <-]. exists (Store.data b). rewrite Hsize, Hb.
    split; [reflexivity|split; reflexivity].
  - cbn. split; [reflexivity|]. split; [done|]. discriminate.
Qed.

Lemma head_blob_matches_get_blob_witness :
  Server.status (Routes.head_blob "foo" foo_store)
  = Server.status (Routes.get_blob "foo" foo_store).
Proof.
  apply (proj1 (head_blob_matches_get_blob "foo" foo_store
                  (Store.reachable_apply _ _
                     (Store.reachable_apply _ _ Store.reachable_empty)))).
Defined.

(** ** The handlers that write the store *)

(** [POST /run/:ref] up to its [try] block, for a [ref] that resolves to a
    stored module and an input that is there: the body, or the blob that
    the [input] of the query resolves to. The store then holds the resolve
    events of the aliases and the input. *)
Lemma post_run_input (rt : WebAssembly.Runtime) (c : Server.clock) (ref : string)
    (inputRef : option string) (reqBody wasmBytes inputBytes : list byte)
    (inputHash : string) (s : Store.db) (r : Store.resolved) :
  Store.resolveRef ref s = Some r ->
  Store.getBlob (Store.hash_of r) s = Some wasmBytes ->
  (Server.truthy inputRef = false
   /\ inputBytes = reqBody /\ inputHash = Store.hash reqBody)
  \/ (exists ri,
        Server.truthy inputRef = true
        /\ Store.resolveRef (default "" inputRef) s = Some ri
        /\ Store.getBlob (Store.hash_of ri) s = Some inputBytes
        /\ inputHash = Store.hash_of ri) ->
  exists pre s',
    Forall (fun e => Store.type e = "resolve") pre
    /\ Server.post_run rt c ref inputRef reqBody s
       = Server.run_try rt c (Store.hash_of r) inputHash wasmBytes inputBytes s'
    /\ Store.events s' = (Store.events s ++ pre)%list
    /\ (forall h, is_Some (Store.blobs s !! h) -> is_Some (Store.blobs s' !! h))
    /\ is_Some (Store.blobs s' !! inputHash)
    /\ (Store.blobs_ok s -> Store.blobs_ok s').
Proof.
  intros Hres Hblob Hinput. unfold Store.getBlob in Hblob.
  destruct (Store.blobs s !! Store.hash_of r) as [mb|] eqn:Hmb; [|discriminate].
  cbn in Hblob. injection Hblob as <-.
  destruct (record_resolve_events c r s) as (pre & Hrec & Hpre); [by exists mb|].
  unfold Server.post_run. rewrite Hres, Hrec.
  unfold Store.getBlob. cbn [Store.blobs]. rewrite Hmb.
  cbn [fmap option_fmap option_map].
  set (s1 := {| Store.blobs := Store.blobs s;
                Store.events := (Store.events s ++ pre)%list;
                Store.aliases := Store.aliases s |}).
  destruct Hinput as [(Htruthy & -> & ->)|(ri & Htruthy & Hri & Hget & ->)];
    rewrite Htruthy.
  - exists pre, (Store.putBlob (Server.now c) reqBody s1).2.
    split; [exact Hpre|].
    destruct (StoreFacts.putBlob_stored (Server.now c) reqBody s1) as [Hib Hih].
    split.
    { destruct (Store.putBlob (Server.now c) reqBody s1) as [ih s2].
      cbn [fst snd] in *. by subst ih. }
    split; [by rewrite StoreFacts.putBlob_events|].
    split; [intros h Hh; by apply StoreFacts.putBlob_keeps|].
    split; [exact Hib|].
    intros Hok. by apply (StoreFacts.apply_blobs_ok (Store.PutBlob _ _) s1).
  - assert (Store.resolveRef (default "" inputRef) s1 = Some ri) as ->
        by exact Hri.
    unfold Store.getBlob in Hget.
    destruct (Store.blobs s !! Store.hash_of ri) as [ib|] eqn:Hib; [|discriminate].
    cbn in Hget. injection Hget as <-.
    destruct (record_resolve_events c ri s1) as (pre2 & Hrec2 & Hpre2);
      [by exists ib|].
    rewrite Hrec2. cbn [Store.blobs s1]. rewrite Hib.
    cbn [fmap option_fmap option_map].
    eexists (pre ++ pre2)%list, _. split; [by apply Forall_app|].
    split; [reflexivity|]. cbn [Store.events Store.blobs s1].
    split; [by rewrite app_assoc|]. split; [done|]. split; [by exists ib|done].
Qed.

(** X23. A run that returns is answered 200 with the output as the body
    and the hashes of the module, the input and the output in the headers,
    whether the input is the body of the request or the blob that the
    [input] of the query resolves to. The input and the output are in the
    store afterwards, and after the resolve events of the aliases one
    execute event is recorded, with [success = 1], the three hashes, the
    size of the output and the duration, both NULL when 0. *)
Theorem post_run_success_recorded
    (rt : WebAssembly.Runtime) (c : Server.clock) (ref : string)
    (inputRef : option string) (reqBody wasmBytes inputBytes output : list byte)
    (inputHash : string) (s : Store.db) (r : Store.resolved) :
  Store.reachable s ->
  Store.resolveRef ref s = Some r ->
  Store.getBlob (Store.hash_of r) s = Some wasmBytes ->
  (Server.truthy inputRef = false
   /\ inputBytes = reqBody /\ inputHash = Store.hash reqBody)
  \/ (exists ri,
        Server.truthy inputRef = true
        /\ Store.resolveRef (default "" inputRef) s = Some ri
        /\ Store.getBlob (Store.hash_of ri) s = Some inputBytes
        /\ inputHash = Store.hash_of ri) ->
  Harness.executeModule rt wasmBytes inputBytes = Ok output ->
  let out := Server.post_run rt c ref inputRef reqBody s in
  out.1 = Ok {| Server.status := 200;
                Server.headers :=
                  [("Content-Type", Server.Text "application/octet-stream");
                   ("X-Module-Hash", Server.Text (Store.hash_of r));
                   ("X-Input-Hash", Server.Text inputHash);
                   ("X-Output-Hash", Server.Text (Store.hash output))];
                Server.content := Server.Bytes output |}
  /\ is_Some (Store.getBlob inputHash out.2)
  /\ is_Some (Store.getBlob (Store.hash output) out.2)
  /\ exists pre e,
      Store.events out.2 = (Store.events s ++ pre ++ [e])%list
      /\ Forall (fun e => Store.type e = "resolve") pre
      /\ Store.type e = "execute"
      /\ Store.success e = 1
      /\ Store.module_hash e = Some (Store.hash_of r)
      /\ Store.input_hash e = Some inputHash
      /\ Store.output_hash e = Some (Store.hash output)
      /\ Store.output_size e = Store.num_or_null (Some (Z.of_nat (length output)))
      /\ Store.duration_ms e = Store.num_or_null (Some (Server.t1 c - Server.t0 c))
      /\ Store.error e = None.
Proof.
  intros Hs Hres Hblob Hinput Hexec out.
  destruct (StoreFacts.reachable_ok s Hs) as [Hok _].
  destruct (post_run_input rt c ref inputRef reqBody wasmBytes inputBytes
              inputHash s r Hres Hblob Hinput)
    as (pre & s2 & Hpre & Hout & Hev & Hkeep & Hib & Hok2).
  fold out in Hout. specialize (Hok2 Hok).
  assert (exists mb, Store.blobs s !! Store.hash_of r = Some mb) as [mb Hmb].
  { unfold Store.getBlob in Hblob.
    destruct (Store.blobs s !! Store.hash_of r) as [mb|];
      [by exists mb | discriminate Hblob]. }
  set (s3 := (Store.putBlob (Server.now c) output s2).2).
  assert (Store.putBlob (Server.now c) output s2 = (Store.hash output, s3)) as Hput.
  { destruct (StoreFacts.putBlob_stored (Server.now c) output s2) as [_ Hoh].
    unfold s3. destruct (Store.putBlob (Server.now c) output s2). cbn in *. by subst. }
  assert (is_Some (Store.blobs s3 !! Store.hash output)) as Hob
      by apply StoreFacts.putBlob_stored.
  assert (is_Some (Store.blobs s3 !! inputHash)) as Hib3
      by (by apply StoreFacts.putBlob_keeps).
  assert (is_Some (Store.blobs s3 !! Store.hash_of r)) as Hmb3
      by (apply StoreFacts.putBlob_keeps, Hkeep; by exists mb).
  set (f := Server.execute_ok (Store.hash_of r) inputHash
              (Store.hash output) output (Server.t1 c - Server.t0 c)).
  assert (out = (Ok {| Server.status := 200;
                       Server.headers :=
                         [("Content-Type", Server.Text "application/octet-stream");
                          ("X-Module-Hash", Server.Text (Store.hash_of r));
                          ("X-Input-Hash", Server.Text inputHash);
                          ("X-Output-Hash", Server.Text (Store.hash output))];
                       Server.content := Server.Bytes output |},
                 Store.add_event (Store.event_row (Server.now c) f s3) s3)) as ->.
  { rewrite Hout. unfold Server.run_try. rewrite Hexec, Hput.
    rewrite StoreFacts.recordEvent_Ok; [reflexivity | | |];
      by apply StoreFacts.references_key. }
  cbn [fst snd]. split; [reflexivity|].
  assert (forall h, is_Some (Store.blobs s3 !! h) ->
                    is_Some (Store.getBlob h
                               (Store.add_event
                                  (Store.event_row (Server.now c) f s3) s3))) as Hget.
  { intros h [b Hb]. exists (Store.data b). unfold Store.getBlob.
    cbn [Store.add_event Store.blobs]. by rewrite Hb. }
  split; [by apply Hget|]. split; [by apply Hget|].
  exists pre, (Store.event_row (Server.now c) f s3). split.
  { cbn [Store.add_event Store.events]. unfold s3.
    rewrite StoreFacts.putBlob_events, Hev. by rewrite <- app_assoc. }
  split; [exact Hpre|].
  cbn [Store.event_row f Server.execute_ok Store.type Store.module_hash
       Store.input_hash Store.output_hash Store.success Store.duration_ms
       Store.output_size Store.error Store.f_type Store.f_moduleHash
       Store.f_inputHash Store.f_outputHash Store.f_outputSize Store.f_success
       Store.f_durationMs Store.f_error].
  split; [reflexivity|]. split; [reflexivity|].
  split; [by apply (StoreFacts.str_or_null_key s _ mb)|].
  split; [destruct Hib as [ib Hib]; by apply (StoreFacts.str_or_null_key s2 _ ib)|].
  split; [apply StoreFacts.str_or_null_hash|].
  split; [reflexivity|]. split; reflexivity.
Qed.

Lemma post_run_success_recorded_witness :
  (Server.post_run engine clock_12ms "m" None hello (stored_as "m" returns_5)).1
  = Ok {| Server.status := 200;
          Server.headers :=
            [("Content-Type", Server.Text "application/octet-stream");
             ("X-Module-Hash", Server.Text (Store.hash returns_5));
             ("X-Input-Hash", Server.Text (Store.hash hello));
             ("X-Output-Hash", Server.Text (Store.hash [x00; x00; x00; x00; x00]))];
          Server.content := Server.Bytes [x00; x00; x00; x00; x00] |}
  /\ (Server.post_run engine clock_12ms "m" (Some "m") [] (stored_as "m" returns_5)).1
     = Ok {| Server.status := 200;
             Server.headers :=
               [("Content-Type", Server.Text "application/octet-stream");
                ("X-Module-Hash", Server.Text (Store.hash returns_5));
                ("X-Input-Hash", Server.Text (Store.hash returns_5));
                ("X-Output-Hash",
                 Server.Text (Store.hash [x00; x00; x00; x00; x00]))];
             Server.content := Server.Bytes [x00; x00; x00; x00; x00] |}.
Proof.
  assert (Store.resolveRef "m" (stored_as "m" returns_5)
          = Some (ref_to "m" returns_5)) as H1 by (vm_compute; reflexivity).
  assert (Store.getBlob (Store.hash_of (ref_to "m" returns_5))
            (stored_as "m" returns_5) = Some returns_5) as H2
      by (vm_compute; reflexivity).
  assert (Harness.executeModule engine returns_5 hello
          = Ok [x00; x00; x00; x00; x00]) as H3 by (vm_compute; reflexivity).
  assert (Harness.executeModule engine returns_5 returns_5
          = Ok [x00; x00; x00; x00; x00]) as H4 by (vm_compute; reflexivity).
  split.
  - destruct (post_run_success_recorded engine clock_12ms "m" None hello returns_5
                hello [x00; x00; x00; x00; x00] (Store.hash hello)
                (stored_as "m" returns_5) (ref_to "m" returns_5)
                (stored_as_reachable "m" returns_5) H1 H2
                (or_introl (conj eq_refl (conj eq_refl eq_refl))) H3)
      as [H _].
    exact H.
  - destruct (post_run_success_recorded engine clock_12ms "m" (Some "m") []
                returns_5 returns_5 [x00; x00; x00; x00; x00]
                (Store.hash returns_5)
                (stored_as "m" returns_5) (ref_to "m" returns_5)
                (stored_as_reachable "m" returns_5) H1 H2
                (or_intror (ex_intro _ (ref_to "m" returns_5)
                              (conj eq_refl (conj H1 (conj H2 eq_refl))))) H4)
      as [H _].
    exact H.
Defined.

(** X24. When the toolchain fails, [POST /compile] answers 400 with the
    [stderr] of the compiler, or the message of the error when [stderr] is
    empty, and with its [stdout] or the empty string; the source is stored
    all the same, and one compile event is recorded with [success = 0],
    the language, the hash of the source, no output and that error. *)
Theorem post_compile_failure_recorded
    (tc : Server.Toolchain) (c : Server.clock) (lang source message : string)
    (stderr stdout : option string) (s : Store.db) :
  Validate.has Server.compilers lang = true ->
  source <> "" ->
  tc lang source = Server.Failed message stderr stdout ->
  let errorMsg := default message (Store.str_or_null stderr) in
  let out := Server.post_compile tc c lang source s in
  out.1 = Ok (Server.json 400 [("error", "Compilation failed");
                               ("stderr", errorMsg);
                               ("stdout", default "" (Store.str_or_null stdout))])
  /\ is_Some (Store.getBlob (Store.hash (list_byte_of_string source)) out.2)
  /\ exists e,
      Store.events out.2 = (Store.events s ++ [e])%list
      /\ Store.type e = "compile"
      /\ Store.language e = Store.str_or_null (Some lang)
      /\ Store.input_hash e = Some (Store.hash (list_byte_of_string source))
      /\ Store.output_hash e = None
      /\ Store.output_size e = None
      /\ Store.success e = 0
      /\ Store.error e = Store.str_or_null (Some errorMsg).
Proof.
  intros Hlang Hsrc Htc errorMsg out. unfold out, Server.post_compile.
  unfold Server.found. rewrite Hlang. cbn [orb negb].
  destruct (String.eqb_spec source ""); [done|].
  set (s1 := (Store.putBlob (Server.now c) (list_byte_of_string source) s).2).
  assert (Store.putBlob (Server.now c) (list_byte_of_string source) s
          = (Store.hash (list_byte_of_string source), s1)) as ->.
  { destruct (StoreFacts.putBlob_stored (Server.now c) (list_byte_of_string source) s)
      as [_ Hh].
    unfold s1. destruct (Store.putBlob _ _ s). cbn in *. by subst. }
  rewrite Htc. unfold Server.compile_catch. fold errorMsg.
  destruct (StoreFacts.putBlob_stored (Server.now c) (list_byte_of_string source) s)
    as [[ib Hib] _].
  fold s1 in Hib.
  rewrite StoreFacts.recordEvent_Ok.
  - cbn [fst snd]. split; [reflexivity|]. split.
    { exists (Store.data ib). unfold Store.getBlob.
      cbn [Store.add_event Store.blobs]. by rewrite Hib. }
    eexists. split.
    { cbn [Store.add_event Store.events]. unfold s1.
      by rewrite StoreFacts.putBlob_events. }
    cbn [Store.event_row Server.compile_failed Store.type Store.language
         Store.input_hash Store.output_hash Store.output_size Store.success
         Store.error Store.f_type Store.f_language Store.f_inputHash
         Store.f_outputHash Store.f_outputSize Store.f_success Store.f_error].
    split; [reflexivity|]. split; [reflexivity|].
    split; [apply StoreFacts.str_or_null_hash|]. by repeat split.
  - apply StoreFacts.references_key. by exists ib.
  - reflexivity.
  - reflexivity.
Qed.


Lemma post_compile_failure_recorded_witness :
  (Server.post_compile fails_silently clock_12ms "zig" "pub fn" Store.empty).1
  = Ok (Server.json 400 [("error", "Compilation failed");
                         ("stderr", "Command failed: zig build-exe");
                         ("stdout", "")]).
Proof.
  destruct (post_compile_failure_recorded fails_silently clock_12ms "zig" "pub fn"
              "Command failed: zig build-exe" (Some "") None Store.empty
              ltac:(reflexivity) ltac:(discriminate) ltac:(reflexivity)) as [H _].
  exact H.
Defined.

(** X25. [DELETE /alias/:name] never throws in a state the store reaches.
    It answers 404 and changes nothing when there is no such alias;
    otherwise it answers 200, the alias is gone, and one alias event is
    recorded with the hash the alias had. *)
Theorem delete_alias_total (c : Server.clock) (name : string) (s : Store.db) :
  Store.reachable s ->
  let out := Server.delete_alias c name s in
  (Store.getAlias name s = None ->
   out.1 = Ok (Server.json 404 [("error", "Alias not found")])
   /\ Store.blobs out.2 = Store.blobs s
   /\ Store.events out.2 = Store.events s
   /\ Store.aliases out.2 = Store.aliases s)
  /\ (forall a,
        Store.getAlias name s = Some a ->
        out.1 = Ok (Server.json 200 [("deleted", name)])
        /\ Store.getAlias name out.2 = None
        /\ exists e,
            Store.events out.2 = (Store.events s ++ [e])%list
            /\ Store.type e = "alias"
            /\ Store.event_alias e = Store.str_or_null (Some name)
            /\ Store.output_hash e = Some (Store.alias_hash a)
            /\ Store.success e = 1).
Proof.
  intros Hs out. unfold out, Server.delete_alias, Store.deleteAlias, Store.getAlias.
  split.
  - intros Ha. rewrite Ha.
    replace (bool_decide (is_Some None)) with false
      by (symmetry; apply bool_decide_eq_false; by intros [x Hx]).
    cbn [negb fst snd Store.blobs Store.events Store.aliases].
    split; [reflexivity|]. split; [reflexivity|]. split; [reflexivity|].
    by apply delete_id.
  - intros a Ha. rewrite Ha.
    replace (bool_decide (is_Some (Some a))) with true
      by (symmetry; apply bool_decide_eq_true; by eexists).
    cbn [negb].
    destruct (proj2 (StoreFacts.reachable_ok s Hs) name a Ha) as [b Hb].
    destruct (proj1 (StoreFacts.reachable_ok s Hs) _ b Hb) as [Hh _].
    rewrite StoreFacts.recordEvent_Ok.
    + cbn [fst snd]. split; [reflexivity|]. split.
      { cbn [Store.add_event Store.aliases]. apply lookup_delete_eq. }
      eexists. split; [reflexivity|].
      cbn [Store.event_row Server.alias_event Store.type Store.event_alias
           Store.output_hash Store.success Store.f_type Store.f_alias
           Store.f_outputHash Store.f_success].
      split; [reflexivity|]. split; [reflexivity|].
      split; [|reflexivity]. rewrite Hh. apply StoreFacts.str_or_null_hash.
    + reflexivity.
    + cbn [Server.alias_event Store.f_outputHash].
      apply StoreFacts.references_key. by exists b.
    + reflexivity.
Qed.

Lemma delete_alias_total_witness :
  (Server.delete_alias clock_12ms "foo" foo_store).1
  = Ok (Server.json 200 [("deleted", "foo")]).
Proof.
  destruct (delete_alias_total clock_12ms "foo" foo_store
              (Store.reachable_apply _ _
                 (Store.reachable_apply _ _ Store.reachable_empty))) as [_ H].
  destruct (H {| Store.alias_hash := Store.hash hello;
                 Store.created_at := "2024-03-15T12:34:57.001";
                 Store.updated_at := "2024-03-15T12:34:57.001" |}
              ltac:(vm_compute; reflexivity)) as [H1 _].
  exact H1.
Defined.

(** X26. [PUT /alias/:name] with the hash of a stored blob answers 200 with
    the name and the hash, records one alias event, and from then on the
    name resolves to that hash and [GET /alias/:name] shows it. *)
Theorem put_alias_sets (c : Server.clock) (name h : string) (s : Store.db) :
  Store.reachable s ->
  is_Some (Store.blobs s !! h) ->
  let out := Server.put_alias c name (Some h) s in
  out.1 = Ok (Server.json 200 [("name", name); ("hash", h)])
  /\ Store.resolveRef name out.2
     = Some {| Store.hash_of := h; Store.alias_of := Some name |}
  /\ Server.status (Routes.get_alias name out.2) = 200
  /\ exists e,
      Store.events out.2 = (Store.events s ++ [e])%list
      /\ Store.type e = "alias"
      /\ Store.output_hash e = Some h
      /\ Store.success e = 1.
Proof.
  intros Hs [b Hb] out.
  destruct (proj1 (StoreFacts.reachable_ok s Hs) _ b Hb) as [Hh _].
  assert (Store.str_or_null (Some h) = Some h) as Hnull
      by (rewrite Hh; apply StoreFacts.str_or_null_hash).
  unfold out, Server.put_alias, Server.truthy. rewrite Hnull. cbn [negb].
  change (default "" (Some h)) with h.
  unfold Store.setAlias.
  replace (Store.hasBlob h s) with true
    by (symmetry; apply StoreFacts.hasBlob_true; by exists b).
  cbn [negb].
  rewrite StoreFacts.recordEvent_Ok.
  - cbn [fst snd]. split; [reflexivity|].
    unfold Store.resolveRef, Routes.get_alias, Store.getAlias.
    cbn [Store.add_event Store.aliases]. rewrite lookup_insert_eq.
    split; [by destruct (Store.aliases s !! name)|].
    split; [reflexivity|].
    eexists. split; [reflexivity|].
    cbn [Store.event_row Server.alias_event Store.type Store.output_hash
         Store.success Store.f_type Store.f_outputHash Store.f_success].
    split; [reflexivity|]. split; [exact Hnull|reflexivity].
  - reflexivity.
  - cbn [Server.alias_event Store.f_outputHash].
    rewrite Hnull. cbn [Store.references_blob Store.blobs].
    apply StoreFacts.hasBlob_true. cbn [Store.blobs]. by exists b.
  - reflexivity.
Qed.

Lemma put_alias_sets_witness :
  (Server.put_alias clock_12ms "bar" (Some (Store.hash hello)) hello_store).1
  = Ok (Server.json 200 [("name", "bar"); ("hash", Store.hash hello)]).
Proof.
  destruct (put_alias_sets clock_12ms "bar" (Store.hash hello) hello_store
              (Store.reachable_apply _ _ Store.reachable_empty)
              ltac:(vm_compute; eexists; reflexivity)) as [H _].
  exact H.
Defined.

(** ** The execution harness *)

Module HarnessFacts.

(** [executeModule] up to the copy of the input, for an instance that
    exports [run] and [memory]: [_initialize] first, then [grow] when there
    are less than two pages, then [set]. *)
Lemma call_run_unfold (rt : WebAssembly.Runtime) (wasmBytes inputBytes : list byte)
    (inst : WebAssembly.Instance) (run : WebAssembly.export) (pages : Z)
    (mem0 : list byte) :
  rt wasmBytes = Ok inst ->
  WebAssembly.exports inst !! "run" = Some run ->
  WebAssembly.exports inst !! "memory" = Some WebAssembly.Memory ->
  initialized inst mem0 ->
  Z.of_nat (length mem0) = pages * 65536 ->
  Harness.call_run rt wasmBytes inputBytes
  = match (if pages <? 2
           then WebAssembly.grow (WebAssembly.maximum inst) (2 - pages) mem0
           else Ok mem0) with
    | Ok mem =>
        match WebAssembly.set mem inputBytes Harness.INPUT_PTR with
        | Ok mem =>
            WebAssembly.call "run" run
              [Harness.INPUT_PTR; Z.of_nat (length inputBytes); Harness.OUTPUT_PTR]
              mem
        | Throw e => Throw e
        end
    | Throw e => Throw e
    end.
Proof.
  intros Hrt Hrun Hmem Hinit Hlen.
  unfold Harness.call_run, Validate.rbind. rewrite Hrt, Hrun, Hmem.
  destruct Hinit as [[-> ->]|(init & r & -> & ->)];
    cbn [WebAssembly.byteLength snd];
    rewrite Hlen, Z.div_mul by lia;
    change (Harness.ceil_div (Harness.OUTPUT_PTR + Harness.MAX_OUTPUT) 65536) with 2;
    reflexivity.
Qed.

Lemma grow_to_two (maximum : option Z) (pages : Z) (mem0 : list byte) :
  Z.of_nat (length mem0) = pages * 65536 ->
  pages < 2 ->
  WebAssembly.grow maximum (2 - pages) mem0
  = if match maximum with Some m => 2 <=? m | None => true end
    then Ok (mem0 ++ repeat x00 (Z.to_nat ((2 - pages) * 65536)))%list
    else Throw (Js.RangeError
                  "WebAssembly.Memory.grow(): Maximum memory size exceeded").
Proof.
  intros Hlen Hp. unfold WebAssembly.grow, WebAssembly.PAGE.
  rewrite Hlen, Z.div_mul by lia.
  replace (pages + (2 - pages)) with 2 by lia.
  destruct maximum as [m|]; [|reflexivity].
  destruct (Z.leb_spec 2 m).
  - by replace (2 <=? Z.min m 65536) with true by (symmetry; apply Z.leb_le; lia).
  - by replace (2 <=? Z.min m 65536) with false by (symmetry; apply Z.leb_gt; lia).
Qed.

End HarnessFacts.

(** X27. For a module that exports [run] and [memory], [executeModule]
    calls [_initialize] first, if it is exported, and fails with its error
    if it throws. On the memory that is there then, it makes the memory two
    pages long if it is shorter, and fails with the [RangeError] of [grow]
    if the maximum of the memory is below two pages; otherwise it writes
    the input at address 0 over what is there, and calls [run] with the
    address 0, the length of the input and the address 65536, as long as
    the input is no longer than the memory. *)
Theorem executeModule_lays_out_memory
    (rt : WebAssembly.Runtime) (wasmBytes inputBytes : list byte)
    (inst : WebAssembly.Instance)
    (f : list Z -> list byte -> result (option Z * list byte)) :
  rt wasmBytes = Ok inst ->
  WebAssembly.exports inst !! "run" = Some (WebAssembly.Func f) ->
  WebAssembly.exports inst !! "memory" = Some WebAssembly.Memory ->
  (forall init e,
     WebAssembly.exports inst !! "_initialize" = Some init ->
     WebAssembly.call "_initialize" init [] (WebAssembly.buffer inst) = Throw e ->
     Harness.executeModule rt wasmBytes inputBytes = Throw e)
  /\ (forall mem0 pages,
        initialized inst mem0 ->
        Z.of_nat (length mem0) = pages * 65536 ->
        (pages < 2 -> ~ two_pages_allowed inst ->
         Harness.executeModule rt wasmBytes inputBytes
         = Throw (Js.RangeError
                    "WebAssembly.Memory.grow(): Maximum memory size exceeded"))
        /\ ((pages < 2 -> two_pages_allowed inst) ->
            Z.of_nat (length inputBytes) <= Z.max pages 2 * 65536 ->
            let grown :=
              (mem0 ++ repeat x00 (Z.to_nat ((2 - pages) * 65536)))%list in
            Z.of_nat (length grown) = Z.max pages 2 * 65536
            /\ Harness.call_run rt wasmBytes inputBytes
               = f [0; Z.of_nat (length inputBytes); 65536]
                   (inputBytes ++ drop (length inputBytes) grown)%list)).
Proof.
  intros Hrt Hrun Hmem. split.
  - intros init e Hinit Hcall.
    unfold Harness.executeModule, Harness.call_run, Validate.rbind.
    by rewrite Hrt, Hrun, Hmem, Hinit, Hcall.
  - intros mem0 pages Hinit Hlen.
    pose proof (HarnessFacts.call_run_unfold rt wasmBytes inputBytes inst _ pages
                  mem0 Hrt Hrun Hmem Hinit Hlen) as Hcall.
    split.
    + intros Hp Hmax. unfold Harness.executeModule, Validate.rbind.
      rewrite Hcall.
      replace (pages <? 2) with true by (symmetry; apply Z.ltb_lt; lia).
      rewrite (HarnessFacts.grow_to_two _ pages mem0 Hlen Hp).
      unfold two_pages_allowed in Hmax.
      destruct (WebAssembly.maximum inst) as [m|]; [|by destruct Hmax].
      by replace (2 <=? m) with false by (symmetry; apply Z.leb_gt; lia).
    + intros Hmax Hin grown.
      assert (Z.of_nat (length grown) = Z.max pages 2 * 65536) as Hgrown.
      { unfold grown. rewrite length_app, repeat_length. lia. }
      split; [exact Hgrown|]. rewrite Hcall.
      assert ((if pages <? 2
               then WebAssembly.grow (WebAssembly.maximum inst) (2 - pages) mem0
               else Ok mem0) = Ok grown) as ->.
      { destruct (Z.ltb_spec pages 2) as [Hp|Hp].
        - rewrite (HarnessFacts.grow_to_two _ pages mem0 Hlen Hp).
          specialize (Hmax Hp). unfold two_pages_allowed in Hmax.
          destruct (WebAssembly.maximum inst) as [m|]; [|reflexivity].
          by replace (2 <=? m) with true by (symmetry; apply Z.leb_le; lia).
        - unfold grown. replace (Z.to_nat ((2 - pages) * 65536)) with 0%nat by lia.
          cbn [repeat]. by rewrite app_nil_r. }
      unfold WebAssembly.set, Harness.INPUT_PTR, Harness.OUTPUT_PTR.
      replace (0 + Z.of_nat (length inputBytes) <=? Z.of_nat (length grown))
        with true by (symmetry; apply Z.leb_le; lia).
      reflexivity.
Qed.

Lemma executeModule_lays_out_memory_witness :
  Harness.call_run engine returns_5 hello
  = i32_const 5 [0; 5; 65536]
      (hello ++ drop 5 (repeat x00 (Z.to_nat (1 * 65536))
                        ++ repeat x00 (Z.to_nat ((2 - 1) * 65536))))%list
  /\ Harness.executeModule (fun _ => Ok one_page_only) returns_5 hello
     = Throw (Js.RangeError
                "WebAssembly.Memory.grow(): Maximum memory size exceeded").
Proof.
  split.
  - destruct (executeModule_lays_out_memory engine returns_5 hello
                (instance_with 1 (i32_const 5)) (i32_const 5)
                ltac:(reflexivity) ltac:(reflexivity) ltac:(reflexivity))
      as [_ H].
    destruct (H (repeat x00 (Z.to_nat (1 * 65536))) 1
                ltac:(left; split; reflexivity) ltac:(vm_compute; reflexivity))
      as [_ H'].
    destruct (H' ltac:(intros _; exact I) ltac:(vm_compute; discriminate))
      as [_ H''].
    exact H''.
  - destruct (executeModule_lays_out_memory (fun _ => Ok one_page_only)
                returns_5 hello one_page_only (i32_const 5)
                ltac:(reflexivity) ltac:(reflexivity) ltac:(reflexivity))
      as [_ H].
    destruct (H (repeat x00 (Z.to_nat (1 * 65536))) 1
                ltac:(left; split; reflexivity) ltac:(vm_compute; reflexivity))
      as [H' _].
    apply H'; [lia|]. unfold two_pages_allowed. cbn. lia.
Defined.

(** X28. When [_initialize], if it is exported, has returned, and the
    memory is two pages long or more, as it is or after it was grown, an
    input longer than the memory makes [executeModule] throw the
    [RangeError] of [set]; [run] is not called. *)
Theorem executeModule_input_too_long
    (rt : WebAssembly.Runtime) (wasmBytes inputBytes : list byte)
    (inst : WebAssembly.Instance) (run : WebAssembly.export) (pages : Z)
    (mem0 : list byte) :
  rt wasmBytes = Ok inst ->
  WebAssembly.exports inst !! "run" = Some run ->
  WebAssembly.exports inst !! "memory" = Some WebAssembly.Memory ->
  initialized inst mem0 ->
  Z.of_nat (length mem0) = pages * 65536 ->
  (pages < 2 -> two_pages_allowed inst) ->
  Z.max pages 2 * 65536 < Z.of_nat (length inputBytes) ->
  Harness.executeModule rt wasmBytes inputBytes
  = Throw (Js.RangeError "offset is out of bounds").
Proof.
  intros Hrt Hrun Hmem Hinit Hlen Hmax Hin.
  unfold Harness.executeModule, Validate.rbind.
  rewrite (HarnessFacts.call_run_unfold rt wasmBytes inputBytes inst run pages
             mem0 Hrt Hrun Hmem Hinit Hlen).
  assert ((if pages <? 2
           then WebAssembly.grow (WebAssembly.maximum inst) (2 - pages) mem0
           else Ok mem0)
          = Ok (mem0 ++ repeat x00 (Z.to_nat ((2 - pages) * 65536)))%list) as ->.
  { destruct (Z.ltb_spec pages 2) as [Hp|Hp].
    - rewrite (HarnessFacts.grow_to_two _ pages mem0 Hlen Hp).
      specialize (Hmax Hp). unfold two_pages_allowed in Hmax.
      destruct (WebAssembly.maximum inst) as [m|]; [|reflexivity].
      by replace (2 <=? m) with true by (symmetry; apply Z.leb_le; lia).
    - replace (Z.to_nat ((2 - pages) * 65536)) with 0%nat by lia.
      cbn [repeat]. by rewrite app_nil_r. }
  unfold WebAssembly.set, Harness.INPUT_PTR.
  replace (0 + Z.of_nat (length inputBytes) <=? _) with false; [reflexivity|].
  symmetry. apply Z.leb_gt. rewrite length_app, repeat_length. lia.
Qed.

Lemma executeModule_input_too_long_witness :
  Harness.executeModule engine returns_5 (repeat x00 (Z.to_nat 131073))
  = Throw (Js.RangeError "offset is out of bounds").
Proof.
  apply (executeModule_input_too_long engine returns_5 (repeat x00 (Z.to_nat 131073))
           (instance_with 1 (i32_const 5)) (WebAssembly.Func (i32_const 5)) 1
           (repeat x00 (Z.to_nat (1 * 65536)))
           ltac:(reflexivity) ltac:(reflexivity) ltac:(reflexivity)
           ltac:(left; split; reflexivity) ltac:(vm_compute; reflexivity)
           ltac:(intros _; exact I)).
  vm_compute. reflexivity.
Defined.

(** ** The statistics *)

Module StatsFacts.

Import Store Queries.

Lemma sum_flags (l : list Z) :
  Forall (fun x => x = 0 \/ x = 1) l ->
  0 <= foldr Z.add 0 l <= Z.of_nat (length l).
Proof.
  induction 1 as [|x l Hx _ IH]; cbn [foldr length]; [lia|].
  destruct Hx as [-> | ->]; lia.
Qed.

Lemma distinct_stored (f : event -> option string) (s : db) :
  (forall e h, e ∈ events s -> f e = Some h -> is_Some (blobs s !! h)) ->
  count_distinct (f <$> events s) <= Z.of_nat (base.size (blobs s)).
Proof.
  intros H. unfold count_distinct.
  rewrite <- (size_dom (D := gset string) (blobs s)).
  apply inj_le, subseteq_size. intros x Hx. unfold distinct in Hx.
  apply elem_of_list_to_set, list_elem_of_omap in Hx.
  destruct Hx as (y & Hy & ->). apply list_elem_of_fmap in Hy.
  destruct Hy as (e & Hfe & He). apply elem_of_dom. by apply (H e).
Qed.

End StatsFacts.

(** X29. The statistics of a state the store reaches: with no event the
    sums are NULL, the failures too; with events the successes are between
    0 and the number of events and the failures are the rest; and there
    are no more distinct inputs and no more distinct outputs than there
    are blobs. *)
Theorem stats_of_reachable_store (s : Store.db) :
  Store.reachable s ->
  let st := Queries.stats s in
  (Store.events s = [] ->
   Queries.total_events st = 0
   /\ Queries.successes st = None /\ Queries.failures st = None
   /\ Queries.compiles st = None /\ Queries.executions st = None
   /\ Queries.resolutions st = None)
  /\ (Store.events s <> [] ->
      exists k,
        Queries.successes st = Some k
        /\ Queries.failures st = Some (Queries.total_events st - k)
        /\ 0 <= k <= Queries.total_events st)
  /\ Queries.unique_inputs st <= Queries.total_blobs st
  /\ Queries.unique_outputs st <= Queries.total_blobs st.
Proof.
  intros Hs st. split; [|split; [|split]].
  - intros He. unfold st, Queries.stats, Queries.sum_type. rewrite He.
    cbn. by repeat split.
  - intros He. unfold st, Queries.stats.
    cbn [Queries.successes Queries.failures Queries.total_events].
    destruct (Store.events s) as [|e l] eqn:E; [done|].
    exists (foldr Z.add 0 (Store.success <$> e :: l)).
    split; [reflexivity|]. split; [reflexivity|].
    rewrite <- (length_fmap Store.success (e :: l)).
    apply StatsFacts.sum_flags. apply Forall_fmap, Forall_forall.
    intros e' He'. rewrite <- E in He'. cbn.
    apply (proj1 (events_name_stored_blobs_aux s e' Hs He')).
  - apply (StatsFacts.distinct_stored Store.input_hash).
    intros e h He Hh.
    destruct (proj2 (events_name_stored_blobs_aux s e Hs He) h (or_introl Hh))
      as [d Hd].
    unfold Store.getBlob in Hd.
    destruct (Store.blobs s !! h); [by eexists | discriminate Hd].
  - apply (StatsFacts.distinct_stored Store.output_hash).
    intros e h He Hh.
    destruct (proj2 (events_name_stored_blobs_aux s e Hs He) h
                (or_intror (or_introl Hh))) as [d Hd].
    unfold Store.getBlob in Hd.
    destruct (Store.blobs s !! h); [by eexists | discriminate Hd].
Qed.

Lemma stats_of_reachable_store_witness :
  Queries.unique_outputs (Queries.stats foo_store)
  <= Queries.total_blobs (Queries.stats foo_store).
Proof.
  destruct (stats_of_reachable_store foo_store
              (Store.reachable_apply _ _
                 (Store.reachable_apply _ _ Store.reachable_empty)))
    as (_ & _ & _ & H).
  exact H.
Defined.

(** ** From a compile to the blob *)

Module FetchFacts.

Import Store.

(** The blob stored under the hash of [x] after [putBlob] holds [x],
    unless the store held other bytes with that hash before. *)
Lemma getBlob_putBlob now x s :
  blobs_ok s ->
  (forall h b, blobs s !! h = Some b -> hash (data b) = hash x -> data b = x) ->
  getBlob (hash x) (putBlob now x s).2 = Some x.
Proof.
  intros Hok Hfree. unfold getBlob.
  rewrite StoreFacts.putBlob_blobs, decide_True by reflexivity.
  destruct (blobs s !! hash x) as [b|] eqn:E; [|reflexivity].
  cbn. f_equal. apply (Hfree _ b E). by destruct (Hok _ b E) as [<- _].
Qed.

End FetchFacts.

(** X30. The module a compile answers with can be fetched under the hash of
    its [X-Output-Hash] header: [GET /blob/<hash>] then answers 200 with
    the same bytes, as long as no alias has that hash as its name and the
    store holds no other bytes with that hash. *)
Theorem compiled_module_is_served
    (tc : Server.Toolchain) (c : Server.clock) (lang source : string)
    (wasm : list byte) (v : Validate.validation) (s : Store.db) :
  Store.reachable s ->
  Validate.has Server.compilers lang = true ->
  source <> "" ->
  tc lang source = Server.Built wasm ->
  Validate.validate wasm = Ok v ->
  Store.getAlias (Store.hash wasm) s = None ->
  (forall h b, Store.blobs s !! h = Some b ->
               Store.hash (Store.data b) = Store.hash wasm -> Store.data b = wasm) ->
  (Store.hash (list_byte_of_string source) = Store.hash wasm ->
   list_byte_of_string source = wasm) ->
  Routes.get_blob (Store.hash wasm) (Server.post_compile tc c lang source s).2
  = {| Server.status := 200;
       Server.headers :=
         [("Content-Type", Server.Text "application/octet-stream");
          ("Cache-Control", Server.Text "public, immutable, max-age=31536000")];
       Server.content := Server.Bytes wasm |}.
Proof.
  intros Hs Hlang Hsrc Htc Hv Halias Hfree Hfree'.
  destruct (StoreFacts.reachable_ok s Hs) as [Hok _].
  set (s1 := (Store.putBlob (Server.now c) (list_byte_of_string source) s).2).
  set (s2 := (Store.putBlob (Server.now c) wasm s1).2).
  assert (Store.blobs_ok s1) as Hok1
      by apply (StoreFacts.apply_blobs_ok (Store.PutBlob _ _) s Hok).
  assert (Store.getBlob (Store.hash wasm) s2 = Some wasm) as Hget.
  { apply FetchFacts.getBlob_putBlob; [exact Hok1|].
    intros h b. unfold s1. rewrite StoreFacts.putBlob_blobs.
    case_decide as Hh.
    - destruct (Store.blobs s !! h) as [b'|] eqn:E.
      + intros [= <-]. by apply (Hfree h).
      + intros [= <-]. cbn [Store.data]. exact Hfree'.
    - apply Hfree. }
  assert (Store.aliases s2 = Store.aliases s) as Ha2.
  { unfold s2, s1, Store.putBlob.
    destruct (Store.blobs s !! _); cbn [snd Store.aliases Store.blobs];
      by destruct (_ !! Store.hash wasm). }
  assert (Store.blobs (Server.post_compile tc c lang source s).2 = Store.blobs s2
          /\ Store.aliases (Server.post_compile tc c lang source s).2
             = Store.aliases s2) as [Hblobs Haliases].
  { unfold Server.post_compile, Server.found. rewrite Hlang. cbn [orb negb].
    destruct (String.eqb_spec source ""); [done|].
    assert (Store.putBlob (Server.now c) (list_byte_of_string source) s
            = (Store.hash (list_byte_of_string source), s1)) as ->.
    { destruct (StoreFacts.putBlob_stored (Server.now c)
                  (list_byte_of_string source) s) as [_ Hh].
      unfold s1. destruct (Store.putBlob _ _ s). cbn in *. by subst. }
    rewrite Htc. unfold Server.compile_send.
    assert (Store.putBlob (Server.now c) wasm s1 = (Store.hash wasm, s2)) as ->.
    { destruct (StoreFacts.putBlob_stored (Server.now c) wasm s1) as [_ Hh].
      unfold s2. destruct (Store.putBlob _ _ s1). cbn in *. by subst. }
    rewrite Hv. rewrite StoreFacts.recordEvent_Ok.
    - destruct (Server.set_headers _) as [set [err|]]; [|by cbn].
      unfold Server.compile_catch.
      destruct (Store.recordEvent _ _ _) as [x|] eqn:E; [|by cbn].
      unfold Store.recordEvent in E.
      destruct (_ && _) in E; [|discriminate E].
      injection E as <-. by cbn.
    - apply StoreFacts.references_key, StoreFacts.putBlob_keeps,
        StoreFacts.putBlob_stored.
    - apply StoreFacts.references_key, StoreFacts.putBlob_stored.
    - reflexivity. }
  unfold Routes.get_blob, Store.resolveRef, Store.getAlias, Store.hasBlob.
  rewrite Hblobs, Haliases, Ha2.
  unfold Store.getAlias in Halias. rewrite Halias.
  unfold Store.getBlob in *. rewrite Hblobs.
  destruct (Store.blobs s2 !! Store.hash wasm) as [b|] eqn:E; [|discriminate Hget].
  replace (bool_decide (is_Some (Some b))) with true
    by (symmetry; apply bool_decide_eq_true; by eexists).
  cbn [Store.hash_of]. rewrite E. cbn [fmap option_fmap option_map] in *.
  injection Hget as Hd. by rewrite Hd.
Qed.

Lemma compiled_module_is_served_witness :
  Routes.get_blob (Store.hash conformant_module)
    (Server.post_compile (builds conformant_module) clock_12ms "zig" "pub fn"
       Store.empty).2
  = {| Server.status := 200;
       Server.headers :=
         [("Content-Type", Server.Text "application/octet-stream");
          ("Cache-Control", Server.Text "public, immutable, max-age=31536000")];
       Server.content := Server.Bytes conformant_module |}.
Proof.
  apply (compiled_module_is_served (builds conformant_module) clock_12ms "zig"
           "pub fn" conformant_module
           (match Validate.validate conformant_module with
            | Ok v => v
            | Throw _ => Validate.verdict [] ([], None)
            end)
           Store.empty Store.reachable_empty).
  - reflexivity.
  - discriminate.
  - reflexivity.
  - vm_compute. reflexivity.
  - reflexivity.
  - intros h b H. cbn in H. rewrite lookup_empty in H. discriminate H.
  - intros H. vm_compute in H. discriminate H.
Defined.
